(** * ChineseFormatter: chunking, de-duplication and the streaming client

    A shallow embedding of [src/chinese_formatter-ollama.py] (class
    [ChineseFormatter]) and of the parts of Python's [str], [re] and
    [difflib] it relies on, followed by the properties of the chunker, the
    de-duplicator, the repetition watchdog and the retry wrapper.

    Conventions.
    - A Python [str] is a list of Unicode code points ([char := N]), so
      [len] is [length] and slicing is [firstn]/[skipn].
    - Python [int] arguments that may be zero or negative ([max_chars],
      [window_size], [max_retries]) are [Z].
    - The network is an oracle: the [n]-th request of a run gets the [n]-th
      answer of the endpoint; the requests made are logged. *)

From Stdlib Require Import String Ascii.
From Stdlib Require Import List NArith ZArith Bool Arith Lia Relations.
Import ListNotations.

(** ** Python strings *)

Module PyStr.

Definition char := N.
Definition str := list char.

Definition nl : char := 10%N.            (* '\n' *)
Definition lbracket : char := 91%N.      (* '[' *)
Definition rbracket : char := 93%N.      (* ']' *)
Definition ellipsis : char := 8230%N.    (* U+2026 *)
Definition ideo_comma : char := 12289%N. (* U+3001 *)
Definition ideo_stop : char := 12290%N.  (* U+3002 *)
Definition lenticular_l : char := 12304%N. (* U+3010 *)
Definition lenticular_r : char := 12305%N. (* U+3011 *)
Definition fw_excl : char := 65281%N.    (* U+FF01 *)
Definition fw_comma : char := 65292%N.   (* U+FF0C *)
Definition fw_colon : char := 65306%N.   (* U+FF1A *)
Definition fw_semi : char := 65307%N.    (* U+FF1B *)
Definition fw_quest : char := 65311%N.   (* U+FF1F *)

(** ASCII literals, for writing test strings. *)
Definition lit (s : string) : str :=
  List.map (fun a => N_of_ascii a) (list_ascii_of_string s).

(** [str.isspace] on one code point, which is also what [\s] matches in a
    [str] pattern: CPython's [_PyUnicode_IsWhitespace]. *)
Definition isspace (c : char) : bool :=
  (((9 <=? c) && (c <=? 13)) || ((28 <=? c) && (c <=? 32))
   || (c =? 133) || (c =? 160) || (c =? 5760)
   || ((8192 <=? c) && (c <=? 8202))
   || (c =? 8232) || (c =? 8233) || (c =? 8239) || (c =? 8287)
   || (c =? 12288))%N.

(** Truthiness of a string: [if s:]. *)
Definition nonempty (s : str) : bool :=
  match s with [] => false | _ :: _ => true end.

Fixpoint lstrip_by (p : char -> bool) (s : str) : str :=
  match s with
  | [] => []
  | c :: r => if p c then lstrip_by p r else s
  end.

Fixpoint rstrip_by (p : char -> bool) (s : str) : str :=
  match s with
  | [] => []
  | c :: r =>
      match rstrip_by p r with
      | [] => if p c then [] else [c]
      | r' => c :: r'
      end
  end.

(** [s.strip()] *)
Definition strip (s : str) : str := lstrip_by isspace (rstrip_by isspace s).

(** [s.lstrip('\n')] *)
Definition lstrip_nl (s : str) : str := lstrip_by (N.eqb nl) s.

Fixpoint startswith (p s : str) : bool :=
  match p, s with
  | [], _ => true
  | _ :: _, [] => false
  | a :: p', b :: s' => (a =? b)%N && startswith p' s'
  end.

(** [needle in hay] *)
Fixpoint contains (needle hay : str) : bool :=
  startswith needle hay ||
  match hay with
  | [] => false
  | _ :: r => contains needle r
  end.

Definition cons_head (c : char) (l : list str) : list str :=
  match l with
  | [] => [[c]]
  | h :: t => (c :: h) :: t
  end.

(** [s.split('\n')] *)
Fixpoint split_lines (s : str) : list str :=
  match s with
  | [] => [[]]
  | c :: r => if (c =? nl)%N then [] :: split_lines r
              else cons_head c (split_lines r)
  end.

(** [s.split('\n\n')]: leftmost, non-overlapping separators. *)
Fixpoint split_paragraphs (s : str) : list str :=
  match s with
  | [] => [[]]
  | c :: r =>
      match r with
      | c2 :: r2 =>
          if ((c =? nl) && (c2 =? nl))%N then [] :: split_paragraphs r2
          else cons_head c (split_paragraphs r)
      | [] => [[c]]
      end
  end.

(** ['\n\n'.join(parts)] *)
Fixpoint join_paragraphs (parts : list str) : str :=
  match parts with
  | [] => []
  | [p] => p
  | p :: rest => p ++ nl :: nl :: join_paragraphs rest
  end.

(** Python slices [s[lo:hi]], [s[lo:]] and [s[:hi]] for arbitrary integer
    bounds: a negative bound counts from the end, and every bound is clamped
    to [0 .. len s]. *)
Definition slice_index (n : nat) (i : Z) : nat :=
  if (i <? 0)%Z then Z.to_nat (Z.max 0 (Z.of_nat n + i))
  else Nat.min n (Z.to_nat i).

Definition slice (s : str) (lo hi : Z) : str :=
  let a := slice_index (length s) lo in
  let b := slice_index (length s) hi in
  firstn (b - a) (skipn a s).

Definition slice_from (s : str) (lo : Z) : str :=
  skipn (slice_index (length s) lo) s.

Definition slice_to (s : str) (hi : Z) : str :=
  firstn (slice_index (length s) hi) s.

End PyStr.

Import PyStr.

(** ** The chunker: [split_text] *)

(** [re.match(r'\[([^\]]+)\]：', line)]: on success the label (group 1) and
    what follows the whole match, [line[len(group(0)):]].  The class
    [[^\]]] cannot cross a [']'], so the greedy [+] has a single way to
    match. *)
Fixpoint span_label (s : str) : str * str :=
  match s with
  | [] => ([], [])
  | c :: r =>
      if (c =? rbracket)%N then ([], s)
      else let (l, rest) := span_label r in (c :: l, rest)
  end.

Definition match_speaker (line : str) : option (str * str) :=
  match line with
  | c :: r =>
      if (c =? lbracket)%N then
        match span_label r with
        | ((_ :: _) as label, _ :: c2 :: rest) =>
            if (c2 =? fw_colon)%N then Some (label, rest) else None
        | _ => None
        end
      else None
  | [] => None
  end.

(** [f"[{current_speaker}]：{content}"] *)
Definition speaker_block (speaker content : str) : str :=
  lbracket :: speaker ++ rbracket :: fw_colon :: content.

(** Lines 199-203 and 210-214: save the running speaker's content.
    [current_speaker] is [None] or a non-empty label and [current_content]
    is then a non-empty list, so the test [current_speaker and
    current_content] is the test that a speaker is open. *)
Definition save_block (current : option (str * list str))
                      (speaker_blocks : list str) : list str :=
  match current with
  | Some (current_speaker, current_content) =>
      let content := strip (concat current_content) in
      if nonempty content
      then speaker_blocks ++ [speaker_block current_speaker content]
      else speaker_blocks
  | None => speaker_blocks
  end.

(** The loop of lines 195-214 over [text.split('\n')]. *)
Fixpoint scan_lines (lines : list str) (current : option (str * list str))
                    (speaker_blocks : list str) : list str :=
  match lines with
  | [] => save_block current speaker_blocks
  | line :: rest =>
      match match_speaker line with
      | Some (label, after) =>
          scan_lines rest (Some (label, [after]))
                     (save_block current speaker_blocks)
      | None =>
          match current with
          | Some (spk, content) =>
              scan_lines rest (Some (spk, content ++ [line])) speaker_blocks
          | None => scan_lines rest None speaker_blocks
          end
      end
  end.

Definition speaker_blocks (text : str) : list str :=
  scan_lines (split_lines text) None [].

(** The class [[。！？；…\n]] of [sentence_endings]. *)
Definition is_sentence_ending (c : char) : bool :=
  ((c =? ideo_stop) || (c =? fw_excl) || (c =? fw_quest) || (c =? fw_semi)
   || (c =? ellipsis) || (c =? nl))%N.

(** [re.split('([。！？；…\n]+)', text)]: the pieces between maximal runs of
    ending characters, alternating with those runs; the list has odd
    length and starts and ends with a (possibly empty) piece.  The split of
    the rest starts with an empty piece followed by a run exactly when the
    rest starts with an ending character, and then [c] joins that run. *)
Fixpoint re_split_endings (s : str) : list str :=
  match s with
  | [] => [[]]
  | c :: r =>
      if is_sentence_ending c then
        match re_split_endings r with
        | [] :: d :: rest => [] :: (c :: d) :: rest
        | pieces => [] :: [c] :: pieces
        end
      else cons_head c (re_split_endings r)
  end.

(** Lines 222-226: [sentences[i]] with its delimiter [sentences[i+1]], for
    [i] in [range(0, len(sentences), 2)]. *)
Fixpoint with_delimiters (sentences : list str) : list str :=
  match sentences with
  | [] => []
  | [piece] => [piece]
  | piece :: delim :: rest => (piece ++ delim) :: with_delimiters rest
  end.

(** [if current_chunk.strip(): chunks.append(current_chunk.strip())] *)
Definition flush_chunk (chunks : list str) (current_chunk : str) : list str :=
  if nonempty (strip current_chunk) then chunks ++ [strip current_chunk]
  else chunks.

(** Lines 222-236: greedy packing of sentences. *)
Fixpoint pack_sentences (max_chars : Z) (sentences chunks : list str)
                        (current_chunk : str) : list str :=
  match sentences with
  | [] => flush_chunk chunks current_chunk
  | sentence :: rest =>
      if (Z.of_nat (length current_chunk + length sentence) <=? max_chars)%Z
      then pack_sentences max_chars rest chunks (current_chunk ++ sentence)
      else pack_sentences max_chars rest (flush_chunk chunks current_chunk)
                          sentence
  end.

(** Lines 243-252: greedy packing of speaker blocks; the separator that is
    inserted is not part of the test. *)
Fixpoint pack_blocks (max_chars : Z) (blocks chunks : list str)
                     (current_chunk : str) : list str :=
  match blocks with
  | [] => flush_chunk chunks current_chunk
  | block :: rest =>
      if (Z.of_nat (length current_chunk + length block) <=? max_chars)%Z
      then pack_blocks max_chars rest chunks
             (current_chunk
                ++ (if nonempty current_chunk then [nl; nl] else [])
                ++ block)
      else pack_blocks max_chars rest (flush_chunk chunks current_chunk) block
  end.

(** [return chunks if chunks else [text]] *)
Definition chunks_or_text (chunks : list str) (text : str) : list str :=
  match chunks with
  | [] => [text]
  | _ :: _ => chunks
  end.

Definition split_text (text : str) (max_chars : Z) : list str :=
  match speaker_blocks text with
  | [] =>
      chunks_or_text
        (pack_sentences max_chars
           (with_delimiters (re_split_endings text)) [] [])
        text
  | blocks => chunks_or_text (pack_blocks max_chars blocks [] []) text
  end.

(** ** [difflib.SequenceMatcher(None, a, b)]

    CPython's algorithm with [isjunk = None] and [autojunk = True]: no
    element is junk, and when [len(b) >= 200] the elements of [b] that occur
    more than [len(b) // 100 + 1] times are "popular" and left out of
    [b2j]. *)

Module Difflib.

Fixpoint indices_of (x : char) (b : str) (j : nat) : list nat :=
  match b with
  | [] => []
  | y :: r => if (x =? y)%N then j :: indices_of x r (S j)
              else indices_of x r (S j)
  end.

Definition popular (b : str) (x : char) : bool :=
  (200 <=? length b) && (length b / 100 + 1 <? length (indices_of x b 0)).

(** [b2j.get(x, [])] after [__chain_b]. *)
Definition b2j (b : str) (x : char) : list nat :=
  if popular b x then [] else indices_of x b 0.

(** [j2len.get(j - 1, 0)]; the dictionary is an association list. *)
Fixpoint lookup (m : list (nat * nat)) (j : nat) : nat :=
  match m with
  | [] => 0
  | (j', v) :: r => if j' =? j then v else lookup r j
  end.

Definition j2lenget_pred (j2len : list (nat * nat)) (j : nat) : nat :=
  match j with
  | 0 => 0
  | S j' => lookup j2len j'
  end.

Definition match_triple := (nat * nat * nat)%type.

(** The inner loop of [find_longest_match] over the positions of [a[i]]
    in [b]. *)
Fixpoint scan_positions (js : list nat) (i blo bhi : nat)
    (j2len newj2len : list (nat * nat)) (best : match_triple)
  : list (nat * nat) * match_triple :=
  match js with
  | [] => (newj2len, best)
  | j :: rest =>
      if j <? blo then scan_positions rest i blo bhi j2len newj2len best
      else if bhi <=? j then (newj2len, best)
      else
        let k := j2lenget_pred j2len j + 1 in
        let '(_, _, bestsize) := best in
        scan_positions rest i blo bhi j2len ((j, k) :: newj2len)
          (if bestsize <? k then (i + 1 - k, j + 1 - k, k) else best)
  end.

(** The outer loop, [for i in range(alo, ahi)]; [a_rest] is [a[i:ahi]]. *)
Fixpoint scan_elements (b : str) (a_rest : str) (i blo bhi : nat)
    (j2len : list (nat * nat)) (best : match_triple) : match_triple :=
  match a_rest with
  | [] => best
  | x :: r =>
      let '(newj2len, best') :=
        scan_positions (b2j b x) i blo bhi j2len [] best in
      scan_elements b r (S i) blo bhi newj2len best'
  end.

Definition same_at (a b : str) (i j : nat) : bool :=
  match nth_error a i, nth_error b j with
  | Some x, Some y => (x =? y)%N
  | _, _ => false
  end.

(** [while besti > alo and bestj > blo and a[besti-1] == b[bestj-1]] *)
Fixpoint extend_left (a b : str) (alo blo besti bestj bestsize : nat)
  : match_triple :=
  match besti with
  | 0 => (besti, bestj, bestsize)
  | S i' =>
      if (alo <? besti) && (blo <? bestj) && same_at a b i' (bestj - 1)
      then extend_left a b alo blo i' (bestj - 1) (bestsize + 1)
      else (besti, bestj, bestsize)
  end.

(** [while besti+bestsize < ahi and bestj+bestsize < bhi and
    a[besti+bestsize] == b[bestj+bestsize]]; the loop runs at most
    [ahi] times, which is the fuel it is given. *)
Fixpoint extend_right (fuel : nat) (a b : str) (ahi bhi besti bestj bestsize : nat)
  : match_triple :=
  match fuel with
  | 0 => (besti, bestj, bestsize)
  | S f =>
      if (besti + bestsize <? ahi) && (bestj + bestsize <? bhi)
         && same_at a b (besti + bestsize) (bestj + bestsize)
      then extend_right f a b ahi bhi besti bestj (bestsize + 1)
      else (besti, bestj, bestsize)
  end.

(** [find_longest_match(alo, ahi, blo, bhi)].  The two loops that extend
    the match by junk elements never run, since nothing is junk. *)
Definition find_longest_match (a b : str) (alo ahi blo bhi : nat)
  : match_triple :=
  let '(besti, bestj, bestsize) :=
    scan_elements b (firstn (ahi - alo) (skipn alo a)) alo blo bhi []
                  (alo, blo, 0) in
  let '(besti, bestj, bestsize) :=
    extend_left a b alo blo besti bestj bestsize in
  extend_right ahi a b ahi bhi besti bestj bestsize.

(** The sum of the sizes of [get_matching_blocks()]: the longest match of
    a region, then the regions on its left and on its right.  Every region
    taken from the queue is strictly shorter in [a] than the one it comes
    from, so [S (ahi - alo)] levels are enough ([matched_fuel]). *)
Fixpoint matched (fuel : nat) (a b : str) (alo ahi blo bhi : nat) : nat :=
  match fuel with
  | 0 => 0
  | S f =>
      let '(i, j, k) := find_longest_match a b alo ahi blo bhi in
      if k =? 0 then 0
      else
        k + (if (alo <? i) && (blo <? j) then matched f a b alo i blo j else 0)
          + (if (i + k <? ahi) && (j + k <? bhi)
             then matched f a b (i + k) ahi (j + k) bhi else 0)
  end.

Definition matches (a b : str) : nat :=
  matched (S (length a)) a b 0 (length a) 0 (length b).

(** [ratio() >= 0.80], for [ratio() = 2.0 * matches / length] and [1.0]
    when [length] is 0.  The quotient is a correctly rounded double and
    [0.80] is the double nearest to 4/5, so for lengths below 2^50 the
    test is the exact one, [5 * matches >= 2 * length]. *)
Definition ratio_at_least_080 (a b : str) : bool :=
  let total := length a + length b in
  if total =? 0 then true else 2 * total <=? 5 * matches a b.

End Difflib.

(** ** The de-duplicator: [remove_duplicates] *)

(** The characters of ['。！？；'], line 270. *)
Definition is_terminator (c : char) : bool :=
  ((c =? ideo_stop) || (c =? fw_excl) || (c =? fw_quest) || (c =? fw_semi))%N.

(** The class [[。！？；，、\s]] of lines 298-299 and 347-348. *)
Definition is_punct_or_space (c : char) : bool :=
  is_terminator c || (c =? fw_comma)%N || (c =? ideo_comma)%N || isspace c.

(** [re.sub(r'[。！？；，、\s]', '', s)] *)
Definition clean (s : str) : str :=
  filter (fun c => negb (is_punct_or_space c)) s.

(** [if sentence: sentence_list.append(sentence)] *)
Definition keep_nonempty (s : str) : list str :=
  if nonempty s then [s] else [].

(** Lines 268-286 in one pass: [pending] is [text[last_end+1 : i]], the
    characters read since the last terminator.  At a terminator the unit
    [text[last_end+1 : end+1].strip()] is emitted; at the end, the test
    [last_end < len(text) - 1] is the test that [pending] is not empty. *)
Fixpoint extract_sentences (text pending : str) : list str :=
  match text with
  | [] =>
      if nonempty pending then keep_nonempty (strip pending) else []
  | c :: r =>
      if is_terminator c
      then keep_nonempty (strip (pending ++ [c])) ++ extract_sentences r []
      else extract_sentences r (pending ++ [c])
  end.

Definition sentence_list (text : str) : list str := extract_sentences text [].

(** The body of the inner loop of lines 296-313 for one kept sentence:
    whether [sentence] is taken as a duplicate of [kept_sentence]. *)
Definition sentence_collides (sentence kept_sentence : str) : bool :=
  let s1_clean := clean sentence in
  let s2_clean := clean kept_sentence in
  nonempty s1_clean && nonempty s2_clean
  && Difflib.ratio_at_least_080 s1_clean s2_clean.

(** [for kept in unique: ... break]: the first kept unit the new one
    collides with. *)
Fixpoint first_collision (collides : str -> bool) (unique : list str)
  : option str :=
  match unique with
  | [] => None
  | kept :: rest =>
      if collides kept then Some kept else first_collision collides rest
  end.

Definition str_eqb (a b : str) : bool :=
  if list_eq_dec N.eq_dec a b then true else false.

(** [list.remove(x)]: the first element equal to [x] goes. *)
Fixpoint list_remove (x : str) (l : list str) : list str :=
  match l with
  | [] => []
  | y :: r => if str_eqb x y then r else y :: list_remove x r
  end.

(** One round of the outer loop (lines 292-316, and 334-360 for
    paragraphs). *)
Definition add_unique (collides : str -> str -> bool)
                      (unique : list str) (unit : str) : list str :=
  match first_collision (collides unit) unique with
  | Some kept =>
      if length kept <? length unit
      then list_remove kept unique ++ [unit]
      else unique
  | None => unique ++ [unit]
  end.

Definition unique_sentences (sentences : list str) : list str :=
  fold_left (add_unique sentence_collides) sentences [].

(** Lines 332-357 for one kept paragraph.  [group(0)] of the two matches
    are equal exactly when the labels are; the contents may clean to the
    empty string, and two empty strings have ratio 1.0. *)
Definition paragraph_collides (para kept_para : str) : bool :=
  match match_speaker para, match_speaker kept_para with
  | Some (label1, after1), Some (label2, after2) =>
      if str_eqb label1 label2 then
        let content1 := strip after1 in
        let content2 := strip after2 in
        nonempty content1 && nonempty content2
        && Difflib.ratio_at_least_080 (clean content1) (clean content2)
      else false
  | _, _ => false
  end.

(** [para = para.strip(); if not para: continue] *)
Definition stripped_paragraphs (paragraphs : list str) : list str :=
  filter nonempty (map strip paragraphs).

Definition unique_paragraphs (paragraphs : list str) : list str :=
  fold_left (add_unique paragraph_collides) (stripped_paragraphs paragraphs) [].

Definition has_speaker_tags (dedup_text : str) : bool :=
  contains [lbracket] dedup_text && contains [rbracket; fw_colon] dedup_text.

Definition remove_duplicates (text : str) : str :=
  let dedup_text := concat (unique_sentences (sentence_list text)) in
  if has_speaker_tags dedup_text
  then join_paragraphs (unique_paragraphs (split_paragraphs dedup_text))
  else dedup_text.

(** ** [format_speaker_paragraphs] *)

Fixpoint span_inner (s : str) : str * str :=
  match s with
  | [] => ([], [])
  | c :: r =>
      if (c =? lenticular_r)%N then ([], s)
      else let (l, rest) := span_inner r in (c :: l, rest)
  end.

(** The length of the match of [【([^】]+)】] at the head of [s], if any. *)
Definition match_tag_length (s : str) : option nat :=
  match s with
  | c :: r =>
      if (c =? lenticular_l)%N then
        match span_inner r with
        | ((_ :: _) as inner, _ :: _) => Some (length inner + 2)
        | _ => None
        end
      else None
  | [] => None
  end.

(** [re.sub(pattern, replacer, text)]: matches are looked for from left to
    right and do not overlap; [inside] counts the characters of the current
    match still to be copied, and [at_start] is [match.start() == 0]. *)
Fixpoint sub_tags (s : str) (at_start : bool) (inside : nat) : str :=
  match s with
  | [] => []
  | c :: r =>
      match inside with
      | S k => c :: sub_tags r false k
      | 0 =>
          match match_tag_length s with
          | Some n =>
              (if at_start then [] else [nl]) ++ c :: sub_tags r false (n - 1)
          | None => c :: sub_tags r false 0
          end
      end
  end.

Definition format_speaker_paragraphs (text : str) : str :=
  lstrip_nl (sub_tags text true 0).

(** ** The repetition check: [detect_repetition] *)

Definition detect_repetition (text : str) (window_size : Z) : bool :=
  if (Z.of_nat (length text) <? window_size * 2)%Z then false
  else
    let tail := slice_from text (- window_size) in
    let search_range :=
      if (500 <? Z.of_nat (length text))%Z
      then slice text (-500) (- window_size)
      else slice_to text (- window_size) in
    contains tail search_range.

(** ** The streaming call: [_stream_response] *)

(** One item of [response.iter_lines()].  The two clock readings of a data
    line are the values of [time.time()] at lines 522 and 535. *)
Inductive line :=
| Blank                       (* [if line:] fails *)
| Malformed                   (* [json.loads] raises [JSONDecodeError] *)
| Broken                      (* any other exception while reading *)
| Data (response : option str) (done : bool) (t_output t_now : Z).

Inductive stop_reason :=
| Completed | Stalled | RepetitionStopped | Exhausted | Failed.

Record stream_state := {
  response_text : str;
  last_output_time : Z;
  no_output_count : Z;
  last_check_length : nat
}.

Definition max_no_output_intervals : Z := 3.
Definition check_interval : Z := 30.
Definition repetition_check_interval : nat := 500.
Definition default_window_size : Z := 100.

(** The loop of lines 516-556; the result is the reason the loop ended and
    the state at that moment. *)
Fixpoint stream_loop (lines : list line) (st : stream_state)
  : stop_reason * stream_state :=
  match lines with
  | [] => (Exhausted, st)
  | Blank :: rest => stream_loop rest st
  | Malformed :: rest => stream_loop rest st
  | Broken :: _ => (Failed, st)
  | Data response done t_output t_now :: rest =>
      let st1 :=
        match response with
        | Some delta =>
            {| response_text := response_text st ++ delta;
               last_output_time := t_output;
               no_output_count := 0;
               last_check_length := last_check_length st |}
        | None => st
        end in
      if done then (Completed, st1)
      else
        let idle := (check_interval <? t_now - last_output_time st1)%Z in
        let count := if idle then (no_output_count st1 + 1)%Z
                     else no_output_count st1 in
        if idle && (max_no_output_intervals <=? count)%Z
        then (Stalled,
              {| response_text := response_text st1;
                 last_output_time := last_output_time st1;
                 no_output_count := count;
                 last_check_length := last_check_length st1 |})
        else
          let st2 :=
            {| response_text := response_text st1;
               last_output_time := if idle then t_now
                                   else last_output_time st1;
               no_output_count := count;
               last_check_length := last_check_length st1 |} in
          if repetition_check_interval
               <=? length (response_text st2) - last_check_length st2
          then
            if detect_repetition (response_text st2) default_window_size
            then (RepetitionStopped, st2)
            else stream_loop rest
                   {| response_text := response_text st2;
                      last_output_time := last_output_time st2;
                      no_output_count := no_output_count st2;
                      last_check_length := length (response_text st2) |}
          else stream_loop rest st2
  end.

(** What [requests.post(..., stream=True)] and [raise_for_status()] give:
    an exception, or a stream of lines opened at clock reading [t0]. *)
Inductive stream_reply :=
| SConnectTimeout             (* [requests.exceptions.Timeout] *)
| SConnectError               (* any other exception *)
| SLines (t0 : Z) (lines : list line).

Definition initial_state (t0 : Z) : stream_state :=
  {| response_text := []; last_output_time := t0;
     no_output_count := 0; last_check_length := 0 |}.

(** Lines 505-574.  Every exception is caught and gives [""]; the two
    branches on an empty text (lines 560-565) both return [""], whatever
    [attempt] is. *)
Definition _stream_response (reply : stream_reply) (attempt : Z) : str :=
  match reply with
  | SConnectTimeout => []
  | SConnectError => []
  | SLines t0 lines =>
      match stream_loop lines (initial_state t0) with
      | (Failed, _) => []
      | (_, st) => strip (response_text st)
      end
  end.

(** ** The retry wrapper: [call_ollama] *)

(** The prompt built at lines 607-611: the template filled with the chunk,
    its length and [int(chunk_length * 0.8)], which is [4 * n / 5] rounded
    down for every length below 2^50. *)
Record prompt := {
  prompt_text : str;
  prompt_text_length : nat;
  prompt_target_length : nat
}.

Definition processing_prompt (chunk : str) : prompt :=
  {| prompt_text := chunk;
     prompt_text_length := length chunk;
     prompt_target_length := 4 * length chunk / 5 |}.

(** What the non-streaming [requests.post], [raise_for_status()] and
    [response.json()] give. *)
Inductive plain_reply :=
| PTimeout                    (* [requests.exceptions.Timeout] *)
| PRequestError               (* another [RequestException] *)
| POtherError                 (* an exception that is neither *)
| PBody (response : str).     (* [result.get('response', '')] *)

(** The endpoint answers the [n]-th request of a run. *)
Record endpoint := {
  stream_answer : nat -> stream_reply;
  plain_answer : nat -> plain_reply
}.

(** A request as logged: the prompt and the [stream] flag. *)
Definition request := (prompt * bool)%type.

Inductive exn := ZeroDivisionError | UncaughtError.

Inductive outcome (A : Type) :=
| Returned (a : A)
| Raised (e : exn).
Arguments Returned {A} a.
Arguments Raised {A} e.

(** Lines 442-480; [remaining] counts the iterations of
    [range(max_retries + 1)] still to run. *)
Fixpoint attempts (ep : endpoint) (p : prompt) (max_retries : Z)
    (use_stream : bool) (remaining : nat) (attempt : Z) (log : list request)
  : outcome str * list request :=
  match remaining with
  | 0 => (Returned [], log)
  | S rem =>
      let n := length log in
      let log' := log ++ [(p, use_stream)] in
      if use_stream
      then (Returned (_stream_response (stream_answer ep n) attempt), log')
      else
        match plain_answer ep n with
        | PBody response =>
            let response_text := strip response in
            if nonempty response_text then (Returned response_text, log')
            else if (attempt <? max_retries)%Z
                 then attempts ep p max_retries use_stream rem (attempt + 1) log'
                 else (Returned [], log')
        | PTimeout | PRequestError =>
            if (attempt <? max_retries)%Z
            then attempts ep p max_retries use_stream rem (attempt + 1) log'
            else (Returned [], log')
        | POtherError => (Raised UncaughtError, log')
        end
  end.

Definition call_ollama (ep : endpoint) (p : prompt) (max_retries : Z)
    (use_stream : bool) (log : list request) : outcome str * list request :=
  attempts ep p max_retries use_stream (Z.to_nat (max_retries + 1)) 0 log.

(** ** [process_transcript] *)

(** [len(result) / chunk_length * 100 < 60] (lines 628 and 631).  Both
    float operations are correctly rounded, 3/5 rounds to a double whose
    product with 100 rounds to 60.0, and any other quotient of lengths
    below 2^40 is far from 3/5: the test is [5 * len(result) < 3 *
    chunk_length]. *)
Definition too_short (result chunk : str) : bool :=
  5 * length result <? 3 * length chunk.

(** Lines 638-660: format, and fall back to the chunk when nothing is
    left. *)
Definition finish_chunk (chunk result : str) : str :=
  let result := format_speaker_paragraphs result in
  if nonempty result then result else chunk.

(** The body of the loop of lines 599-664 for one chunk: what is appended
    to [processed_chunks], and the requests made. *)
Definition process_chunk (ep : endpoint) (chunk : str) (log : list request)
  : outcome str * list request :=
  let p := processing_prompt chunk in
  match call_ollama ep p 2 true log with
  | (Raised e, log1) => (Raised e, log1)
  | (Returned result, log1) =>
      if nonempty result then
        let result := remove_duplicates result in
        match length chunk with
        | 0 => (Raised ZeroDivisionError, log1)
        | S _ =>
            if too_short result chunk then
              match call_ollama ep p 2 true log1 with
              | (Raised e, log2) => (Raised e, log2)
              | (Returned result2, log2) =>
                  let result2 :=
                    if nonempty result2 then remove_duplicates result2
                    else result2 in
                  (Returned (finish_chunk chunk result2), log2)
              end
            else (Returned (finish_chunk chunk result), log1)
        end
      else (Returned chunk, log1)
  end.

Fixpoint process_chunks (ep : endpoint) (chunks processed_chunks : list str)
    (log : list request) : outcome (list str) * list request :=
  match chunks with
  | [] => (Returned processed_chunks, log)
  | chunk :: rest =>
      match process_chunk ep chunk log with
      | (Raised e, log1) => (Raised e, log1)
      | (Returned result, log1) =>
          process_chunks ep rest (processed_chunks ++ [result]) log1
      end
  end.

(** Lines 591-688.  The statistics divide by [len(transcript)]
    (line 670). *)
Definition process_transcript (ep : endpoint) (transcript : str)
    (log : list request) : outcome str * list request :=
  let chunks := split_text transcript 1000 in
  match process_chunks ep chunks [] log with
  | (Raised e, log1) => (Raised e, log1)
  | (Returned processed_chunks, log1) =>
      let processed_text := join_paragraphs processed_chunks in
      match length transcript with
      | 0 => (Raised ZeroDivisionError, log1)
      | S _ => (Returned processed_text, log1)
      end
  end.

(** ** [_generate_timestamped_filename] *)

Definition dot : char := 46%N.           (* '.' *)
Definition underscore : char := 95%N.    (* '_' *)

(** [base_name.rsplit('.', 1)] for a name that has a ['.']: what comes
    before the last ['.'] and what comes after it. *)
Fixpoint rsplit_dot (s : str) : str * str :=
  match s with
  | [] => ([], [])
  | c :: r =>
      if contains [dot] r
      then let (name, ext) := rsplit_dot r in (c :: name, ext)
      else ([], r)
  end.

(** Lines 700-710; [timestamp] is what
    [datetime.now().strftime("%Y%m%d_%H%M%S")] gave. *)
Definition _generate_timestamped_filename (base_name timestamp : str) : str :=
  if contains [dot] base_name then
    let (name, ext) := rsplit_dot base_name in
    name ++ underscore :: timestamp ++ dot :: ext
  else base_name ++ underscore :: timestamp.

(** ** Notions used in the statements and in the proofs *)

(** A non-empty text with no whitespace at either end: [strip] leaves it
    as it is. *)
Definition tight (s : str) : Prop :=
  s <> [] /\ lstrip_by isspace s = s /\ rstrip_by isspace s = s.

(** The character content of a text: what is left when whitespace goes. *)
Definition content (s : str) : str := filter (fun c => negb (isspace c)) s.

(** What the scan of lines 195-214 leaves out of [speaker_blocks]: the lines
    read before the first speaker tag, and the turns whose content is blank
    (with their tag). *)
Definition unsaved (current : option (str * list str)) : list str :=
  match current with
  | Some (spk, content_lines) =>
      if nonempty (strip (concat content_lines)) then []
      else [speaker_block spk (concat content_lines)]
  | None => []
  end.

(** The block of the turn that is open, as the lines read so far make
    it. *)
Definition open_block (current : option (str * list str)) : str :=
  match current with
  | Some (spk, content_lines) => speaker_block spk (concat content_lines)
  | None => []
  end.

Fixpoint dropped_by_scan (lines : list str) (current : option (str * list str))
  : list str :=
  match lines with
  | [] => unsaved current
  | line :: rest =>
      match match_speaker line with
      | Some (label, after) =>
          unsaved current ++ dropped_by_scan rest (Some (label, [after]))
      | None =>
          match current with
          | Some (spk, lines') =>
              dropped_by_scan rest (Some (spk, lines' ++ [line]))
          | None => line :: dropped_by_scan rest None
          end
      end
  end.

Definition dropped_text (text : str) : list str :=
  dropped_by_scan (split_lines text) None.

(** [g] is a run of consecutive elements of [l]. *)
Definition run_of (g l : list str) : Prop :=
  exists pre post, l = pre ++ g ++ post.

(** A group of units packed into one segment: a single unit, whatever its
    length, or several whose lengths (separators not counted) total at most
    the budget. *)
Definition within_budget (max_chars : Z) (g : list str) : Prop :=
  length g = 1 \/ (2 <= length g /\ (Z.of_nat (length (concat g)) <= max_chars)%Z).

(** The segments made of groups of sentences: each group concatenated and
    stripped, the blank ones left out. *)
Definition stripped_groups (gs : list (list str)) : list str :=
  filter nonempty (map (fun g => strip (concat g)) gs).

(** A group of sentences packed into one segment: a single sentence, or
    several that fit the budget together. *)
Definition sentence_budget (max_chars : Z) (g : list str) : Prop :=
  length g = 1 \/ (Z.of_nat (length (concat g)) <= max_chars)%Z.

(** The sentences of the fallback path, each with its delimiters. *)
Definition sentences_of (text : str) : list str :=
  with_delimiters (re_split_endings text).

(** A match that lies in the region of [a] that starts at [alo] and ends
    before [lim]. *)
Definition in_region (alo lim : nat) (best : Difflib.match_triple) : Prop :=
  let '(besti, _, bestsize) := best in alo <= besti /\ besti + bestsize <= lim.

(** No unit is strictly longer than an earlier unit it collides with: the
    condition under which the pass never replaces a kept unit. *)
Definition never_longer (collides : str -> str -> bool) (l : list str) : Prop :=
  ForallOrdPairs
    (fun s t => collides t s = true -> length t <= length s) l.

(** No unit collides with a unit before it. *)
Definition collision_free (collides : str -> str -> bool) (l : list str) : Prop :=
  ForallOrdPairs (fun s t => collides t s = false) l.

(** The shape of the units of the sentence pass: a unit is terminated when
    it ends with its only terminator, plain when it has none. *)
Definition plain (s : str) : Prop :=
  Forall (fun c => is_terminator c = false) s.

Definition terminated (u : str) : Prop :=
  exists body t, u = body ++ [t] /\ is_terminator t = true /\ plain body.

(** Terminated units, then at most one plain unit, none with whitespace at
    its ends. *)
Definition units_ok (l : list str) : Prop :=
  exists init last,
    l = init ++ last
    /\ Forall (fun u => tight u /\ terminated u) init
    /\ (last = [] \/ exists x, last = [x] /\ tight x /\ plain x).

(** A speaker block as the scan builds it: one line, a label that the
    pattern reads back, content with no whitespace at its ends. *)
Definition block_form (b : str) : Prop :=
  exists label c,
    b = speaker_block label c
    /\ label <> [] /\ ~ In rbracket label /\ ~ In nl label
    /\ tight c /\ ~ In nl c.

(** The deltas carried by the lines of a stream, in order. *)
Definition delta_of (l : line) : str :=
  match l with
  | Data (Some delta) _ _ _ => delta
  | _ => []
  end.

Definition deltas (lines : list line) : str := concat (map delta_of lines).

(** The lines the loop does not skip. *)
Definition is_frame (l : line) : bool :=
  match l with
  | Blank | Malformed => false
  | _ => true
  end.

(** An answer after which the non-streaming loop tries again: a timeout, a
    request error, or a body that is blank. *)
Definition retriable (r : plain_reply) : Prop :=
  match r with
  | PTimeout | PRequestError => True
  | PBody body => strip body = []
  | POtherError => False
  end.

(** How a unit leaves the kept list, or never enters it: an arriving unit
    is dropped for a kept unit it collides with and is not longer than, and
    a kept unit is replaced by an arriving unit that collides with it and is
    strictly longer. *)
Definition dropped_for (collides : str -> str -> bool) (u k : str) : Prop :=
  collides u k = true /\ length u <= length k.

Definition replaced_by (collides : str -> str -> bool) (k t : str) : Prop :=
  collides t k = true /\ length k < length t.

(** [t] took the place of an earlier unit of [l]. *)
Definition replacer (collides : str -> str -> bool) (l : list str) (t : str)
  : Prop :=
  exists l1 k l2 l3,
    l = l1 ++ k :: l2 ++ t :: l3 /\ replaced_by collides k t.

(** No whitespace comes right after a terminator: the text is the
    concatenation of its own units. *)
Fixpoint spaced (s : str) : Prop :=
  match s with
  | c :: r =>
      match r with
      | x :: _ => (is_terminator c = true -> isspace x = false) /\ spaced r
      | [] => True
      end
  | [] => True
  end.

(** No ['\n\n'] in the text. *)
Fixpoint no_sep (s : str) : bool :=
  match s with
  | c :: r =>
      match r with
      | c2 :: _ => negb ((c =? nl) && (c2 =? nl))%N && no_sep r
      | [] => true
      end
  | [] => true
  end.

(** The text does not end with a terminator. *)
Definition open_end (p : str) : Prop :=
  forall body t, p = body ++ [t] -> is_terminator t = false.

(** A paragraph as the paragraph pass keeps it. *)
Definition kept_paragraph (p : str) : Prop :=
  tight p /\ spaced p /\ no_sep p = true.

(** The state of the checks: the last check was on the first
    [last_check_length] characters of the output and reported nothing, and
    fewer than 500 characters have come since. *)
Definition checked (st : stream_state) : Prop :=
  last_check_length st <= length (response_text st)
  /\ length (response_text st)
     < last_check_length st + repetition_check_interval
  /\ (0 < last_check_length st ->
      detect_repetition (firstn (last_check_length st) (response_text st))
        default_window_size = false).

(** The requests of a run in which the [i]-th chunk gets [ks[i]] requests:
    for each chunk in turn, its prompt that many times, streaming. *)
Fixpoint requests_for (chunks : list str) (ks : list nat) : list request :=
  match chunks, ks with
  | chunk :: chunks', k :: ks' =>
      repeat (processing_prompt chunk, true) k ++ requests_for chunks' ks'
  | _, _ => []
  end.

(** ** Sample inputs *)

Module Samples.

(** ["hi\n[A]：yo"]: a line before the first speaker tag. *)
Definition with_preamble : str :=
  lit "hi"%string ++ [nl] ++ lit "[A]"%string ++ [fw_colon] ++ lit "yo"%string.

(** ["[A]：yo"] *)
Definition block_A : str := lit "[A]"%string ++ [fw_colon] ++ lit "yo"%string.

(** ["[A]：ab\n[B]：cd"]: two blocks of 6 characters. *)
Definition two_turns : str :=
  lit "[A]"%string ++ [fw_colon] ++ lit "ab"%string ++ [nl]
  ++ lit "[B]"%string ++ [fw_colon] ++ lit "cd"%string.

(** ["01234567。"], ["23456789。"] and ["0123456789。"] *)
Definition unit_a : str := lit "01234567"%string ++ [ideo_stop].
Definition unit_b : str := lit "23456789"%string ++ [ideo_stop].
Definition unit_c : str := lit "0123456789"%string ++ [ideo_stop].
Definition three_units : str := unit_a ++ unit_b ++ unit_c.

(** ["ab。cd。"] *)
Definition two_units : str :=
  lit "ab"%string ++ [ideo_stop] ++ lit "cd"%string ++ [ideo_stop].

(** 100 ['a'], 400 ['b'], 100 ['a'] *)
Definition a100 : str := repeat 97%N 100.
Definition b400 : str := repeat 98%N 400.
Definition far_repeat : str := a100 ++ b400 ++ a100.

(** ['b'] 300 times, then ['a'] 200 times. *)
Definition near_repeat : str := repeat 98%N 300 ++ repeat 97%N 200.

(** Characters that are all different: code points [from .. from + n - 1]. *)
Definition fresh (from n : nat) : str := map N.of_nat (seq from n).

(** A stream of four deltas: 500 fresh characters, 200 ['a'], 300 and 500
    more fresh characters, and then the end. *)
Definition passing_repeat : list line :=
  [Data (Some (fresh 1000 500)) false 0 0;
   Data (Some (repeat 97%N 200)) false 0 0;
   Data (Some (fresh 2000 300)) false 0 0;
   Data (Some (fresh 3000 500)) false 0 0;
   Data None true 0 0].

(** Three turns whose blocks have 500, 400 and 400 characters. *)
Definition turn (speaker : string) (n : nat) : str :=
  lit "[" ++ lit speaker ++ lit "]" ++ [fw_colon] ++ repeat 120%N (n - 4).
Definition three_turns : str :=
  turn "A" 500 ++ [nl] ++ turn "B" 400 ++ [nl] ++ turn "C" 400.

(** ["你好。你好。"] *)
Definition hello_twice : str :=
  [20320%N; 22909%N; ideo_stop; 20320%N; 22909%N; ideo_stop].

(** A stream that ends at once with no text, and one that says ["ok"]. *)
Definition empty_stream : stream_reply := SLines 0 [Data None true 0 0].
Definition ok_stream : stream_reply :=
  SLines 0 [Data (Some (lit "ok"%string)) true 0 0].

(** An endpoint that answers nothing twice and ["ok"] from then on. *)
Definition third_time_lucky : endpoint :=
  {| stream_answer := fun n => if n <? 2 then empty_stream else ok_stream;
     plain_answer := fun n => if n <? 2 then PBody [] else PBody (lit "ok"%string) |}.

(** An endpoint that is never reachable. *)
Definition unreachable : endpoint :=
  {| stream_answer := fun _ => SConnectError;
     plain_answer := fun _ => PRequestError |}.

Definition say (s : str) : stream_reply := SLines 0 [Data (Some s) true 0 0].

(** The first answer is ["a"], the second ["bc"], for the chunk
    ["abcdefghij"]. *)
Definition chunk10 : str := lit "abcdefghij"%string.
Definition short_then_short : endpoint :=
  {| stream_answer := fun n => if n =? 0 then say (lit "a"%string)
                               else say (lit "bc"%string);
     plain_answer := fun _ => PRequestError |}.

(** ["abcd。abcde。xyz。"] *)
Definition abc_units : str :=
  lit "abcd" ++ [ideo_stop] ++ lit "abcde" ++ [ideo_stop]
    ++ lit "xyz" ++ [ideo_stop].
(** ["aaaba。abaab。"] *)
Definition one_way_units : str :=
  lit "aaaba" ++ [ideo_stop] ++ lit "abaab" ++ [ideo_stop].

(** ["[A]：hello world\n\n[A]：hello world\n\n[B]：bye。abcd。abcde。"] *)
Definition repeated_turn : str :=
  lit "[A]" ++ [fw_colon] ++ lit "hello world" ++ [nl; nl]
    ++ lit "[A]" ++ [fw_colon] ++ lit "hello world" ++ [nl; nl]
    ++ lit "[B]" ++ [fw_colon] ++ lit "bye" ++ [ideo_stop]
    ++ lit "abcd" ++ [ideo_stop] ++ lit "abcde" ++ [ideo_stop].

(** Two turns of 604 characters each: two chunks under a budget of 1000. *)
Definition two_long_turns : str :=
  turn "A" 604 ++ [nl] ++ turn "B" 604.

(** The first answer is the first chunk back, the second ["hi"], the third
    ["ok"]. *)
Definition echo_then_short : endpoint :=
  {| stream_answer := fun n =>
       if n =? 0 then say (turn "A" 604)
       else if n =? 1 then say (lit "hi"%string)
       else say (lit "ok"%string);
     plain_answer := fun _ => PRequestError |}.

End Samples.

(** Pairwise conditions on a list that is given: each pair by
    computation. *)
Ltac pairwise :=
  repeat first [ apply FOP_nil | apply FOP_cons
               | apply Forall_nil | apply Forall_cons
               | (vm_compute; reflexivity) ].

(** * Properties *)

(** ** Strings *)

Section StripFacts.

Variable p : char -> bool.

Lemma nonempty_true (s : str) : nonempty s = true <-> s <> [].
Proof. destruct s; simpl; split; congruence. Qed.

Lemma nonempty_false (s : str) : nonempty s = false <-> s = [].
Proof. destruct s; simpl; split; congruence. Qed.

Lemma rstrip_by_snoc (s : str) (c : char) :
  p c = false -> rstrip_by p (s ++ [c]) = s ++ [c].
Proof.
  intros Hc. induction s as [|a s IH]; simpl.
  - now rewrite Hc.
  - rewrite IH. destruct (s ++ [c]) eqn:E; [|reflexivity].
    now destruct s.
Qed.

Lemma rstrip_by_cons (a : char) (t : str) :
  rstrip_by p t <> [] -> rstrip_by p (a :: t) = a :: rstrip_by p t.
Proof. simpl. destruct (rstrip_by p t); congruence. Qed.

Lemma rstrip_by_app (x y : str) :
  rstrip_by p y <> [] -> rstrip_by p (x ++ y) = x ++ rstrip_by p y.
Proof.
  intros Hy. induction x as [|a x IH]; simpl; [reflexivity|].
  rewrite IH. destruct (x ++ rstrip_by p y) eqn:E; [|reflexivity].
  apply app_eq_nil in E. tauto.
Qed.

Lemma lstrip_by_app (x y : str) :
  lstrip_by p x <> [] -> lstrip_by p (x ++ y) = lstrip_by p x ++ y.
Proof.
  induction x as [|a x IH]; simpl; [congruence|].
  destruct (p a); auto.
Qed.

Lemma filter_lstrip_by (s : str) :
  filter (fun c => negb (p c)) (lstrip_by p s) = filter (fun c => negb (p c)) s.
Proof.
  induction s as [|a s IH]; simpl; [reflexivity|].
  destruct (p a) eqn:E; simpl; [exact IH|now rewrite E].
Qed.

Lemma filter_rstrip_by (s : str) :
  filter (fun c => negb (p c)) (rstrip_by p s) = filter (fun c => negb (p c)) s.
Proof.
  induction s as [|a s IH]; simpl; [reflexivity|].
  destruct (rstrip_by p s) as [|b r] eqn:E.
  - rewrite <- IH. destruct (p a) eqn:Ea; simpl; [reflexivity|now rewrite Ea].
  - rewrite <- IH. reflexivity.
Qed.

Lemma lstrip_by_head (s : str) :
  match lstrip_by p s with
  | [] => True
  | c :: _ => p c = false
  end.
Proof.
  induction s as [|a s IH]; simpl; [exact I|].
  destruct (p a) eqn:E; [exact IH|exact E].
Qed.

Lemma lstrip_by_fixed (c : char) (s : str) :
  p c = false -> lstrip_by p (c :: s) = c :: s.
Proof. intros H; simpl; now rewrite H. Qed.

Lemma lstrip_by_idem (s : str) : lstrip_by p (lstrip_by p s) = lstrip_by p s.
Proof.
  pose proof (lstrip_by_head s) as H.
  destruct (lstrip_by p s) as [|c r]; [reflexivity|].
  now apply lstrip_by_fixed.
Qed.

Lemma rstrip_by_idem (s : str) : rstrip_by p (rstrip_by p s) = rstrip_by p s.
Proof.
  induction s as [|a s IH]; simpl; [reflexivity|].
  destruct (rstrip_by p s) as [|b r] eqn:E.
  - destruct (p a) eqn:Ea; simpl; [reflexivity|now rewrite Ea].
  - rewrite rstrip_by_cons; rewrite IH; [reflexivity|discriminate].
Qed.

Lemma rstrip_by_lstrip_by (s : str) :
  rstrip_by p s = s -> rstrip_by p (lstrip_by p s) = lstrip_by p s.
Proof.
  induction s as [|a s IH]; simpl; [reflexivity|].
  destruct (p a) eqn:Ea.
  - destruct (rstrip_by p s) as [|b r] eqn:E; [discriminate|].
    intros H. injection H as H. apply IH. exact H.
  - intros H. simpl. rewrite Ea. exact H.
Qed.

Lemma lstrip_by_nil_filter (s : str) :
  lstrip_by p s = [] -> filter (fun c => negb (p c)) s = [].
Proof. intros H. rewrite <- filter_lstrip_by, H. reflexivity. Qed.

End StripFacts.

Lemma content_app (a b : str) : content (a ++ b) = content a ++ content b.
Proof. apply filter_app. Qed.

Lemma content_strip (s : str) : content (strip s) = content s.
Proof.
  unfold strip, content. now rewrite filter_lstrip_by, filter_rstrip_by.
Qed.

Lemma strip_nil_content (s : str) : strip s = [] <-> content s = [].
Proof.
  split; intros H.
  - rewrite <- content_strip, H. reflexivity.
  - rewrite <- content_strip in H.
    pose proof (lstrip_by_head isspace (rstrip_by isspace s)) as Hh.
    unfold strip in *. destruct (lstrip_by isspace (rstrip_by isspace s)) as [|c r];
      [reflexivity|].
    unfold content in H. simpl in H. rewrite Hh in H. discriminate.
Qed.

Lemma strip_idem (s : str) : strip (strip s) = strip s.
Proof.
  unfold strip.
  rewrite (rstrip_by_lstrip_by isspace (rstrip_by isspace s)
             (rstrip_by_idem isspace s)).
  apply lstrip_by_idem.
Qed.

Lemma tight_strip (s : str) : tight s -> strip s = s.
Proof. intros (_ & Hl & Hr). unfold strip. now rewrite Hr, Hl. Qed.

Lemma strip_tight (s : str) : strip s <> [] -> tight (strip s).
Proof.
  intros H. split; [exact H|]. unfold strip. split.
  - apply lstrip_by_idem.
  - apply rstrip_by_lstrip_by, rstrip_by_idem.
Qed.

Lemma tight_app (x m y : str) : tight x -> tight y -> tight (x ++ m ++ y).
Proof.
  intros (Hx & Hxl & _) (Hy & _ & Hyr). split; [|split].
  - destruct x; [congruence|discriminate].
  - rewrite lstrip_by_app; rewrite Hxl; [reflexivity|exact Hx].
  - rewrite app_assoc, rstrip_by_app; rewrite Hyr; [reflexivity|exact Hy].
Qed.

Lemma tight_head (s : str) :
  tight s -> exists c r, s = c :: r /\ isspace c = false.
Proof.
  intros (Hn & Hl & _). pose proof (lstrip_by_head isspace s) as H.
  rewrite Hl in H. destruct s as [|c r]; [congruence|]. eauto.
Qed.

Lemma tight_content (s : str) : tight s -> content s <> [].
Proof.
  intros H. destruct (tight_head s H) as (c & r & -> & Hc).
  unfold content. simpl. rewrite Hc. discriminate.
Qed.

Lemma length_lstrip_by (p : char -> bool) (s : str) :
  length (lstrip_by p s) <= length s.
Proof.
  induction s as [|a s IH]; simpl; [lia|]. destruct (p a); simpl; lia.
Qed.

Lemma length_rstrip_by (p : char -> bool) (s : str) :
  length (rstrip_by p s) <= length s.
Proof.
  induction s as [|a s IH]; simpl; [lia|].
  destruct (rstrip_by p s); [destruct (p a)|]; simpl in *; lia.
Qed.

Lemma length_strip (s : str) : length (strip s) <= length s.
Proof.
  unfold strip. pose proof (length_lstrip_by isspace (rstrip_by isspace s)).
  pose proof (length_rstrip_by isspace s). lia.
Qed.

(** ** Joining paragraphs *)

Lemma join_paragraphs_cons (p : str) (rest : list str) :
  rest <> [] -> join_paragraphs (p :: rest) = p ++ nl :: nl :: join_paragraphs rest.
Proof. destruct rest; [congruence|reflexivity]. Qed.

Lemma join_paragraphs_app (l1 l2 : list str) :
  l1 <> [] -> l2 <> [] ->
  join_paragraphs (l1 ++ l2) = join_paragraphs l1 ++ nl :: nl :: join_paragraphs l2.
Proof.
  intros H1 H2. induction l1 as [|a l1 IH]; [congruence|].
  destruct l1 as [|b l1].
  - simpl app. now rewrite join_paragraphs_cons.
  - change ((a :: b :: l1) ++ l2) with (a :: ((b :: l1) ++ l2)).
    rewrite join_paragraphs_cons by (simpl; discriminate).
    rewrite IH by discriminate.
    rewrite (join_paragraphs_cons a (b :: l1)) by discriminate.
    now rewrite <- app_assoc.
Qed.

Lemma content_join_paragraphs (l : list str) :
  content (join_paragraphs l) = content (concat l).
Proof.
  induction l as [|a l IH]; [reflexivity|].
  destruct l as [|b l].
  - simpl. now rewrite app_nil_r.
  - rewrite join_paragraphs_cons by discriminate.
    change (concat (a :: b :: l)) with (a ++ concat (b :: l)).
    rewrite !content_app, <- IH. reflexivity.
Qed.

Lemma length_concat_join (l : list str) :
  length (concat l) <= length (join_paragraphs l).
Proof.
  induction l as [|a l IH]; [simpl; lia|].
  destruct l as [|b l].
  - simpl. rewrite app_nil_r. lia.
  - rewrite join_paragraphs_cons by discriminate.
    change (concat (a :: b :: l)) with (a ++ concat (b :: l)).
    rewrite !length_app. cbn [length]. lia.
Qed.

Lemma tight_join_paragraphs (l : list str) :
  l <> [] -> Forall tight l -> tight (join_paragraphs l).
Proof.
  induction l as [|a l IH]; [congruence|]. intros _ H.
  inversion H as [|? ? Ha Hl]; subst.
  destruct l as [|b l]; [exact Ha|].
  rewrite join_paragraphs_cons by discriminate.
  apply (tight_app a [nl; nl]); [exact Ha|]. apply IH; [discriminate|exact Hl].
Qed.

Lemma join_paragraphs_flatten (gs : list (list str)) :
  Forall (fun g => g <> []) gs ->
  join_paragraphs (map join_paragraphs gs) = join_paragraphs (concat gs).
Proof.
  induction gs as [|g gs IH]; [reflexivity|]. intros H.
  inversion H as [|? ? Hg Hgs]; subst.
  destruct gs as [|g2 gs].
  - simpl. now rewrite app_nil_r.
  - change (map join_paragraphs (g :: g2 :: gs))
      with (join_paragraphs g :: map join_paragraphs (g2 :: gs)).
    rewrite join_paragraphs_cons by discriminate.
    rewrite IH by exact Hgs.
    change (concat (g :: g2 :: gs)) with (g ++ concat (g2 :: gs)).
    rewrite join_paragraphs_app; [reflexivity|exact Hg|].
    inversion Hgs as [|? ? Hg2 _]; subst. simpl.
    destruct g2; [congruence|discriminate].
Qed.

Lemma in_run_of_concat (g : list str) (gs : list (list str)) :
  In g gs -> run_of g (concat gs).
Proof.
  intros H. apply in_split in H. destruct H as (l1 & l2 & ->).
  exists (concat l1), (concat l2). now rewrite concat_app.
Qed.

(** ** The scan for speaker blocks *)

Lemma span_label_app (s : str) :
  fst (span_label s) ++ snd (span_label s) = s.
Proof.
  induction s as [|c r IH]; [reflexivity|]. simpl.
  destruct (c =? rbracket)%N; [reflexivity|].
  destruct (span_label r) as [l rest]. simpl in *. now rewrite IH.
Qed.

Lemma span_label_rest (s : str) :
  match snd (span_label s) with
  | [] => True
  | c :: _ => c = rbracket
  end.
Proof.
  induction s as [|c r IH]; [exact I|]. simpl.
  destruct (c =? rbracket)%N eqn:E.
  - simpl. now apply N.eqb_eq.
  - destruct (span_label r) as [l rest]. exact IH.
Qed.

Lemma match_speaker_shape (line label after : str) :
  match_speaker line = Some (label, after) ->
  line = speaker_block label after /\ label <> [].
Proof.
  unfold match_speaker, speaker_block. destruct line as [|c r]; [discriminate|].
  destruct (c =? lbracket)%N eqn:Ec; [|discriminate].
  apply N.eqb_eq in Ec. subst c.
  pose proof (span_label_app r) as Happ. pose proof (span_label_rest r) as Hrest.
  destruct (span_label r) as [l rest]. simpl in *.
  destruct l as [|l0 l']; [discriminate|].
  destruct rest as [|c1 [|c2 rest']]; try discriminate.
  destruct (c2 =? fw_colon)%N eqn:E2; [|discriminate].
  apply N.eqb_eq in E2. subst c1 c2. intros H. injection H as <- <-.
  split; [|discriminate]. now rewrite <- Happ.
Qed.

Lemma speaker_block_tight (spk c : str) : tight c -> tight (speaker_block spk c).
Proof.
  intros (Hc & _ & Hr). unfold speaker_block. split; [discriminate|]. split.
  - reflexivity.
  - replace (lbracket :: spk ++ rbracket :: fw_colon :: c)
      with ((lbracket :: spk ++ [rbracket; fw_colon]) ++ c)
      by (simpl; now rewrite <- app_assoc).
    rewrite rstrip_by_app; rewrite Hr; [reflexivity|exact Hc].
Qed.

Lemma save_block_tight (current : option (str * list str)) (blocks : list str) :
  Forall tight blocks -> Forall tight (save_block current blocks).
Proof.
  intros H. destruct current as [[spk cl]|]; simpl; [|exact H].
  destruct (nonempty (strip (concat cl))) eqn:E; [|exact H].
  apply Forall_app. split; [exact H|]. constructor; [|constructor].
  apply speaker_block_tight, strip_tight. now apply nonempty_true.
Qed.

Lemma scan_lines_tight (lines : list str) :
  forall current blocks,
    Forall tight blocks -> Forall tight (scan_lines lines current blocks).
Proof.
  induction lines as [|line rest IH]; intros current blocks H; simpl.
  - now apply save_block_tight.
  - destruct (match_speaker line) as [[label after]|].
    + apply IH. now apply save_block_tight.
    + destruct current as [[spk cl]|]; now apply IH.
Qed.

Lemma speaker_blocks_tight (text : str) : Forall tight (speaker_blocks text).
Proof. apply scan_lines_tight. constructor. Qed.

(** ** Packing *)

Lemma flush_chunk_tight (chunks : list str) (g : list str) :
  g <> [] -> Forall tight g ->
  flush_chunk chunks (join_paragraphs g) = chunks ++ [join_paragraphs g].
Proof.
  intros Hg Ht. unfold flush_chunk.
  pose proof (tight_join_paragraphs g Hg Ht) as T.
  rewrite (tight_strip _ T). destruct T as (Hn & _).
  destruct (join_paragraphs g); [congruence|reflexivity].
Qed.

Lemma join_paragraphs_snoc (g : list str) (b : str) :
  Forall tight g ->
  join_paragraphs g ++ (if nonempty (join_paragraphs g) then [nl; nl] else []) ++ b
  = join_paragraphs (g ++ [b]).
Proof.
  intros Ht. destruct g as [|a g]; [reflexivity|].
  assert (Hne : a :: g <> []) by discriminate.
  pose proof (tight_join_paragraphs _ Hne Ht) as (Hn & _).
  rewrite join_paragraphs_app by (assumption || discriminate).
  destruct (join_paragraphs (a :: g)); [congruence|reflexivity].
Qed.

Lemma pack_blocks_groups (max_chars : Z) (blocks : list str) :
  forall chunks g,
    Forall tight (g ++ blocks) ->
    g = [] \/ within_budget max_chars g ->
    exists gs,
      pack_blocks max_chars blocks chunks (join_paragraphs g)
      = chunks ++ map join_paragraphs gs
      /\ concat gs = g ++ blocks
      /\ Forall (within_budget max_chars) gs.
Proof.
  induction blocks as [|b rest IH]; intros chunks g Ht Hg.
  - rewrite app_nil_r in Ht. simpl. destruct g as [|a g].
    + exists []. simpl. now rewrite app_nil_r.
    + exists [a :: g]. rewrite flush_chunk_tight by (assumption || discriminate).
      simpl. rewrite !app_nil_r. repeat split.
      constructor; [|constructor]. destruct Hg; [discriminate|assumption].
  - assert (Htg : Forall tight g) by (apply Forall_app in Ht; tauto).
    assert (Htb : tight b).
    { apply Forall_app in Ht. destruct Ht as [_ Ht]. now inversion Ht. }
    simpl.
    destruct (Z.of_nat (length (join_paragraphs g) + length b) <=? max_chars)%Z
      eqn:E.
    + rewrite join_paragraphs_snoc by exact Htg.
      destruct (IH chunks (g ++ [b])) as (gs & H1 & H2 & H3).
      * now rewrite <- app_assoc.
      * right. destruct g as [|a g]; [left; reflexivity|].
        right. rewrite length_app, concat_app, length_app. simpl.
        rewrite app_nil_r. apply Z.leb_le in E.
        pose proof (length_concat_join (a :: g)). simpl in *. split; lia.
      * exists gs. rewrite H1, H2, <- app_assoc. auto.
    + destruct (IH (flush_chunk chunks (join_paragraphs g)) [b])
        as (gs & H1 & H2 & H3).
      * apply Forall_app in Ht. tauto.
      * right. left. reflexivity.
      * change (join_paragraphs [b]) with b in H1. rewrite H1.
        destruct g as [|a g].
        -- exists gs. simpl. auto.
        -- exists ((a :: g) :: gs).
           rewrite flush_chunk_tight by (assumption || discriminate).
           rewrite <- app_assoc. simpl. rewrite H2. repeat split.
           constructor; [|assumption]. destruct Hg; [discriminate|assumption].
Qed.

Lemma within_budget_nonempty (max_chars : Z) (g : list str) :
  within_budget max_chars g -> g <> [].
Proof. intros [H|[H _]] ->; simpl in H; lia. Qed.

(** The segments of the speaker path are the blocks, grouped. *)
Lemma split_text_blocks_groups (text : str) (max_chars : Z) :
  speaker_blocks text <> [] ->
  exists gs,
    split_text text max_chars = map join_paragraphs gs
    /\ concat gs = speaker_blocks text
    /\ Forall (within_budget max_chars) gs.
Proof.
  intros Hb. unfold split_text.
  destruct (pack_blocks_groups max_chars (speaker_blocks text) [] [])
    as (gs & H1 & H2 & H3).
  - apply speaker_blocks_tight.
  - now left.
  - simpl in H1, H2. destruct (speaker_blocks text) as [|b bs] eqn:E; [congruence|].
    rewrite H1. exists gs. repeat split; try assumption.
    destruct gs as [|g gs]; [discriminate|]. reflexivity.
Qed.

Lemma flush_chunk_filter (chunks : list str) (current_chunk : str) :
  flush_chunk chunks current_chunk
  = chunks ++ filter nonempty [strip current_chunk].
Proof.
  unfold flush_chunk. simpl. destruct (nonempty (strip current_chunk));
    [reflexivity|now rewrite app_nil_r].
Qed.

Lemma pack_sentences_groups (max_chars : Z) (sentences : list str) :
  forall chunks g,
    g = [] \/ sentence_budget max_chars g ->
    exists gs,
      pack_sentences max_chars sentences chunks (concat g)
      = chunks ++ stripped_groups gs
      /\ concat gs = g ++ sentences
      /\ Forall (sentence_budget max_chars) gs.
Proof.
  induction sentences as [|s rest IH]; intros chunks g Hg.
  - simpl. rewrite flush_chunk_filter, app_nil_r. destruct g as [|a g].
    + exists []. repeat split. constructor.
    + exists [a :: g]. unfold stripped_groups. simpl. rewrite app_nil_r.
      repeat split. constructor; [|constructor].
      destruct Hg; [discriminate|assumption].
  - simpl.
    destruct (Z.of_nat (length (concat g) + length s) <=? max_chars)%Z eqn:E.
    + destruct (IH chunks (g ++ [s])) as (gs & H1 & H2 & H3).
      * right. destruct g as [|a g]; [left; reflexivity|].
        right. rewrite concat_app, length_app. simpl. rewrite app_nil_r.
        apply Z.leb_le in E. simpl in E. lia.
      * rewrite concat_app in H1. simpl in H1. rewrite app_nil_r in H1.
        exists gs. rewrite H1, H2, <- app_assoc. auto.
    + destruct (IH (flush_chunk chunks (concat g)) [s]) as (gs & H1 & H2 & H3).
      * right. left. reflexivity.
      * simpl in H1. rewrite app_nil_r in H1. rewrite H1.
        rewrite flush_chunk_filter. destruct g as [|a g].
        -- exists gs. simpl. rewrite app_nil_r. auto.
        -- exists ((a :: g) :: gs). rewrite <- app_assoc.
           unfold stripped_groups at 2. simpl map. simpl filter at 2.
           split; [|split].
           ++ f_equal. unfold stripped_groups. simpl.
              destruct (nonempty (strip (a ++ concat g))); reflexivity.
           ++ simpl. rewrite H2. reflexivity.
           ++ constructor; [|assumption].
              destruct Hg; [discriminate|assumption].
Qed.

Lemma content_flush_chunk (chunks : list str) (current_chunk : str) :
  content (concat (flush_chunk chunks current_chunk))
  = content (concat chunks) ++ content current_chunk.
Proof.
  unfold flush_chunk. destruct (nonempty (strip current_chunk)) eqn:E.
  - rewrite concat_app, content_app. simpl. rewrite app_nil_r.
    now rewrite content_strip.
  - apply nonempty_false, strip_nil_content in E. rewrite E.
    now rewrite app_nil_r.
Qed.

Lemma content_pack_sentences (max_chars : Z) (sentences : list str) :
  forall chunks current_chunk,
    content (concat (pack_sentences max_chars sentences chunks current_chunk))
    = content (concat chunks) ++ content current_chunk
      ++ content (concat sentences).
Proof.
  induction sentences as [|s rest IH]; intros chunks cur; simpl.
  - rewrite content_flush_chunk. now rewrite app_nil_r.
  - destruct (Z.of_nat (length cur + length s) <=? max_chars)%Z;
      rewrite IH.
    + now rewrite !content_app, <- !app_assoc.
    + rewrite content_flush_chunk, !content_app, <- !app_assoc. reflexivity.
Qed.

Lemma concat_cons_head (c : char) (l : list str) :
  concat (cons_head c l) = c :: concat l.
Proof. destruct l; reflexivity. Qed.

Lemma concat_re_split_endings (s : str) : concat (re_split_endings s) = s.
Proof.
  induction s as [|c r IH]; [reflexivity|]. simpl.
  destruct (is_sentence_ending c).
  - rewrite <- IH at 2.
    destruct (re_split_endings r) as [|[|x p] [|d rest]]; reflexivity.
  - now rewrite concat_cons_head, IH.
Qed.

Lemma concat_with_delimiters (l : list str) :
  concat (with_delimiters l) = concat l
  /\ forall x, concat (with_delimiters (x :: l)) = concat (x :: l).
Proof.
  induction l as [|a l [IH1 IH2]]; [split; [reflexivity|intros; reflexivity]|].
  split; [apply IH2|]. intros x. simpl. rewrite IH1. now rewrite app_assoc.
Qed.

Lemma concat_sentences_of (text : str) : concat (sentences_of text) = text.
Proof.
  unfold sentences_of.
  rewrite (proj1 (concat_with_delimiters _)). apply concat_re_split_endings.
Qed.

Lemma content_nl (s : str) : content (nl :: s) = content s.
Proof. reflexivity. Qed.

Lemma content_concat_split_lines (text : str) :
  content (concat (split_lines text)) = content text.
Proof.
  induction text as [|c r IH]; [reflexivity|]. simpl split_lines.
  destruct (c =? nl)%N eqn:E.
  - apply N.eqb_eq in E. subst c. simpl concat. now rewrite content_nl.
  - rewrite concat_cons_head.
    change (content (c :: concat (split_lines r)))
      with (content ([c] ++ concat (split_lines r))).
    change (c :: r) with ([c] ++ r). rewrite !content_app. now rewrite IH.
Qed.

(** The segments of the fallback path are the sentences, grouped and
    stripped; with no segment at all the text itself is returned. *)
Lemma split_text_sentence_groups (text : str) (max_chars : Z) :
  speaker_blocks text = [] ->
  exists gs,
    split_text text max_chars = chunks_or_text (stripped_groups gs) text
    /\ concat gs = sentences_of text
    /\ Forall (sentence_budget max_chars) gs
    /\ content (concat (stripped_groups gs)) = content text.
Proof.
  intros Hb. unfold split_text. rewrite Hb.
  destruct (pack_sentences_groups max_chars (sentences_of text) [] [])
    as (gs & H1 & H2 & H3); [now left|].
  pose proof (content_pack_sentences max_chars (sentences_of text) [] []) as Hc.
  simpl in H1, H2, Hc. rewrite concat_sentences_of, H1 in Hc.
  exists gs. unfold sentences_of in *. now rewrite H1.
Qed.

Lemma in_stripped_groups (seg : str) (gs : list (list str)) :
  In seg (stripped_groups gs) ->
  seg <> [] /\ exists g, In g gs /\ seg = strip (concat g).
Proof.
  unfold stripped_groups. intros H. apply filter_In in H. destruct H as [H Hn].
  apply in_map_iff in H. destruct H as (g & <- & Hg).
  split; [now apply nonempty_true|]. eauto.
Qed.

Lemma split_text_fallback_content (text : str) (max_chars : Z) :
  speaker_blocks text = [] ->
  content (concat (split_text text max_chars)) = content text.
Proof.
  intros Hb. unfold split_text. rewrite Hb.
  pose proof (content_pack_sentences max_chars
                (with_delimiters (re_split_endings text)) [] []) as H.
  simpl in H. fold (sentences_of text) in *. rewrite concat_sentences_of in H.
  destruct (pack_sentences max_chars (sentences_of text) [] []).
  - simpl. now rewrite app_nil_r.
  - exact H.
Qed.

Lemma content_speaker_block (spk x : str) :
  content (speaker_block spk x)
  = lbracket :: content spk ++ rbracket :: fw_colon :: content x.
Proof.
  unfold speaker_block.
  change (lbracket :: spk ++ rbracket :: fw_colon :: x)
    with ([lbracket] ++ spk ++ [rbracket; fw_colon] ++ x).
  now rewrite !content_app.
Qed.

Lemma content_save_block (current : option (str * list str)) (blocks : list str) :
  content (concat (unsaved current)) = [] ->
  content (concat (save_block current blocks))
  = content (concat blocks) ++ content (open_block current).
Proof.
  destruct current as [[spk cl]|]; unfold unsaved, save_block, open_block;
    [|intros _; now rewrite app_nil_r].
  destruct (nonempty (strip (concat cl))).
  - intros _. rewrite concat_app, content_app. cbn [concat].
    rewrite app_nil_r. now rewrite !content_speaker_block, content_strip.
  - cbn [concat]. rewrite app_nil_r, content_speaker_block. discriminate.
Qed.

Lemma content_scan_lines (lines : list str) :
  forall current blocks,
    content (concat (dropped_by_scan lines current)) = [] ->
    content (concat (scan_lines lines current blocks))
    = content (concat blocks) ++ content (open_block current)
      ++ content (concat lines).
Proof.
  induction lines as [|line rest IH]; intros current blocks Hd;
    cbn [scan_lines dropped_by_scan] in *.
  - cbn [concat]. change (content []) with (@nil char). rewrite app_nil_r.
    now apply content_save_block.
  - destruct (match_speaker line) as [[label after]|] eqn:Em.
    + rewrite concat_app, content_app in Hd. apply app_eq_nil in Hd.
      destruct Hd as [Hd1 Hd2].
      rewrite IH by exact Hd2. rewrite content_save_block by exact Hd1.
      apply match_speaker_shape in Em. destruct Em as [-> _].
      unfold open_block at 2. cbn [concat]. rewrite app_nil_r.
      rewrite (content_app (speaker_block label after)), <- !app_assoc.
      reflexivity.
    + destruct current as [[spk cl]|].
      * rewrite IH by exact Hd. unfold open_block. cbn [concat]. f_equal.
        rewrite concat_app. cbn [concat]. rewrite app_nil_r.
        rewrite !content_speaker_block, !content_app.
        cbn [app]. rewrite <- !app_assoc. cbn [app].
        rewrite <- !app_assoc. reflexivity.
      * cbn [concat] in Hd. rewrite content_app in Hd. apply app_eq_nil in Hd.
        destruct Hd as [Hd1 Hd2]. rewrite IH by exact Hd2.
        cbn [concat]. rewrite content_app, Hd1. reflexivity.
Qed.

Lemma content_speaker_blocks (text : str) :
  content (concat (dropped_text text)) = [] ->
  content (join_paragraphs (speaker_blocks text)) = content text.
Proof.
  intros H. rewrite content_join_paragraphs. unfold speaker_blocks.
  rewrite content_scan_lines by exact H. simpl.
  apply content_concat_split_lines.
Qed.

Lemma in_chunks_or_text (seg text : str) (chunks : list str) :
  In seg (chunks_or_text chunks text) ->
  In seg chunks \/ (chunks = [] /\ seg = text).
Proof.
  destruct chunks; simpl; intros H; [right|left; exact H].
  destruct H as [H|[]]. auto.
Qed.

(** ** The chunker: claims C1, C2 and C9 *)

(** Blocks of 500, 400 and 400 characters under a budget of 800: the first
    block alone, then the two others in one segment, separator included. *)
Example split_text_three_turns :
  map (@length char) (speaker_blocks Samples.three_turns) = [500; 400; 400]
  /\ map (@length char) (split_text Samples.three_turns 800) = [500; 802].
Proof. split; vm_compute; reflexivity. Qed.

(** Claim C1 fails as stated: in ["hi\n[A]：yo"] the line before the first
    speaker tag is in no segment. *)
Lemma split_text_loses_preamble :
  split_text Samples.with_preamble 1000 = [Samples.block_A]
  /\ content (join_paragraphs (split_text Samples.with_preamble 1000))
     <> content Samples.with_preamble.
Proof. split; [reflexivity|]. vm_compute. discriminate. Qed.

(** Claim C1, amended.  On a text with speaker blocks the segments, joined
    again with the paragraph separator, are exactly the speaker blocks joined
    with it: every block once and in order.  And the segments have the
    character content of the text (they differ from it by whitespace only)
    when the text has no speaker block, or when the scan for blocks leaves
    nothing out, that is, the lines before the first speaker tag are blank
    and no turn has blank content. *)
Theorem split_text_content (text : str) (max_chars : Z) :
  (speaker_blocks text <> [] ->
   join_paragraphs (split_text text max_chars)
   = join_paragraphs (speaker_blocks text))
  /\ (speaker_blocks text = [] \/ content (concat (dropped_text text)) = [] ->
      content (join_paragraphs (split_text text max_chars)) = content text).
Proof.
  assert (H1 : speaker_blocks text <> [] ->
               join_paragraphs (split_text text max_chars)
               = join_paragraphs (speaker_blocks text)).
  { intros Hb.
    destruct (split_text_blocks_groups text max_chars Hb) as (gs & -> & <- & Hg).
    apply join_paragraphs_flatten.
    eapply Forall_impl; [|exact Hg]. apply within_budget_nonempty. }
  split; [exact H1|].
  intros [Hb|Hd].
  - rewrite content_join_paragraphs. now apply split_text_fallback_content.
  - destruct (speaker_blocks text) as [|b bs] eqn:Eb.
    + rewrite content_join_paragraphs. now apply split_text_fallback_content.
    + rewrite H1 by discriminate. rewrite <- Eb. now apply content_speaker_blocks.
Qed.

Lemma split_text_content_witness :
  join_paragraphs (split_text Samples.two_turns 11)
  = join_paragraphs (speaker_blocks Samples.two_turns)
  /\ content (join_paragraphs (split_text Samples.two_turns 11))
     = content Samples.two_turns.
Proof.
  split.
  - apply (proj1 (split_text_content Samples.two_turns 11)).
    vm_compute. discriminate.
  - apply (proj2 (split_text_content Samples.two_turns 11)).
    right. vm_compute. reflexivity.
Defined.

(** Claim C2 fails as stated: the text ["abc"] has no speaker block, and with
    a budget of 1 it comes back whole, as one segment of 3 characters. *)
Lemma split_text_over_budget :
  speaker_blocks (lit "abc") = []
  /\ split_text (lit "abc") 1 = [lit "abc"]
  /\ ~ (forall seg, In seg (split_text (lit "abc") 1) ->
          (Z.of_nat (length seg) <= 1)%Z
          \/ exists block, In block (speaker_blocks (lit "abc")) /\ seg = block).
Proof.
  split; [reflexivity|]. split; [reflexivity|].
  intros H. destruct (H (lit "abc")) as [Hl|(b & Hb & _)].
  - left. reflexivity.
  - vm_compute in Hl. apply Hl. reflexivity.
  - exact Hb.
Qed.

(** Two blocks of 6 characters are packed under a budget of 12 (the
    separator is not counted), into a segment of 14 characters. *)
Lemma pack_blocks_separator_not_counted :
  map (@length char) (speaker_blocks Samples.two_turns) = [6; 6]
  /\ map (@length char) (split_text Samples.two_turns 12) = [14].
Proof. split; reflexivity. Qed.

(** The three kinds of segment. *)
Lemma split_text_segments (max_chars : Z) (text seg : str) :
  In seg (split_text text max_chars) ->
  (seg = text /\ content text = [])
  \/ (exists g, run_of g (speaker_blocks text)
                /\ seg = join_paragraphs g
                /\ within_budget max_chars g)
  \/ (speaker_blocks text = []
      /\ exists g, run_of g (sentences_of text)
                   /\ seg = strip (concat g)
                   /\ (length g = 1
                       \/ (Z.of_nat (length seg) <= max_chars)%Z)).
Proof.
  intros Hin.
  destruct (speaker_blocks text) as [|b bs] eqn:Eb.
  - destruct (split_text_sentence_groups text max_chars Eb)
      as (gs & Hs & Hc & Hg & Hcont).
    rewrite Hs in Hin. apply in_chunks_or_text in Hin.
    destruct Hin as [Hin|[Hnil ->]].
    + right. right. split; [reflexivity|].
      apply in_stripped_groups in Hin. destruct Hin as (_ & g & Hgin & ->).
      exists g. split; [|split; [reflexivity|]].
      * rewrite <- Hc. now apply in_run_of_concat.
      * rewrite Forall_forall in Hg. destruct (Hg g Hgin) as [H|H];
          [left; exact H|right].
        pose proof (length_strip (concat g)). lia.
    + left. split; [reflexivity|]. rewrite Hnil in Hcont. now rewrite <- Hcont.
  - assert (Hb : speaker_blocks text <> []) by (rewrite Eb; discriminate).
    destruct (split_text_blocks_groups text max_chars Hb) as (gs & Hs & Hc & Hg).
    rewrite Hs in Hin. apply in_map_iff in Hin. destruct Hin as (g & <- & Hgin).
    right. left. exists g. rewrite <- Eb, <- Hc. split; [|split; [reflexivity|]].
    + now apply in_run_of_concat.
    + rewrite Forall_forall in Hg. now apply Hg.
Qed.

(** Claim C2, amended.  Every segment is of one of three kinds: the text
    itself, returned whole when it has no character content; a run of
    consecutive speaker blocks joined by the paragraph separator, which is a
    single block whatever its length, or several blocks whose lengths -
    separators not counted - total at most the budget; or, when there is
    no speaker block, a run of consecutive sentences, stripped, which is a
    single sentence whatever its length or has at most [max_chars]
    characters.  Packing is admitted at equality: a block that brings the
    current segment exactly to the budget is added to it. *)
Theorem split_text_budget (max_chars : Z) :
  (forall text seg,
     In seg (split_text text max_chars) ->
     (seg = text /\ content text = [])
     \/ (exists g, run_of g (speaker_blocks text)
                   /\ seg = join_paragraphs g
                   /\ within_budget max_chars g)
     \/ (speaker_blocks text = []
         /\ exists g, run_of g (sentences_of text)
                      /\ seg = strip (concat g)
                      /\ (length g = 1
                          \/ (Z.of_nat (length seg) <= max_chars)%Z)))
  /\ (forall current_chunk block rest chunks,
        Z.of_nat (length current_chunk + length block) = max_chars ->
        pack_blocks max_chars (block :: rest) chunks current_chunk
        = pack_blocks max_chars rest chunks
            (current_chunk
               ++ (if nonempty current_chunk then [nl; nl] else [])
               ++ block)).
Proof.
  split.
  - intros text seg. apply split_text_segments.
  - intros cur block rest chunks H. simpl.
    replace (Z.of_nat (length cur + length block) <=? max_chars)%Z with true;
      [reflexivity|].
    symmetry. apply Z.leb_le. lia.
Qed.

Lemma split_text_budget_witness :
  ((lit "[A]" ++ [fw_colon] ++ lit "ab" = Samples.two_turns
    /\ content Samples.two_turns = [])
   \/ (exists g, run_of g (speaker_blocks Samples.two_turns)
                 /\ lit "[A]" ++ [fw_colon] ++ lit "ab" = join_paragraphs g
                 /\ within_budget 11 g)
   \/ (speaker_blocks Samples.two_turns = []
       /\ exists g, run_of g (sentences_of Samples.two_turns)
                    /\ lit "[A]" ++ [fw_colon] ++ lit "ab" = strip (concat g)
                    /\ (length g = 1
                        \/ (Z.of_nat
                              (length (lit "[A]" ++ [fw_colon] ++ lit "ab"))
                            <= 11)%Z)))
  /\ pack_blocks 11 [lit "efghij"] [] (lit "abcde")
     = pack_blocks 11 [] []
         (lit "abcde" ++ (if nonempty (lit "abcde") then [nl; nl] else [])
            ++ lit "efghij").
Proof.
  split.
  - apply (proj1 (split_text_budget 11) Samples.two_turns).
    vm_compute. left. reflexivity.
  - apply (proj2 (split_text_budget 11) (lit "abcde") (lit "efghij") [] []).
    vm_compute. reflexivity.
Defined.

(** Claim C9 fails as stated: on the empty text the result is not the empty
    list but the list holding the empty text. *)
Lemma split_text_empty_not_nil :
  split_text [] 1000 = [[]] /\ split_text [] 1000 <> [].
Proof. split; [reflexivity|discriminate]. Qed.

Lemma split_text_nil (max_chars : Z) : split_text [] max_chars = [[]].
Proof. unfold split_text. simpl. destruct (0 <=? max_chars)%Z; reflexivity. Qed.

(** Claim C9, amended.  On the empty text [split_text] returns the text
    itself as its only segment, and this is the only case in which a segment
    is empty. *)
Theorem split_text_empty_segment (max_chars : Z) :
  split_text [] max_chars = [[]]
  /\ (forall text, In [] (split_text text max_chars) -> text = []).
Proof.
  split; [apply split_text_nil|].
  intros text Hin.
  - destruct (speaker_blocks text) as [|b bs] eqn:Eb.
    + destruct (split_text_sentence_groups text max_chars Eb)
        as (gs & Hs & _).
      rewrite Hs in Hin. apply in_chunks_or_text in Hin.
      destruct Hin as [Hin|[_ H]]; [|now symmetry].
      apply in_stripped_groups in Hin. destruct Hin as [Hn _]. congruence.
    + assert (Hb : speaker_blocks text <> []) by (rewrite Eb; discriminate).
      destruct (split_text_blocks_groups text max_chars Hb) as (gs & Hs & Hc & Hg).
      rewrite Hs in Hin. apply in_map_iff in Hin. destruct Hin as (g & Hj & Hgin).
      exfalso.
      assert (Ht : Forall tight g).
      { pose proof (speaker_blocks_tight text) as T. rewrite <- Hc in T.
        rewrite Forall_forall in *. intros x Hx. apply T.
        apply in_concat. eauto. }
      rewrite Forall_forall in Hg.
      pose proof (within_budget_nonempty max_chars g (Hg g Hgin)) as Hne.
      destruct (tight_join_paragraphs g Hne Ht) as [Hn _]. congruence.
Qed.

Lemma split_text_empty_segment_witness :
  split_text [] 7 = [[]]
  /\ (In [] (split_text [] 7) -> @nil char = []).
Proof.
  split.
  - apply (proj1 (split_text_empty_segment 7)).
  - apply (proj2 (split_text_empty_segment 7) []).
Defined.

(** ** The repetition check: claims C10 and C5 *)

Lemma startswith_app (n r : str) : startswith n (n ++ r) = true.
Proof.
  induction n as [|a n IH]; [reflexivity|]. simpl. now rewrite N.eqb_refl.
Qed.

Lemma contains_app (n l r : str) : contains n (l ++ n ++ r) = true.
Proof.
  induction l as [|a l IH].
  - simpl app. destruct (n ++ r) eqn:E; simpl; rewrite <- E;
      now rewrite startswith_app.
  - simpl. rewrite IH. apply orb_true_r.
Qed.

Lemma skipn_app_exact {A : Type} (l1 l2 : list A) :
  skipn (length l1) (l1 ++ l2) = l2.
Proof. induction l1; simpl; auto. Qed.

Lemma firstn_app_exact {A : Type} (l1 l2 : list A) :
  firstn (length l1) (l1 ++ l2) = l1.
Proof. induction l1; simpl; [reflexivity|now f_equal]. Qed.

Lemma detect_repetition_short (text : str) (window_size : Z) :
  (Z.of_nat (length text) < 2 * window_size)%Z ->
  detect_repetition text window_size = false.
Proof.
  intros H. unfold detect_repetition.
  replace (Z.of_nat (length text) <? window_size * 2)%Z with true;
    [reflexivity|].
  symmetry. apply Z.ltb_lt. lia.
Qed.

Lemma stream_loop_repetition (lines : list line) :
  forall st st',
    stream_loop lines st = (RepetitionStopped, st') ->
    detect_repetition (response_text st') default_window_size = true.
Proof.
  induction lines as [|l rest IH]; intros st st' H; simpl in H.
  - discriminate.
  - destruct l as [| | |response done t_output t_now];
      try (now apply IH in H); try discriminate.
    destruct done; [discriminate|].
    match type of H with
    | (if ?c then _ else _) = _ => destruct c; [discriminate|]
    end.
    match type of H with
    | (if ?c then _ else _) = _ => destruct c; [|now apply IH in H]
    end.
    match type of H with
    | (if ?c then _ else _) = _ => destruct c eqn:E
    end.
    + injection H as <-. exact E.
    + now apply IH in H.
Qed.

(** Claim C10.  A text shorter than twice the window is never reported as
    repetitive; so, with the window of 100 the loop uses, a stream is never
    stopped for repetition with fewer than 200 characters of output. *)
Theorem detect_repetition_needs_two_windows :
  (forall text window_size,
     (Z.of_nat (length text) < 2 * window_size)%Z ->
     detect_repetition text window_size = false)
  /\ (forall lines st st',
        stream_loop lines st = (RepetitionStopped, st') ->
        200 <= length (response_text st')).
Proof.
  split; [exact detect_repetition_short|].
  intros lines st st' H. apply stream_loop_repetition in H.
  destruct (le_lt_dec 200 (length (response_text st'))) as [Hl|Hl]; [exact Hl|].
  rewrite detect_repetition_short in H; [discriminate|].
  unfold default_window_size. lia.
Qed.

Lemma detect_repetition_needs_two_windows_witness :
  detect_repetition (lit "aaaaaa") 100 = false
  /\ 200 <= length (response_text
                      (snd (stream_loop
                              [Data (Some Samples.near_repeat) false 0 0]
                              (initial_state 0)))).
Proof.
  split.
  - apply (proj1 detect_repetition_needs_two_windows). vm_compute. reflexivity.
  - apply (proj2 detect_repetition_needs_two_windows
             [Data (Some Samples.near_repeat) false 0 0] (initial_state 0)).
    vm_compute. reflexivity.
Defined.

(** Claim C5 fails as stated.  The last 100 characters of [far_repeat] occur
    verbatim in the 500 characters before them, and the check reports
    nothing: it looks at the last 500 characters of the text with the tail
    taken off, 400 characters.  And a repetition that shows between two
    checks goes unnoticed: after the second delta of [passing_repeat] the
    output ends with 100 characters that occur just before them, no check is
    due, and the stream is read to its end, 800 characters later. *)
Lemma detect_repetition_misses_far_repeat :
  (Samples.far_repeat = (Samples.a100 ++ Samples.b400) ++ Samples.a100
   /\ length (Samples.a100 ++ Samples.b400) = 500
   /\ length Samples.a100 = 100
   /\ contains Samples.a100 (Samples.a100 ++ Samples.b400) = true
   /\ detect_repetition Samples.far_repeat 100 = false)
  /\ (detect_repetition (Samples.fresh 1000 500 ++ repeat 97%N 200) 100 = true
      /\ fst (stream_loop Samples.passing_repeat (initial_state 0)) = Completed
      /\ length (response_text
                   (snd (stream_loop Samples.passing_repeat (initial_state 0))))
         = 1500).
Proof.
  split; [split; [|split; [|split; [|split]]]|split; [|split]];
    vm_compute; reflexivity.
Qed.

Lemma detect_repetition_window (before window tail l r : str) :
  tail <> [] ->
  window = l ++ tail ++ r ->
  length window + length tail = 500
  \/ length before + length window + length tail <= 500 ->
  detect_repetition (before ++ window ++ tail) (Z.of_nat (length tail)) = true.
Proof.
  intros Ht Hw Hlen.
  assert (Hwl : length tail <= length window).
  { rewrite Hw, !length_app. lia. }
  assert (Ht' : 0 < length tail) by (destruct tail; [congruence|simpl; lia]).
  unfold detect_repetition.
  set (text := before ++ window ++ tail).
  assert (Hl : length text = length before + length window + length tail).
  { unfold text. rewrite !length_app. lia. }
  replace (Z.of_nat (length text) <? Z.of_nat (length tail) * 2)%Z with false
    by (symmetry; apply Z.ltb_ge; lia).
  assert (Htail : slice_from text (- Z.of_nat (length tail)) = tail).
  { unfold slice_from, slice_index.
    replace (- Z.of_nat (length tail) <? 0)%Z with true
      by (symmetry; apply Z.ltb_lt; lia).
    replace (Z.to_nat (Z.max 0 (Z.of_nat (length text) + - Z.of_nat (length tail))))
      with (length (before ++ window)) by (rewrite length_app; lia).
    unfold text. rewrite app_assoc. apply skipn_app_exact. }
  rewrite Htail.
  destruct (500 <? Z.of_nat (length text))%Z eqn:E.
  - apply Z.ltb_lt in E. destruct Hlen as [Hlen|Hlen]; [|lia].
    unfold slice, slice_index.
    replace (-500 <? 0)%Z with true by reflexivity.
    replace (- Z.of_nat (length tail) <? 0)%Z with true
      by (symmetry; apply Z.ltb_lt; lia).
    replace (Z.to_nat (Z.max 0 (Z.of_nat (length text) + -500)))
      with (length before) by lia.
    replace (Z.to_nat (Z.max 0 (Z.of_nat (length text) + - Z.of_nat (length tail)))
             - length before)
      with (length window) by lia.
    unfold text. rewrite skipn_app_exact, firstn_app_exact.
    rewrite Hw. apply contains_app.
  - unfold slice_to, slice_index.
    replace (- Z.of_nat (length tail) <? 0)%Z with true
      by (symmetry; apply Z.ltb_lt; lia).
    replace (Z.to_nat (Z.max 0 (Z.of_nat (length text) + - Z.of_nat (length tail))))
      with (length (before ++ window)) by (rewrite length_app; lia).
    unfold text. rewrite app_assoc, firstn_app_exact.
    rewrite Hw, app_assoc. apply contains_app.
Qed.

Lemma stream_loop_stops_on_repetition
    (st : stream_state) (delta : str) (t_output t_now : Z) (rest : list line) :
  repetition_check_interval
    <= length (response_text st ++ delta) - last_check_length st ->
  detect_repetition (response_text st ++ delta) default_window_size = true ->
  fst (stream_loop (Data (Some delta) false t_output t_now :: rest) st)
  = RepetitionStopped
  /\ response_text
       (snd (stream_loop (Data (Some delta) false t_output t_now :: rest) st))
     = response_text st ++ delta.
Proof.
  intros Hgrow Hrep. cbn [stream_loop]. cbn [no_output_count].
  destruct (check_interval <? t_now - _)%Z eqn:Eidle; cbn [andb];
    [replace (max_no_output_intervals <=? 0 + 1)%Z with false by reflexivity|];
    cbn [response_text last_check_length];
    apply Nat.leb_le in Hgrow; rewrite Hgrow, Hrep; split; reflexivity.
Qed.

(** *** Where the loop stops, and what the checks have seen *)

Lemma stream_loop_app (l more : list line) :
  forall st,
    stream_loop (l ++ more) st
    = match stream_loop l st with
      | (Exhausted, st') => stream_loop more st'
      | ended => ended
      end.
Proof.
  induction l as [|x l IH]; intros st; [reflexivity|].
  cbn [app]. destruct x as [| | |response done t_output t_now];
    cbn [stream_loop]; try apply IH; try reflexivity.
  destruct done; [reflexivity|].
  match goal with |- context [if ?c then _ else _] => destruct c end;
    [reflexivity|].
  match goal with |- context [if ?c then _ else _] => destruct c end;
    [|apply IH].
  match goal with |- context [if ?c then _ else _] => destruct c end;
    [reflexivity|apply IH].
Qed.

(** A loop that ends for a reason of its own ends at one line, after it has
    read the lines before it to their end. *)
Lemma stream_loop_stop_point (lines : list line) :
  forall st reason st',
    stream_loop lines st = (reason, st') ->
    reason <> Exhausted ->
    exists pre x rest st0,
      lines = pre ++ x :: rest
      /\ stream_loop pre st = (Exhausted, st0)
      /\ stream_loop [x] st0 = (reason, st').
Proof.
  induction lines as [|x l IH]; intros st reason st' H Hr.
  - cbn in H. congruence.
  - change (x :: l) with ([x] ++ l) in H. rewrite stream_loop_app in H.
    destruct (stream_loop [x] st) as [r1 st1] eqn:E1.
    destruct r1; try (exists [], x, l, st; now rewrite E1, <- H).
    destruct (IH st1 reason st' H Hr) as (pre & y & rest & st0 & -> & Hp & Hy).
    exists (x :: pre), y, rest, st0. split; [reflexivity|]. split; [|exact Hy].
    change (x :: pre) with ([x] ++ pre). now rewrite stream_loop_app, E1.
Qed.

(** What holds of the first state and is kept by every line that the loop
    reads through holds of the state after any number of them. *)
Lemma stream_loop_invariant (P : stream_state -> Prop) :
  (forall x st st', P st -> stream_loop [x] st = (Exhausted, st') -> P st') ->
  forall lines st st',
    P st -> stream_loop lines st = (Exhausted, st') -> P st'.
Proof.
  intros Hstep. induction lines as [|x l IH]; intros st st' HP H.
  - cbn in H. now injection H as <-.
  - change (x :: l) with ([x] ++ l) in H. rewrite stream_loop_app in H.
    destruct (stream_loop [x] st) as [r1 st1] eqn:E1.
    destruct r1; try discriminate.
    eapply IH; [|exact H]. eapply Hstep; eauto.
Qed.

Lemma checked_initial (t0 : Z) : checked (initial_state t0).
Proof.
  unfold checked, repetition_check_interval. cbn. repeat split; lia.
Qed.

Lemma checked_step (x : line) (st st' : stream_state) :
  checked st -> stream_loop [x] st = (Exhausted, st') -> checked st'.
Proof.
  intros (H1 & H2 & H3) H.
  destruct x as [| | |response done t_output t_now]; cbn [stream_loop] in H;
    try (injection H as <-; now repeat split); try discriminate.
  destruct done; [discriminate|].
  match type of H with
  | (if ?c then _ else _) = _ => destruct c; [discriminate|]
  end.
  cbn [response_text last_check_length] in H.
  assert (Hgrow : exists delta,
             response_text
               match response with
               | Some delta =>
                   {| response_text := response_text st ++ delta;
                      last_output_time := t_output;
                      no_output_count := 0;
                      last_check_length := last_check_length st |}
               | None => st
               end = response_text st ++ delta
             /\ last_check_length
                  match response with
                  | Some delta =>
                      {| response_text := response_text st ++ delta;
                         last_output_time := t_output;
                         no_output_count := 0;
                         last_check_length := last_check_length st |}
                  | None => st
                  end = last_check_length st).
  { destruct response as [delta|]; [now exists delta|].
    exists []. now rewrite app_nil_r. }
  destruct Hgrow as (delta & Ht & Hl). rewrite Ht, Hl in H.
  destruct (repetition_check_interval
              <=? length (response_text st ++ delta) - last_check_length st)
    eqn:Edue.
  - destruct (detect_repetition (response_text st ++ delta)
                default_window_size) eqn:Erep; [discriminate|].
    injection H as <-. unfold checked. cbn [response_text last_check_length].
    unfold repetition_check_interval. rewrite firstn_all.
    repeat split; [lia|lia|auto].
  - apply Nat.leb_gt in Edue. injection H as <-. unfold checked.
    cbn [response_text last_check_length]. rewrite length_app in *.
    repeat split; [lia|lia|].
    intros Hpos. rewrite firstn_app.
    replace (last_check_length st - length (response_text st)) with 0 by lia.
    cbn [firstn]. rewrite app_nil_r. auto.
Qed.

Lemma stream_loop_checked (t0 : Z) (lines : list line) (st' : stream_state) :
  stream_loop lines (initial_state t0) = (Exhausted, st') -> checked st'.
Proof.
  apply (stream_loop_invariant checked checked_step). apply checked_initial.
Qed.

(** A single line stops the loop for repetition only if it brings text, a
    check is due and the check reports the output. *)
Lemma stream_loop_repetition_step (x : line) (st st' : stream_state) :
  length (response_text st)
  < last_check_length st + repetition_check_interval ->
  stream_loop [x] st = (RepetitionStopped, st') ->
  exists delta t_output t_now,
    x = Data (Some delta) false t_output t_now
    /\ response_text st' = response_text st ++ delta
    /\ repetition_check_interval
       <= length (response_text st') - last_check_length st
    /\ detect_repetition (response_text st') default_window_size = true.
Proof.
  intros Hinv H.
  destruct x as [| | |response done t_output t_now]; cbn [stream_loop] in H;
    try discriminate.
  destruct done; [discriminate|].
  match type of H with
  | (if ?c then _ else _) = _ => destruct c; [discriminate|]
  end.
  cbn [response_text last_check_length] in H.
  destruct response as [delta|]; cbn [response_text last_check_length] in H.
  - destruct (repetition_check_interval
                <=? length (response_text st ++ delta) - last_check_length st)
      eqn:Edue; [|discriminate].
    destruct (detect_repetition (response_text st ++ delta)
                default_window_size) eqn:Erep; [|discriminate].
    injection H as <-. cbn [response_text].
    exists delta, t_output, t_now. apply Nat.leb_le in Edue. auto.
  - destruct (repetition_check_interval
                <=? length (response_text st) - last_check_length st)
      eqn:Edue; [|discriminate].
    apply Nat.leb_le in Edue. unfold repetition_check_interval in *. lia.
Qed.

Lemma stream_loop_repetition_point (t0 : Z) (lines : list line)
    (st' : stream_state) :
  stream_loop lines (initial_state t0) = (RepetitionStopped, st') ->
  exists pre delta t_output t_now rest st,
    lines = pre ++ Data (Some delta) false t_output t_now :: rest
    /\ stream_loop pre (initial_state t0) = (Exhausted, st)
    /\ response_text st' = response_text st ++ delta
    /\ repetition_check_interval
       <= length (response_text st') - last_check_length st
    /\ detect_repetition (response_text st') default_window_size = true.
Proof.
  intros H.
  destruct (stream_loop_stop_point _ _ _ _ H)
    as (pre & x & rest & st & -> & Hpre & Hx); [discriminate|].
  pose proof (stream_loop_checked _ _ _ Hpre) as (_ & Hc & _).
  destruct (stream_loop_repetition_step _ _ _ Hc Hx)
    as (delta & a & b & -> & Ht & Hdue & Hrep).
  now exists pre, delta, a, b, rest, st.
Qed.

(** Claim C5, amended.  The check reports a repetition for every text whose
    trailing [window_size] characters occur verbatim within the
    [500 - window_size] characters just before them (400 by default), or
    anywhere before them when the text has at most 500 characters.  When a
    delta brings the output to such a text with at least 500 characters
    received since the last check, the loop stops at that line, whatever
    follows in the stream.  Conversely, the loop stops for repetition only
    at such a line: one whose delta brings the output at least 500
    characters past the last check, to a text that the check reports.  And
    after every line that the loop reads through, the last check, which was
    on the first [last_check_length] characters of the output and reported
    nothing, is fewer than 500 characters behind the output. *)
Theorem detect_repetition_in_window :
  (forall before window tail l r,
     tail <> [] ->
     window = l ++ tail ++ r ->
     length window + length tail = 500
     \/ length before + length window + length tail <= 500 ->
     detect_repetition (before ++ window ++ tail) (Z.of_nat (length tail))
     = true)
  /\ (forall st delta t_output t_now rest,
        repetition_check_interval
          <= length (response_text st ++ delta) - last_check_length st ->
        detect_repetition (response_text st ++ delta) default_window_size
        = true ->
        fst (stream_loop (Data (Some delta) false t_output t_now :: rest) st)
        = RepetitionStopped
        /\ response_text
             (snd (stream_loop
                     (Data (Some delta) false t_output t_now :: rest) st))
           = response_text st ++ delta)
  /\ (forall t0 lines st',
        stream_loop lines (initial_state t0) = (RepetitionStopped, st') ->
        exists pre delta t_output t_now rest st,
          lines = pre ++ Data (Some delta) false t_output t_now :: rest
          /\ stream_loop pre (initial_state t0) = (Exhausted, st)
          /\ response_text st' = response_text st ++ delta
          /\ repetition_check_interval
             <= length (response_text st') - last_check_length st
          /\ detect_repetition (response_text st') default_window_size
             = true)
  /\ (forall t0 lines st',
        stream_loop lines (initial_state t0) = (Exhausted, st') ->
        checked st').
Proof.
  split; [exact detect_repetition_window|].
  split; [exact stream_loop_stops_on_repetition|].
  split; [exact stream_loop_repetition_point|exact stream_loop_checked].
Qed.

Lemma detect_repetition_in_window_witness :
  detect_repetition
    (repeat 98%N 100 ++ (repeat 98%N 200 ++ repeat 97%N 100 ++ repeat 99%N 100)
       ++ repeat 97%N 100)
    (Z.of_nat (length (repeat 97%N 100))) = true
  /\ fst (stream_loop
            (Data (Some Samples.near_repeat) false 0 0 :: [Broken])
            (initial_state 0))
     = RepetitionStopped
  /\ (exists pre delta t_output t_now rest st,
        firstn 2 Samples.passing_repeat
          ++ [Data (Some Samples.near_repeat) false 0 0; Broken]
        = pre ++ Data (Some delta) false t_output t_now :: rest
        /\ stream_loop pre (initial_state 0) = (Exhausted, st)
        /\ response_text
             (snd (stream_loop
                     (firstn 2 Samples.passing_repeat
                        ++ [Data (Some Samples.near_repeat) false 0 0; Broken])
                     (initial_state 0)))
           = response_text st ++ delta
        /\ repetition_check_interval
           <= length (response_text
                        (snd (stream_loop
                                (firstn 2 Samples.passing_repeat
                                   ++ [Data (Some Samples.near_repeat) false 0 0;
                                       Broken])
                                (initial_state 0))))
              - last_check_length st
        /\ detect_repetition
             (response_text
                (snd (stream_loop
                        (firstn 2 Samples.passing_repeat
                           ++ [Data (Some Samples.near_repeat) false 0 0;
                               Broken])
                        (initial_state 0))))
             default_window_size = true)
  /\ checked (snd (stream_loop (firstn 2 Samples.passing_repeat)
                     (initial_state 0))).
Proof.
  split; [|split; [|split]].
  - apply (proj1 detect_repetition_in_window
             (repeat 98%N 100)
             (repeat 98%N 200 ++ repeat 97%N 100 ++ repeat 99%N 100)
             (repeat 97%N 100) (repeat 98%N 200) (repeat 99%N 100)).
    + discriminate.
    + reflexivity.
    + left. vm_compute. reflexivity.
  - apply (proj1 (proj2 detect_repetition_in_window)
             (initial_state 0) Samples.near_repeat 0%Z 0%Z [Broken]).
    + vm_compute. lia.
    + vm_compute. reflexivity.
  - apply (proj1 (proj2 (proj2 detect_repetition_in_window)) 0%Z).
    vm_compute. reflexivity.
  - apply (proj2 (proj2 (proj2 detect_repetition_in_window)) 0%Z
             (firstn 2 Samples.passing_repeat)).
    vm_compute. reflexivity.
Defined.

(** ** The retry wrapper: claim C6 *)

(** In streaming mode [call_ollama] returns from its first iteration
    (line 446): one request, whatever comes back. *)
Lemma call_ollama_stream_once (ep : endpoint) (p : prompt) (max_retries : Z)
    (log : list request) :
  (0 <= max_retries)%Z ->
  call_ollama ep p max_retries true log
  = (Returned (_stream_response (stream_answer ep (length log)) 0),
     log ++ [(p, true)]).
Proof.
  intros H. unfold call_ollama.
  destruct (Z.to_nat (max_retries + 1)) eqn:E; [lia|reflexivity].
Qed.

(** Without streaming, two blank answers are retried and the third answer
    is returned. *)
Lemma call_ollama_plain_third_attempt (ep : endpoint) (p : prompt)
    (log : list request) (body : str) :
  (exists b1, plain_answer ep (length log) = PBody b1 /\ strip b1 = []) ->
  (exists b2, plain_answer ep (S (length log)) = PBody b2 /\ strip b2 = []) ->
  plain_answer ep (S (S (length log))) = PBody body ->
  strip body <> [] ->
  call_ollama ep p 2 false log
  = (Returned (strip body), log ++ [(p, false); (p, false); (p, false)]).
Proof.
  intros (b1 & H1 & S1) (b2 & H2 & S2) H3 Hb.
  unfold call_ollama. change (Z.to_nat (2 + 1)) with 3. cbn [attempts].
  rewrite H1, S1. cbn [nonempty]. change (0 <? 2)%Z with true. cbn iota.
  rewrite length_app. cbn [length]. rewrite Nat.add_1_r, H2, S2.
  cbn [nonempty]. change (0 + 1 <? 2)%Z with true. cbn iota.
  rewrite !length_app. cbn [length]. rewrite !Nat.add_1_r, H3.
  apply nonempty_true in Hb. rewrite Hb. rewrite <- !app_assoc. reflexivity.
Qed.

(** Claim C6, at the failing input: with [max_retries = 2] and streaming (the
    default), an endpoint whose first two answers are empty and whose third
    is ["ok"] is asked once, and [call_ollama] returns the empty text; the
    answer to a third request would have been ["ok"]. *)
Theorem call_ollama_stream_does_not_retry :
  call_ollama Samples.third_time_lucky (processing_prompt Samples.chunk10)
              2 true []
  = (Returned [], [(processing_prompt Samples.chunk10, true)])
  /\ _stream_response (stream_answer Samples.third_time_lucky 0) 0 = []
  /\ _stream_response (stream_answer Samples.third_time_lucky 1) 1 = []
  /\ _stream_response (stream_answer Samples.third_time_lucky 2) 2 = lit "ok"
  /\ fst (call_ollama Samples.third_time_lucky
            (processing_prompt Samples.chunk10) 2 false [])
     = Returned (lit "ok").
Proof. repeat split; vm_compute; reflexivity. Qed.

(** ** The batch: claims C7 and C8 *)

(** [call_ollama] lets no timeout and no transport error through: it raises
    only if an attempt raises something else. *)
Lemma attempts_catch_transport (ep : endpoint) (p : prompt) (max_retries : Z)
    (use_stream : bool) (remaining : nat) :
  (forall n, plain_answer ep n <> POtherError) ->
  forall attempt log,
  exists r log',
    attempts ep p max_retries use_stream remaining attempt log
    = (Returned r, log').
Proof.
  intros Hep. induction remaining as [|rem IH]; intros attempt log; simpl.
  - eauto.
  - destruct use_stream; [eauto|].
    destruct (plain_answer ep (length log)) eqn:E.
    + destruct (attempt <? max_retries)%Z; eauto.
    + destruct (attempt <? max_retries)%Z; eauto.
    + now apply Hep in E.
    + destruct (nonempty (strip response)); [eauto|].
      destruct (attempt <? max_retries)%Z; eauto.
Qed.

Lemma call_ollama_catches_transport (ep : endpoint) (p : prompt)
    (max_retries : Z) (use_stream : bool) (log : list request) :
  (forall n, plain_answer ep n <> POtherError) ->
  exists r log',
    call_ollama ep p max_retries use_stream log = (Returned r, log').
Proof. intros H. now apply attempts_catch_transport. Qed.

(** A chunk whose generation comes back empty is kept as it is. *)
Lemma process_chunk_falls_back (ep : endpoint) (chunk : str)
    (log : list request) :
  _stream_response (stream_answer ep (length log)) 0 = [] ->
  process_chunk ep chunk log
  = (Returned chunk, log ++ [(processing_prompt chunk, true)]).
Proof.
  intros H. unfold process_chunk.
  rewrite call_ollama_stream_once by lia. now rewrite H.
Qed.

(** On a chunk that is not empty nothing is raised. *)
Lemma process_chunk_returns (ep : endpoint) (chunk : str) (log : list request) :
  chunk <> [] ->
  exists r log', process_chunk ep chunk log = (Returned r, log').
Proof.
  intros Hc. unfold process_chunk.
  rewrite call_ollama_stream_once by lia.
  destruct (nonempty _); [|eauto].
  destruct chunk as [|c chunk]; [congruence|]. cbn [length].
  destruct (too_short _ _); [|eauto].
  rewrite call_ollama_stream_once by lia. eauto.
Qed.

Lemma process_chunks_returns (ep : endpoint) (chunks : list str) :
  Forall (fun chunk => chunk <> []) chunks ->
  forall processed log,
  exists rs log',
    process_chunks ep chunks processed log = (Returned (processed ++ rs), log')
    /\ length rs = length chunks.
Proof.
  induction 1 as [|chunk chunks Hc _ IH]; intros processed log; simpl.
  - exists [], log. now rewrite app_nil_r.
  - destruct (process_chunk_returns ep chunk log Hc) as (r & log1 & ->).
    destruct (IH (processed ++ [r]) log1) as (rs & log' & -> & Hl).
    exists (r :: rs), log'. rewrite <- app_assoc. simpl. auto.
Qed.

Lemma split_text_segments_nonempty (text : str) (max_chars : Z) :
  text <> [] -> Forall (fun chunk => chunk <> []) (split_text text max_chars).
Proof.
  intros Ht. apply Forall_forall. intros seg Hin ->.
  destruct (speaker_blocks text) as [|b bs] eqn:Eb.
  - destruct (split_text_sentence_groups text max_chars Eb) as (gs & Hs & _).
    rewrite Hs in Hin. apply in_chunks_or_text in Hin.
    destruct Hin as [Hin|[_ H]]; [|congruence].
    apply in_stripped_groups in Hin. destruct Hin as [Hn _]. congruence.
  - assert (Hb : speaker_blocks text <> []) by (rewrite Eb; discriminate).
    destruct (split_text_blocks_groups text max_chars Hb) as (gs & Hs & Hc & Hg).
    rewrite Hs in Hin. apply in_map_iff in Hin. destruct Hin as (g & Hj & Hgin).
    assert (Htg : Forall tight g).
    { pose proof (speaker_blocks_tight text) as T. rewrite <- Hc in T.
      rewrite Forall_forall in *. intros x Hx. apply T.
      apply in_concat. eauto. }
    rewrite Forall_forall in Hg.
    pose proof (within_budget_nonempty max_chars g (Hg g Hgin)) as Hne.
    destruct (tight_join_paragraphs g Hne Htg) as [Hn _]. congruence.
Qed.

(** On a transcript that is not empty the batch always ends with a
    document, one entry per chunk, whatever the endpoint does. *)
Lemma process_transcript_returns (ep : endpoint) (transcript : str)
    (log : list request) :
  transcript <> [] ->
  exists rs log',
    process_transcript ep transcript log = (Returned (join_paragraphs rs), log')
    /\ length rs = length (split_text transcript 1000).
Proof.
  intros Ht. unfold process_transcript.
  destruct (process_chunks_returns ep (split_text transcript 1000)
              (split_text_segments_nonempty transcript 1000 Ht) [] log)
    as (rs & log' & -> & Hl).
  destruct transcript; [congruence|]. simpl. eauto.
Qed.

(** When every generation comes back empty, the document is the chunks
    themselves. *)
Lemma process_chunks_all_fail (ep : endpoint) (chunks : list str) :
  (forall n, _stream_response (stream_answer ep n) 0 = []) ->
  forall processed log,
    fst (process_chunks ep chunks processed log) = Returned (processed ++ chunks).
Proof.
  intros Hep. induction chunks as [|chunk rest IH]; intros processed log;
    cbn [process_chunks].
  - now rewrite app_nil_r.
  - rewrite process_chunk_falls_back by apply Hep.
    rewrite IH, <- app_assoc. reflexivity.
Qed.

Lemma process_transcript_all_fail (ep : endpoint) (transcript : str)
    (log : list request) :
  (forall n, _stream_response (stream_answer ep n) 0 = []) ->
  transcript <> [] ->
  fst (process_transcript ep transcript log)
  = Returned (join_paragraphs (split_text transcript 1000)).
Proof.
  intros Hep Ht. unfold process_transcript.
  pose proof (process_chunks_all_fail ep (split_text transcript 1000) Hep [] log)
    as H.
  destruct (process_chunks ep (split_text transcript 1000) [] log) as [r log'].
  simpl in H. subst r. destruct transcript; [congruence|reflexivity].
Qed.

(** Claim C7, at the failing input: on the empty transcript the batch is
    aborted by a division by zero, whatever the endpoint answers, and no
    document is produced - with an unreachable endpoint for one. *)
Theorem process_transcript_empty_raises :
  (forall ep log,
     fst (process_transcript ep [] log) = Raised ZeroDivisionError)
  /\ process_transcript Samples.unreachable [] []
     = (Raised ZeroDivisionError, [(processing_prompt [], true)]).
Proof.
  split; [|reflexivity].
  intros ep log. unfold process_transcript.
  rewrite split_text_nil.
  cbn [process_chunks]. unfold process_chunk.
  rewrite call_ollama_stream_once by lia.
  destruct (nonempty _); reflexivity.
Qed.

(** *** What [remove_duplicates] and the formatter keep *)

Lemma tight_concat (l : list str) :
  l <> [] -> Forall tight l -> tight (concat l).
Proof.
  induction l as [|a l IH]; [congruence|]. intros _ H.
  inversion H as [|? ? Ha Hl]; subst. destruct l as [|b l].
  - simpl. now rewrite app_nil_r.
  - change (concat (a :: b :: l)) with (a ++ [] ++ concat (b :: l)).
    apply tight_app; [exact Ha|]. apply IH; [discriminate|exact Hl].
Qed.

Lemma keep_nonempty_tight (s : str) : Forall tight (keep_nonempty (strip s)).
Proof.
  unfold keep_nonempty. destruct (nonempty (strip s)) eqn:E; constructor.
  - apply strip_tight. now apply nonempty_true.
  - constructor.
Qed.

Lemma content_keep_nonempty (s : str) :
  content (concat (keep_nonempty (strip s))) = content s.
Proof.
  unfold keep_nonempty. destruct (nonempty (strip s)) eqn:E.
  - simpl. now rewrite app_nil_r, content_strip.
  - apply nonempty_false, strip_nil_content in E. now rewrite E.
Qed.

Lemma extract_sentences_tight (text : str) :
  forall pending, Forall tight (extract_sentences text pending).
Proof.
  induction text as [|c r IH]; intros pending; simpl.
  - destruct (nonempty pending); [apply keep_nonempty_tight|constructor].
  - destruct (is_terminator c); [|apply IH].
    apply Forall_app. split; [apply keep_nonempty_tight|apply IH].
Qed.

Lemma content_extract_sentences (text : str) :
  forall pending,
    content (concat (extract_sentences text pending))
    = content pending ++ content text.
Proof.
  induction text as [|c r IH]; intros pending; cbn [extract_sentences].
  - change (content []) with (@nil char). rewrite app_nil_r.
    destruct pending as [|p ps]; [reflexivity|].
    cbn [nonempty]. apply content_keep_nonempty.
  - change (c :: r) with ([c] ++ r). rewrite (content_app [c] r).
    destruct (is_terminator c).
    + rewrite concat_app, content_app, content_keep_nonempty, IH.
      rewrite content_app. cbn [content filter app].
      now rewrite <- app_assoc.
    + rewrite IH, content_app. now rewrite <- app_assoc.
Qed.

Section AddUnique.

Variable collides : str -> str -> bool.
Variable P : str -> Prop.

Lemma first_collision_in (f : str -> bool) (u : list str) (k : str) :
  first_collision f u = Some k -> In k u /\ f k = true.
Proof.
  induction u as [|a u IH]; simpl; [discriminate|].
  destruct (f a) eqn:E.
  - intros H. injection H as <-. auto.
  - intros H. destruct (IH H). auto.
Qed.

Lemma first_collision_none (f : str -> bool) (u : list str) :
  first_collision f u = None <-> Forall (fun s => f s = false) u.
Proof.
  induction u as [|a u IH]; simpl.
  - split; [constructor|reflexivity].
  - destruct (f a) eqn:E.
    + split; [discriminate|]. intros H. inversion H; congruence.
    + rewrite IH. split; [now constructor|]. intros H. now inversion H.
Qed.

Lemma list_remove_Forall (x : str) (l : list str) :
  Forall P l -> Forall P (list_remove x l).
Proof.
  induction 1 as [|a l Ha Hl IH]; simpl; [constructor|].
  destruct (str_eqb x a); [exact Hl|now constructor].
Qed.

Lemma add_unique_Forall (u : list str) (s : str) :
  Forall P u -> P s -> Forall P (add_unique collides u s).
Proof.
  intros Hu Hs. unfold add_unique.
  destruct (first_collision (collides s) u) as [k|].
  - destruct (length k <? length s); [|exact Hu].
    apply Forall_app. split; [now apply list_remove_Forall|].
    constructor; [exact Hs|constructor].
  - apply Forall_app. split; [exact Hu|]. constructor; [exact Hs|constructor].
Qed.

Lemma add_unique_nonempty (u : list str) (s : str) :
  add_unique collides u s <> [].
Proof.
  unfold add_unique.
  destruct (first_collision (collides s) u) as [k|] eqn:E.
  - destruct (length k <? length s).
    + destruct (list_remove k u); discriminate.
    + apply first_collision_in in E. destruct E as [E _]. now destruct u.
  - destruct u; discriminate.
Qed.

Lemma fold_add_unique_Forall (l : list str) :
  forall u, Forall P u -> Forall P l ->
            Forall P (fold_left (add_unique collides) l u).
Proof.
  induction l as [|a l IH]; intros u Hu Hl; simpl; [exact Hu|].
  inversion Hl; subst. apply IH; [|assumption]. now apply add_unique_Forall.
Qed.

Lemma fold_add_unique_nonempty (l : list str) :
  forall u, u <> [] \/ l <> [] -> fold_left (add_unique collides) l u <> [].
Proof.
  induction l as [|a l IH]; intros u H; simpl.
  - destruct H; congruence.
  - apply IH. left. apply add_unique_nonempty.
Qed.

End AddUnique.

Lemma split_paragraphs_cons (c c2 : char) (r : str) :
  split_paragraphs (c :: c2 :: r)
  = if ((c =? nl) && (c2 =? nl))%N then [] :: split_paragraphs r
    else cons_head c (split_paragraphs (c2 :: r)).
Proof. reflexivity. Qed.

Lemma content_concat_split_paragraphs (s : str) :
  content (concat (split_paragraphs s)) = content s
  /\ forall c, content (concat (split_paragraphs (c :: s))) = content (c :: s).
Proof.
  induction s as [|c2 r [IH1 IH2]].
  - split; [reflexivity|]. intros c. cbn [split_paragraphs concat].
    now rewrite app_nil_r.
  - split; [apply IH2|]. intros c. rewrite split_paragraphs_cons.
    destruct ((c =? nl) && (c2 =? nl))%N eqn:E.
    + apply andb_prop in E. destruct E as [E1 E2].
      apply N.eqb_eq in E1, E2. subst. cbn [concat app].
      rewrite IH1. reflexivity.
    + rewrite concat_cons_head.
      change (content (c :: concat (split_paragraphs (c2 :: r))))
        with (content ([c] ++ concat (split_paragraphs (c2 :: r)))).
      change (c :: c2 :: r) with ([c] ++ c2 :: r).
      rewrite !content_app. now rewrite IH2.
Qed.

Lemma content_stripped_paragraphs (ps : list str) :
  content (concat (stripped_paragraphs ps)) = content (concat ps).
Proof.
  unfold stripped_paragraphs. induction ps as [|p ps IH]; [reflexivity|].
  simpl. destruct (nonempty (strip p)) eqn:E.
  - simpl. now rewrite !content_app, content_strip, IH.
  - apply nonempty_false, strip_nil_content in E.
    now rewrite content_app, E, IH.
Qed.

Lemma stripped_paragraphs_tight (ps : list str) :
  Forall tight (stripped_paragraphs ps).
Proof.
  unfold stripped_paragraphs. apply Forall_forall. intros x H.
  apply filter_In in H. destruct H as [H Hn].
  apply in_map_iff in H. destruct H as (p & <- & _).
  apply strip_tight. now apply nonempty_true.
Qed.

Lemma content_nonempty_list (l : list str) : content (concat l) <> [] -> l <> [].
Proof. intros H ->. now apply H. Qed.

(** A text with some character content de-duplicates to a text without
    whitespace at its ends, so not to the empty text. *)
Lemma remove_duplicates_tight (text : str) :
  content text <> [] -> tight (remove_duplicates text).
Proof.
  intros Hc. unfold remove_duplicates.
  set (U := unique_sentences (sentence_list text)).
  assert (HU : U <> [] /\ Forall tight U).
  { split.
    - apply fold_add_unique_nonempty. right. apply content_nonempty_list.
      unfold sentence_list. now rewrite content_extract_sentences.
    - apply fold_add_unique_Forall; [constructor|apply extract_sentences_tight]. }
  destruct HU as [HU1 HU2].
  pose proof (tight_concat U HU1 HU2) as HD.
  destruct (has_speaker_tags (concat U)); [|exact HD].
  apply tight_join_paragraphs.
  - apply fold_add_unique_nonempty. right. apply content_nonempty_list.
    rewrite content_stripped_paragraphs.
    rewrite (proj1 (content_concat_split_paragraphs _)).
    now apply tight_content.
  - apply fold_add_unique_Forall; [constructor|apply stripped_paragraphs_tight].
Qed.

Lemma format_speaker_paragraphs_tight (text : str) :
  tight text -> nonempty (format_speaker_paragraphs text) = true.
Proof.
  intros H. destruct (tight_head text H) as (c & r & -> & Hc).
  unfold format_speaker_paragraphs, lstrip_nl. cbn [sub_tags].
  assert (Hn : (nl =? c)%N = false).
  { destruct (nl =? c)%N eqn:E; [|reflexivity].
    apply N.eqb_eq in E. subst c. discriminate. }
  destruct (match_tag_length (c :: r)); cbn [app lstrip_by]; now rewrite Hn.
Qed.

Lemma stream_response_tight (reply : stream_reply) (attempt : Z) :
  _stream_response reply attempt <> [] -> tight (_stream_response reply attempt).
Proof.
  unfold _stream_response. destruct reply as [| |t0 lines]; try congruence.
  destruct (stream_loop lines (initial_state t0)) as [[] st]; try congruence;
    apply strip_tight.
Qed.

Lemma finish_chunk_generated (chunk r : str) :
  r <> [] -> tight r ->
  finish_chunk chunk (remove_duplicates r)
  = format_speaker_paragraphs (remove_duplicates r).
Proof.
  intros _ Ht. unfold finish_chunk.
  rewrite format_speaker_paragraphs_tight; [reflexivity|].
  apply remove_duplicates_tight. now apply tight_content.
Qed.

(** A first generation of at least 60% of the chunk is kept, with no second
    request. *)
Lemma process_chunk_long_enough (ep : endpoint) (chunk : str)
    (log : list request) :
  let r1 := _stream_response (stream_answer ep (length log)) 0 in
  chunk <> [] ->
  r1 <> [] ->
  too_short (remove_duplicates r1) chunk = false ->
  process_chunk ep chunk log
  = (Returned (format_speaker_paragraphs (remove_duplicates r1)),
     log ++ [(processing_prompt chunk, true)]).
Proof.
  intros r1 Hc Hr1 Hlong. unfold process_chunk.
  rewrite call_ollama_stream_once by lia. fold r1.
  pose proof Hr1 as Hr1'. apply nonempty_true in Hr1'. rewrite Hr1'.
  destruct chunk as [|c0 chunk0] eqn:Ec; [congruence|]. rewrite <- Ec in *.
  replace (length chunk) with (S (length chunk0)) by (rewrite Ec; reflexivity).
  cbn iota. rewrite Hlong. f_equal. f_equal.
  apply finish_chunk_generated; [exact Hr1|].
  now apply stream_response_tight.
Qed.

(** *** The requests of a run, chunk by chunk *)

Lemma generated_nonempty (r : str) :
  r <> [] -> tight r -> format_speaker_paragraphs (remove_duplicates r) <> [].
Proof.
  intros _ Ht. apply nonempty_true, format_speaker_paragraphs_tight.
  apply remove_duplicates_tight. now apply tight_content.
Qed.

Lemma process_chunk_second_request (ep : endpoint) (chunk : str)
    (log : list request) :
  chunk <> [] ->
  _stream_response (stream_answer ep (length log)) 0 <> [] ->
  too_short
    (remove_duplicates (_stream_response (stream_answer ep (length log)) 0))
    chunk = true ->
  process_chunk ep chunk log
  = (Returned
       (if nonempty (_stream_response (stream_answer ep (S (length log))) 0)
        then format_speaker_paragraphs
               (remove_duplicates
                  (_stream_response (stream_answer ep (S (length log))) 0))
        else chunk),
     log ++ repeat (processing_prompt chunk, true) 2).
Proof.
  intros Hc Hr1 Hshort. unfold process_chunk.
  rewrite call_ollama_stream_once by lia.
  apply nonempty_true in Hr1. rewrite Hr1.
  destruct chunk as [|c0 chunk0] eqn:Ec; [congruence|]. rewrite <- Ec in *.
  replace (length chunk) with (S (length chunk0)) by (rewrite Ec; reflexivity).
  cbn iota. rewrite Hshort.
  rewrite call_ollama_stream_once by lia.
  rewrite length_app. cbn [length]. rewrite Nat.add_1_r.
  rewrite <- app_assoc. cbn [app repeat]. f_equal. f_equal.
  destruct (nonempty (_stream_response (stream_answer ep (S (length log))) 0))
    eqn:E2.
  - apply finish_chunk_generated.
    + now apply nonempty_true.
    + apply stream_response_tight. now apply nonempty_true.
  - apply nonempty_false in E2. rewrite E2. reflexivity.
Qed.

Lemma process_chunk_outcome (ep : endpoint) (chunk : str)
    (log : list request) :
  chunk <> [] ->
  exists entry k,
    process_chunk ep chunk log
    = (Returned entry, log ++ repeat (processing_prompt chunk, true) k)
    /\ (k = 1 \/ k = 2) /\ entry <> [].
Proof.
  intros Hc.
  set (r1 := _stream_response (stream_answer ep (length log)) 0).
  destruct (nonempty r1) eqn:E1.
  - apply nonempty_true in E1.
    pose proof (stream_response_tight _ _ E1) as T1. fold r1 in T1.
    destruct (too_short (remove_duplicates r1) chunk) eqn:Es.
    + eexists _, 2.
      split; [now apply process_chunk_second_request|].
      split; [now right|].
      destruct (nonempty _) eqn:E2; [|exact Hc].
      apply nonempty_true in E2.
      apply generated_nonempty; [exact E2|now apply stream_response_tight].
    + exists (format_speaker_paragraphs (remove_duplicates r1)), 1.
      split; [now apply process_chunk_long_enough|].
      split; [now left|now apply generated_nonempty].
  - apply nonempty_false in E1. exists chunk, 1.
    split; [now apply process_chunk_falls_back|].
    split; [now left|exact Hc].
Qed.

Lemma process_chunks_app (ep : endpoint) (a b : list str) :
  forall processed log,
    process_chunks ep (a ++ b) processed log
    = match process_chunks ep a processed log with
      | (Returned processed', log') => process_chunks ep b processed' log'
      | (Raised e, log') => (Raised e, log')
      end.
Proof.
  induction a as [|chunk a IH]; intros processed log; [reflexivity|].
  cbn [app process_chunks].
  destruct (process_chunk ep chunk log) as [[r|e] log1]; [apply IH|reflexivity].
Qed.

(** The run over chunks that are not empty: an entry that is not empty for
    each chunk, after one or two requests with the chunk's prompt. *)
Lemma process_chunks_trace (ep : endpoint) (chunks : list str) :
  Forall (fun chunk => chunk <> []) chunks ->
  forall processed log,
  exists entries ks,
    process_chunks ep chunks processed log
    = (Returned (processed ++ entries), log ++ requests_for chunks ks)
    /\ length entries = length chunks
    /\ length ks = length chunks
    /\ Forall (fun k => k = 1 \/ k = 2) ks
    /\ Forall (fun entry => entry <> []) entries.
Proof.
  induction 1 as [|chunk chunks Hc _ IH]; intros processed log;
    cbn [process_chunks].
  - exists [], []. cbn. rewrite !app_nil_r. repeat split; constructor.
  - destruct (process_chunk_outcome ep chunk log Hc)
      as (r & k & -> & Hk & Hr).
    destruct (IH (processed ++ [r])
                (log ++ repeat (processing_prompt chunk, true) k))
      as (rs & ks & -> & Hl & Hlk & Hks & Hrs).
    exists (r :: rs), (k :: ks). cbn [requests_for length].
    rewrite <- !app_assoc. cbn [app].
    repeat split; try (now constructor); lia.
Qed.

Lemma too_short_nonempty (result chunk : str) :
  too_short result chunk = true -> chunk <> [].
Proof.
  intros H ->. unfold too_short in H. apply Nat.ltb_lt in H. simpl in H. lia.
Qed.

(** Claim C8.  When the turn of a chunk comes and the first generation for
    it is not empty but, de-duplicated, shorter than 60% of the chunk,
    [process_transcript] makes exactly two requests for that chunk, both
    with the chunk's prompt and each through [call_ollama] with its own
    [max_retries = 2]: in the log they come after the requests for the
    chunks before it and before the requests for the chunks after it, each
    of which gets one or two.  What the second request gives, de-duplicated
    and formatted, is the chunk's entry in the document whatever its
    length, and an empty regeneration leaves the chunk as it was. *)
Theorem process_transcript_regenerates_once (ep : endpoint)
    (transcript : str) (log : list request) (pre post : list str)
    (chunk : str) (entries_pre : list str) (log_pre : list request) :
  let p := processing_prompt chunk in
  let r1 := _stream_response (stream_answer ep (length log_pre)) 0 in
  let r2 := _stream_response (stream_answer ep (S (length log_pre))) 0 in
  split_text transcript 1000 = pre ++ chunk :: post ->
  process_chunks ep pre [] log = (Returned entries_pre, log_pre) ->
  r1 <> [] ->
  too_short (remove_duplicates r1) chunk = true ->
  exists ks_pre entries_post ks_post,
    process_transcript ep transcript log
    = (Returned
         (join_paragraphs
            (entries_pre
               ++ (if nonempty r2
                   then format_speaker_paragraphs (remove_duplicates r2)
                   else chunk)
               :: entries_post)),
       log_pre ++ [(p, true); (p, true)] ++ requests_for post ks_post)
    /\ log_pre = log ++ requests_for pre ks_pre
    /\ length entries_pre = length pre /\ length ks_pre = length pre
    /\ length entries_post = length post /\ length ks_post = length post
    /\ Forall (fun k => k = 1 \/ k = 2) (ks_pre ++ ks_post).
Proof.
  intros p r1 r2 Hsplit Hpre Hr1 Hshort.
  pose proof (too_short_nonempty _ _ Hshort) as Hc.
  assert (Ht : transcript <> []).
  { intros ->. rewrite split_text_nil in Hsplit.
    destruct pre as [|x pre]; [|destruct pre; discriminate].
    injection Hsplit as <- _. congruence. }
  pose proof (split_text_segments_nonempty transcript 1000 Ht) as Hne.
  rewrite Hsplit in Hne. apply Forall_app in Hne. destruct Hne as [Hnpre Hne].
  inversion Hne as [|? ? _ Hnpost]; subst.
  destruct (process_chunks_trace ep pre Hnpre [] log)
    as (es & ks_pre & E & Hl1 & Hl2 & Hk1 & _).
  rewrite Hpre in E. injection E as -> ->. cbn [app] in *.
  set (entry := if nonempty r2
                then format_speaker_paragraphs (remove_duplicates r2)
                else chunk).
  destruct (process_chunks_trace ep post Hnpost (es ++ [entry])
              ((log ++ requests_for pre ks_pre) ++ repeat (p, true) 2))
    as (entries_post & ks_post & Epost & Hl3 & Hl4 & Hk2 & _).
  exists ks_pre, entries_post, ks_post.
  split; [|repeat split; try assumption; now apply Forall_app].
  unfold process_transcript. rewrite Hsplit, process_chunks_app, Hpre.
  cbn [process_chunks].
  rewrite (process_chunk_second_request ep chunk _ Hc Hr1 Hshort).
  fold r2 p entry. rewrite Epost.
  destruct transcript; [congruence|]. cbn [length].
  rewrite <- !app_assoc. reflexivity.
Qed.

Lemma process_transcript_regenerates_once_witness :
  exists ks_pre entries_post ks_post,
    process_transcript Samples.echo_then_short Samples.two_long_turns []
    = (Returned
         (join_paragraphs
            ([Samples.turn "A" 604] ++ lit "ok" :: entries_post)),
       [(processing_prompt (Samples.turn "A" 604), true)]
         ++ [(processing_prompt (Samples.turn "B" 604), true);
             (processing_prompt (Samples.turn "B" 604), true)]
         ++ requests_for [] ks_post)
    /\ [(processing_prompt (Samples.turn "A" 604), true)]
       = [] ++ requests_for [Samples.turn "A" 604] ks_pre
    /\ length [Samples.turn "A" 604] = length [Samples.turn "A" 604]
    /\ length ks_pre = length [Samples.turn "A" 604]
    /\ length entries_post = length (@nil str)
    /\ length ks_post = length (@nil str)
    /\ Forall (fun k => k = 1 \/ k = 2) (ks_pre ++ ks_post).
Proof.
  apply (process_transcript_regenerates_once Samples.echo_then_short
           Samples.two_long_turns []
           [Samples.turn "A" 604] [] (Samples.turn "B" 604)
           [Samples.turn "A" 604]
           [(processing_prompt (Samples.turn "A" 604), true)]).
  - vm_compute. reflexivity.
  - vm_compute. reflexivity.
  - vm_compute. discriminate.
  - vm_compute. reflexivity.
Defined.

(** ** [SequenceMatcher]: the recursion on regions ends *)

Section MatchedFuel.

Import Difflib.

Variables a b : str.
Variables alo blo bhi lim : nat.

Lemma j2lenget_pred_bound (m : list (nat * nat)) (n j : nat) :
  (forall j', lookup m j' <= n) -> j2lenget_pred m j <= n.
Proof. intros H. destruct j; simpl; [lia|apply H]. Qed.

Lemma scan_positions_region (js : list nat) (i : nat) (j2len : list (nat * nat)) :
  alo <= i -> i + 1 <= lim ->
  (forall j, lookup j2len j <= i - alo) ->
  forall newj2len best,
    in_region alo lim best ->
    (forall j, lookup newj2len j <= S i - alo) ->
    in_region alo lim (snd (scan_positions js i blo bhi j2len newj2len best))
    /\ forall j,
         lookup (fst (scan_positions js i blo bhi j2len newj2len best)) j
         <= S i - alo.
Proof.
  intros Hi Hlim Hj. induction js as [|j js IH]; intros new best Hb Hn;
    cbn [scan_positions].
  - auto.
  - destruct (j <? blo); [now apply IH|].
    destruct (bhi <=? j); [auto|].
    destruct best as [[bi bj] bs].
    pose proof (j2lenget_pred_bound j2len (i - alo) j Hj) as Hk.
    apply IH.
    + destruct (bs <? j2lenget_pred j2len j + 1); [|exact Hb].
      unfold in_region. lia.
    + intros j'. cbn [lookup]. destruct (j =? j'); [lia|apply Hn].
Qed.

Lemma scan_elements_region (a_rest : str) :
  forall i j2len best,
    alo <= i -> i + length a_rest <= lim ->
    (forall j, lookup j2len j <= i - alo) ->
    in_region alo lim best ->
    in_region alo lim (scan_elements b a_rest i blo bhi j2len best).
Proof.
  induction a_rest as [|x r IH]; intros i j2len best Hi Hlim Hj Hb;
    cbn [scan_elements]; [exact Hb|].
  cbn [length] in Hlim.
  destruct (scan_positions_region (b2j b x) i j2len Hi ltac:(lia) Hj [] best Hb)
    as [H1 H2]; [intros j; simpl; lia|].
  destruct (scan_positions (b2j b x) i blo bhi j2len [] best) as [new best'].
  apply IH; try assumption; lia.
Qed.

Lemma extend_left_region (besti : nat) :
  forall bestj bestsize,
    in_region alo lim (besti, bestj, bestsize) ->
    in_region alo lim (extend_left a b alo blo besti bestj bestsize).
Proof.
  induction besti as [|i IH]; intros bj bs H; cbn [extend_left]; [exact H|].
  destruct ((alo <? S i) && (blo <? bj) && same_at a b i (bj - 1)) eqn:E;
    [|exact H].
  apply andb_prop in E. destruct E as [E _].
  apply andb_prop in E. destruct E as [E _]. apply Nat.ltb_lt in E.
  apply IH. unfold in_region in *. lia.
Qed.

Lemma extend_right_region (fuel ahi : nat) :
  ahi <= lim ->
  forall besti bestj bestsize,
    in_region alo lim (besti, bestj, bestsize) ->
    in_region alo lim (extend_right fuel a b ahi bhi besti bestj bestsize).
Proof.
  intros Hlim. induction fuel as [|f IH]; intros bi bj bs H;
    cbn [extend_right]; [exact H|].
  destruct ((bi + bs <? ahi) && (bj + bs <? bhi)
            && same_at a b (bi + bs) (bj + bs)) eqn:E; [|exact H].
  apply andb_prop in E. destruct E as [E _].
  apply andb_prop in E. destruct E as [E _]. apply Nat.ltb_lt in E.
  apply IH. unfold in_region in *. lia.
Qed.

End MatchedFuel.

(** A match that is not empty lies within the region it was looked for
    in. *)
Lemma find_longest_match_region (a b : str) (alo ahi blo bhi i j k : nat) :
  Difflib.find_longest_match a b alo ahi blo bhi = (i, j, k) ->
  k <> 0 -> alo <= i /\ i + k <= ahi.
Proof.
  unfold Difflib.find_longest_match. intros H Hk.
  assert (H0 : in_region alo (Nat.max alo ahi)
                 (Difflib.scan_elements b (firstn (ahi - alo) (skipn alo a))
                    alo blo bhi [] (alo, blo, 0))).
  { apply scan_elements_region.
    - lia.
    - pose proof (firstn_le_length (ahi - alo) (skipn alo a)). lia.
    - intros j'. simpl. lia.
    - unfold in_region. lia. }
  destruct (Difflib.scan_elements _ _ _ _ _ _ _) as [[bi bj] bs].
  apply (extend_left_region a b alo blo) in H0.
  destruct (Difflib.extend_left a b alo blo bi bj bs) as [[bi' bj'] bs'].
  apply (extend_right_region a b alo bhi (Nat.max alo ahi) ahi ahi) in H0;
    [|lia].
  rewrite H in H0. unfold in_region in H0. lia.
Qed.

(** Any fuel above the length of the region gives the same sum: the fuel of
    [Difflib.matches] is never used up. *)
Lemma matched_fuel (a b : str) (f1 : nat) :
  forall f2 alo ahi blo bhi,
    ahi - alo < f1 -> ahi - alo < f2 ->
    Difflib.matched f1 a b alo ahi blo bhi
    = Difflib.matched f2 a b alo ahi blo bhi.
Proof.
  induction f1 as [|f1 IH]; intros f2 alo ahi blo bhi H1 H2; [lia|].
  destruct f2 as [|f2]; [lia|]. cbn [Difflib.matched].
  destruct (Difflib.find_longest_match a b alo ahi blo bhi) as [[i j] k] eqn:E.
  destruct (k =? 0) eqn:Ek; [reflexivity|].
  apply Nat.eqb_neq in Ek.
  destruct (find_longest_match_region a b alo ahi blo bhi i j k E Ek) as [Hi Hk].
  f_equal; [f_equal|].
  - destruct ((alo <? i) && (blo <? j)); [|reflexivity]. apply IH; lia.
  - destruct ((i + k <? ahi) && (j + k <? bhi)); [|reflexivity]. apply IH; lia.
Qed.

Lemma matches_any_fuel (a b : str) (fuel : nat) :
  length a < fuel ->
  Difflib.matches a b = Difflib.matched fuel a b 0 (length a) 0 (length b).
Proof. intros H. unfold Difflib.matches. apply matched_fuel; lia. Qed.

(** ** The de-duplicator: claims C3 and C4 *)

Section OrderedPairs.

Variable A : Type.
Variable R : A -> A -> Prop.

Lemma ForallOrdPairs_app_cons (p r : list A) (t : A) :
  ForallOrdPairs R (p ++ t :: r) -> Forall (fun s => R s t) p.
Proof.
  induction p as [|a p IH]; simpl; intros H; [constructor|].
  inversion H as [|? ? Ha Hp]; subst. constructor.
  - rewrite Forall_forall in Ha. apply Ha. apply in_or_app. right. now left.
  - now apply IH.
Qed.

Lemma ForallOrdPairs_snoc (u : list A) (t : A) :
  ForallOrdPairs R u -> Forall (fun s => R s t) u ->
  ForallOrdPairs R (u ++ [t]).
Proof.
  induction 1 as [|a u Ha Hu IH]; intros Ht; simpl.
  - constructor; constructor.
  - inversion Ht; subst. constructor.
    + apply Forall_app. split; [exact Ha|]. constructor; [assumption|constructor].
    + now apply IH.
Qed.

End OrderedPairs.

Section Stable.

Variable collides : str -> str -> bool.

Lemma list_remove_In (x y : str) (l : list str) :
  In y (list_remove x l) -> In y l.
Proof.
  induction l as [|a l IH]; simpl; [tauto|].
  destruct (str_eqb x a); simpl; tauto.
Qed.

Lemma add_unique_In (u : list str) (s x : str) :
  In x (add_unique collides u s) -> In x u \/ x = s.
Proof.
  unfold add_unique. destruct (first_collision (collides s) u) as [k|].
  - destruct (length k <? length s); [|tauto].
    intros H. apply in_app_or in H. destruct H as [H|[H|[]]]; [|now right].
    left. eapply list_remove_In; eauto.
  - intros H. apply in_app_or in H. destruct H as [H|[H|[]]]; auto.
Qed.

Lemma fold_add_unique_In (l : list str) :
  forall u x, In x (fold_left (add_unique collides) l u) -> In x u \/ In x l.
Proof.
  induction l as [|a l IH]; intros u x H; simpl in *; [now left|].
  apply IH in H. destruct H as [H|H]; [|tauto].
  apply add_unique_In in H. destruct H as [H|H]; auto.
Qed.

(** When no unit is longer than an earlier one it collides with, nothing is
    ever replaced, and the kept units are free of collisions. *)
Lemma fold_add_unique_collision_free (rest : list str) :
  forall pre u,
    never_longer collides (pre ++ rest) ->
    (forall x, In x u -> In x pre) ->
    collision_free collides u ->
    collision_free collides (fold_left (add_unique collides) rest u).
Proof.
  induction rest as [|t rest IH]; intros pre u Hnl Hin Hcf; simpl; [exact Hcf|].
  pose proof (ForallOrdPairs_app_cons _ _ pre rest t Hnl) as Ht.
  rewrite Forall_forall in Ht.
  apply (IH (pre ++ [t])).
  - now rewrite <- app_assoc.
  - intros x Hx. apply add_unique_In in Hx. apply in_or_app.
    destruct Hx as [Hx| ->]; [left; auto|right; now left].
  - unfold add_unique.
    destruct (first_collision (collides t) u) as [k|] eqn:E.
    + apply first_collision_in in E. destruct E as [Hk Hc].
      pose proof (Ht k (Hin k Hk) Hc) as Hlen.
      replace (length k <? length t) with false; [exact Hcf|].
      symmetry. apply Nat.ltb_ge. exact Hlen.
    + apply ForallOrdPairs_snoc; [exact Hcf|].
      now apply first_collision_none.
Qed.

(** On units free of collisions the pass changes nothing. *)
Lemma fold_add_unique_fixed (l : list str) :
  forall u,
    collision_free collides (u ++ l) ->
    fold_left (add_unique collides) l u = u ++ l.
Proof.
  induction l as [|t l IH]; intros u H; simpl; [now rewrite app_nil_r|].
  pose proof (ForallOrdPairs_app_cons _ _ u l t H) as Ht.
  unfold add_unique at 2.
  replace (first_collision (collides t) u) with (@None str)
    by (symmetry; now apply first_collision_none).
  rewrite IH; rewrite <- app_assoc; [reflexivity|exact H].
Qed.

End Stable.

Lemma unique_sentences_collision_free (l : list str) :
  never_longer sentence_collides l ->
  collision_free sentence_collides (unique_sentences l).
Proof.
  intros H. apply (fold_add_unique_collision_free sentence_collides l [] []).
  - exact H.
  - intros x [].
  - constructor.
Qed.

Lemma unique_sentences_fixed (l : list str) :
  collision_free sentence_collides l -> unique_sentences l = l.
Proof. intros H. now apply (fold_add_unique_fixed sentence_collides l []). Qed.

(** Of two equal sentences the first one is kept. *)
Example remove_duplicates_hello_twice :
  remove_duplicates Samples.hello_twice = [20320%N; 22909%N; ideo_stop].
Proof. vm_compute. reflexivity. Qed.

(** Claim C4 fails as stated: of ["01234567。"], ["23456789。"] and
    ["0123456789。"] the last replaces the first, and the two units kept
    match on 8 characters out of 8 and 10: a ratio of 16/18, above the
    threshold, in both directions. *)
Lemma unique_sentences_keeps_similar_pair :
  sentence_list Samples.three_units
  = [Samples.unit_a; Samples.unit_b; Samples.unit_c]
  /\ unique_sentences (sentence_list Samples.three_units)
     = [Samples.unit_b; Samples.unit_c]
  /\ remove_duplicates Samples.three_units = Samples.unit_b ++ Samples.unit_c
  /\ Difflib.matches (clean Samples.unit_c) (clean Samples.unit_b) = 8
  /\ Difflib.ratio_at_least_080 (clean Samples.unit_c) (clean Samples.unit_b)
     = true
  /\ Difflib.ratio_at_least_080 (clean Samples.unit_b) (clean Samples.unit_c)
     = true.
Proof. repeat split; vm_compute; reflexivity. Qed.

(** *** Splitting the output of the sentence pass again *)

Lemma is_terminator_not_space (c : char) :
  is_terminator c = true -> isspace c = false.
Proof.
  unfold is_terminator. intros H.
  repeat (apply orb_prop in H; destruct H as [H|H]);
    apply N.eqb_eq in H; subst c; reflexivity.
Qed.

Lemma lstrip_by_Forall (P : char -> Prop) (p : char -> bool) (s : str) :
  Forall P s -> Forall P (lstrip_by p s).
Proof.
  induction 1 as [|a s Ha Hs IH]; simpl; [constructor|].
  destruct (p a); [exact IH|now constructor].
Qed.

Lemma rstrip_by_Forall (P : char -> Prop) (p : char -> bool) (s : str) :
  Forall P s -> Forall P (rstrip_by p s).
Proof.
  induction 1 as [|a s Ha Hs IH]; simpl; [constructor|].
  destruct (rstrip_by p s) as [|b r].
  - destruct (p a); constructor; [assumption|constructor].
  - now constructor.
Qed.

Lemma strip_Forall (P : char -> Prop) (s : str) : Forall P s -> Forall P (strip s).
Proof. intros H. now apply lstrip_by_Forall, rstrip_by_Forall. Qed.

Lemma lstrip_by_snoc (p : char -> bool) (s : str) (c : char) :
  p c = false -> lstrip_by p (s ++ [c]) = lstrip_by p s ++ [c].
Proof.
  intros Hc. induction s as [|a s IH]; simpl.
  - now rewrite Hc.
  - destruct (p a); [exact IH|reflexivity].
Qed.

Lemma strip_snoc_terminator (pending : str) (c : char) :
  is_terminator c = true ->
  strip (pending ++ [c]) = lstrip_by isspace pending ++ [c].
Proof.
  intros Hc. apply is_terminator_not_space in Hc. unfold strip.
  rewrite rstrip_by_snoc by exact Hc. now apply lstrip_by_snoc.
Qed.

Lemma units_ok_cons (u : str) (l : list str) :
  tight u -> terminated u -> units_ok l -> units_ok (u :: l).
Proof.
  intros Hu Ht (init & last & -> & Hi & Hl).
  exists (u :: init), last. split; [reflexivity|]. split; [|exact Hl].
  constructor; [now split|exact Hi].
Qed.

Lemma extract_sentences_units (text : str) :
  forall pending, plain pending -> units_ok (extract_sentences text pending).
Proof.
  induction text as [|c r IH]; intros pending Hp; cbn [extract_sentences].
  - destruct (nonempty pending).
    + unfold keep_nonempty. destruct (nonempty (strip pending)) eqn:E.
      * exists [], [strip pending]. split; [reflexivity|].
        split; [constructor|]. right. exists (strip pending).
        split; [reflexivity|]. split.
        -- apply strip_tight. now apply nonempty_true.
        -- now apply strip_Forall.
      * exists [], []. repeat split; [constructor|now left].
    + exists [], []. repeat split; [constructor|now left].
  - destruct (is_terminator c) eqn:Ec.
    + rewrite strip_snoc_terminator by exact Ec. unfold keep_nonempty.
      assert (Hn : nonempty (lstrip_by isspace pending ++ [c]) = true)
        by (destruct (lstrip_by isspace pending); reflexivity).
      rewrite Hn. cbn [app]. apply units_ok_cons.
      * rewrite <- strip_snoc_terminator by exact Ec. apply strip_tight.
        rewrite strip_snoc_terminator by exact Ec. now apply nonempty_true.
      * exists (lstrip_by isspace pending), c. split; [reflexivity|].
        split; [exact Ec|]. now apply lstrip_by_Forall.
      * apply IH. constructor.
    + apply IH. apply Forall_app. split; [exact Hp|].
      constructor; [exact Ec|constructor].
Qed.

Lemma unique_sentences_units (l : list str) :
  units_ok l -> units_ok (unique_sentences l).
Proof.
  intros (init & last & -> & Hi & Hl). unfold unique_sentences.
  rewrite fold_left_app.
  set (acc := fold_left (add_unique sentence_collides) init []).
  assert (Hacc : Forall (fun u => tight u /\ terminated u) acc)
    by (apply fold_add_unique_Forall; [constructor|exact Hi]).
  destruct Hl as [->|(x & -> & Hx)].
  - exists acc, []. rewrite app_nil_r. repeat split; [exact Hacc|now left].
  - cbn [fold_left]. unfold add_unique.
    destruct (first_collision (sentence_collides x) acc) as [k|].
    + destruct (length k <? length x).
      * exists (list_remove k acc), [x]. split; [reflexivity|].
        split; [now apply list_remove_Forall|]. right. now exists x.
      * exists acc, []. rewrite app_nil_r. repeat split; [exact Hacc|now left].
    + exists acc, [x]. split; [reflexivity|]. split; [exact Hacc|].
      right. now exists x.
Qed.

Lemma extract_sentences_plain_prefix (body : str) :
  plain body ->
  forall rest pending,
    extract_sentences (body ++ rest) pending
    = extract_sentences rest (pending ++ body).
Proof.
  induction 1 as [|b body Hb Hbody IH]; intros rest pending.
  - now rewrite app_nil_r.
  - cbn [app extract_sentences]. rewrite Hb, IH, <- app_assoc. reflexivity.
Qed.

Lemma extract_sentences_terminated (u rest : str) :
  tight u -> terminated u ->
  extract_sentences (u ++ rest) [] = u :: extract_sentences rest [].
Proof.
  intros Ht (body & t & -> & Hterm & Hbody).
  rewrite <- app_assoc. rewrite extract_sentences_plain_prefix by exact Hbody.
  cbn [app extract_sentences]. rewrite Hterm.
  rewrite (tight_strip _ Ht). unfold keep_nonempty.
  destruct Ht as [Hn _]. apply nonempty_true in Hn. now rewrite Hn.
Qed.

Lemma extract_sentences_plain (x : str) :
  tight x -> plain x -> extract_sentences x [] = [x].
Proof.
  intros Ht Hp. rewrite <- (app_nil_r x) at 1.
  rewrite extract_sentences_plain_prefix by exact Hp.
  cbn [app extract_sentences]. rewrite (tight_strip _ Ht).
  unfold keep_nonempty. destruct Ht as [Hn _]. apply nonempty_true in Hn.
  now rewrite Hn.
Qed.

(** Units of the right shape, concatenated, split into themselves. *)
Lemma sentence_list_concat (l : list str) :
  units_ok l -> sentence_list (concat l) = l.
Proof.
  intros (init & last & -> & Hi & Hl). unfold sentence_list.
  rewrite concat_app. induction Hi as [|u init [Hu1 Hu2] Hi IH].
  - cbn [concat app]. destruct Hl as [->|(x & -> & Hx1 & Hx2)]; [reflexivity|].
    cbn [concat]. rewrite app_nil_r. now apply extract_sentences_plain.
  - cbn [concat app]. rewrite <- app_assoc.
    rewrite extract_sentences_terminated by assumption. now rewrite IH.
Qed.

Lemma sentence_list_units (text : str) : units_ok (sentence_list text).
Proof. apply extract_sentences_units. constructor. Qed.

(** *** No new character *)

Lemma lstrip_by_In (p : char -> bool) (c : char) (s : str) :
  In c (lstrip_by p s) -> In c s.
Proof.
  induction s as [|a s IH]; simpl; [tauto|].
  destruct (p a); simpl; tauto.
Qed.

Lemma rstrip_by_In (p : char -> bool) (c : char) (s : str) :
  In c (rstrip_by p s) -> In c s.
Proof.
  induction s as [|a s IH]; simpl; [tauto|].
  destruct (rstrip_by p s) as [|b r].
  - destruct (p a); simpl; tauto.
  - simpl in *. tauto.
Qed.

Lemma strip_In (c : char) (s : str) : In c (strip s) -> In c s.
Proof. intros H. unfold strip in H. now apply lstrip_by_In, rstrip_by_In in H. Qed.

Lemma keep_nonempty_In (c : char) (s : str) :
  In c (concat (keep_nonempty (strip s))) -> In c s.
Proof.
  unfold keep_nonempty. destruct (nonempty (strip s)); simpl; [|tauto].
  rewrite app_nil_r. apply strip_In.
Qed.

Lemma extract_sentences_In (c : char) (text : str) :
  forall pending,
    In c (concat (extract_sentences text pending)) ->
    In c pending \/ In c text.
Proof.
  induction text as [|a r IH]; intros pending H; cbn [extract_sentences] in H.
  - left. destruct (nonempty pending); [now apply keep_nonempty_In|].
    destruct H.
  - destruct (is_terminator a).
    + rewrite concat_app in H. apply in_app_or in H. destruct H as [H|H].
      * apply keep_nonempty_In, in_app_or in H. simpl in *. tauto.
      * apply IH in H. simpl in *. tauto.
    + apply IH in H. destruct H as [H|H]; [|simpl; tauto].
      apply in_app_or in H. simpl in *. tauto.
Qed.

Lemma contains_single_In (c : char) (s : str) :
  contains [c] s = true -> In c s.
Proof.
  induction s as [|a s IH]; simpl; [discriminate|].
  destruct (c =? a)%N eqn:E.
  - apply N.eqb_eq in E. auto.
  - simpl. auto.
Qed.

Lemma unique_sentences_no_bracket (text : str) :
  ~ In lbracket text ->
  has_speaker_tags (concat (unique_sentences (sentence_list text))) = false.
Proof.
  intros Hno. unfold has_speaker_tags.
  destruct (contains [lbracket] _) eqn:E; [|reflexivity].
  exfalso. apply Hno. apply contains_single_In in E.
  apply in_concat in E. destruct E as (u & Hu & Hc).
  apply (fold_add_unique_In sentence_collides) in Hu.
  destruct Hu as [[]|Hu].
  assert (H : In lbracket (concat (sentence_list text)))
    by (apply in_concat; eauto).
  apply extract_sentences_In in H. destruct H as [[]|H]. exact H.
Qed.

(** Claim C3 fails as stated: on ["01234567。23456789。0123456789。"] the
    second run removes a unit that the first one kept. *)
Lemma remove_duplicates_not_idempotent :
  remove_duplicates Samples.three_units = Samples.unit_b ++ Samples.unit_c
  /\ remove_duplicates (remove_duplicates Samples.three_units) = Samples.unit_c
  /\ remove_duplicates (remove_duplicates Samples.three_units)
     <> remove_duplicates Samples.three_units.
Proof.
  split; [vm_compute; reflexivity|]. split; [vm_compute; reflexivity|].
  vm_compute. discriminate.
Qed.

(** *** Sizes *)

Lemma length_keep_nonempty (s : str) :
  length (concat (keep_nonempty (strip s))) <= length s.
Proof.
  unfold keep_nonempty. destruct (nonempty (strip s)); simpl; [|lia].
  rewrite app_nil_r. apply length_strip.
Qed.

Lemma length_extract_sentences (text : str) :
  forall pending,
    length (concat (extract_sentences text pending))
    <= length pending + length text.
Proof.
  induction text as [|c r IH]; intros pending; cbn [extract_sentences].
  - destruct (nonempty pending); [|simpl; lia].
    pose proof (length_keep_nonempty pending). simpl. lia.
  - destruct (is_terminator c).
    + rewrite concat_app, length_app.
      pose proof (length_keep_nonempty (pending ++ [c])) as H1.
      rewrite length_app in H1. specialize (IH []). simpl in *. lia.
    + specialize (IH (pending ++ [c])). rewrite length_app in IH.
      simpl in *. lia.
Qed.

Section Sizes.

Variable collides : str -> str -> bool.

Lemma list_remove_sizes (k : str) (u : list str) :
  In k u ->
  S (length (list_remove k u)) = length u
  /\ length (concat (list_remove k u)) + length k = length (concat u).
Proof.
  induction u as [|a u IH]; intros H; [destruct H|]. cbn [list_remove].
  unfold str_eqb. destruct (list_eq_dec N.eq_dec k a) as [->|Hne].
  - split; [reflexivity|]. cbn [concat]. rewrite length_app. lia.
  - destruct H as [H|H]; [congruence|]. destruct (IH H) as [H1 H2].
    cbn [length concat]. rewrite !length_app. split; lia.
Qed.

Lemma add_unique_sizes (u : list str) (s : str) :
  length (add_unique collides u s) <= S (length u)
  /\ length (concat (add_unique collides u s))
     <= length (concat u) + length s.
Proof.
  unfold add_unique.
  destruct (first_collision (collides s) u) as [k|] eqn:E.
  - destruct (length k <? length s); [|split; lia].
    apply first_collision_in in E. destruct E as [E _].
    destruct (list_remove_sizes k u E) as [H1 H2].
    rewrite concat_app, !length_app. simpl. rewrite app_nil_r. split; lia.
  - rewrite concat_app, !length_app. simpl. rewrite app_nil_r. split; lia.
Qed.

Lemma fold_add_unique_sizes (l : list str) :
  forall u,
    length (fold_left (add_unique collides) l u) <= length u + length l
    /\ length (concat (fold_left (add_unique collides) l u))
       <= length (concat u) + length (concat l).
Proof.
  induction l as [|a l IH]; intros u; cbn [fold_left].
  - simpl. split; lia.
  - destruct (IH (add_unique collides u a)) as [H1 H2].
    destruct (add_unique_sizes u a) as [H3 H4].
    cbn [length concat]. rewrite length_app. split; lia.
Qed.

End Sizes.

Lemma length_cons_head (c : char) (l : list str) :
  l <> [] -> length (cons_head c l) = length l.
Proof. destruct l; [congruence|reflexivity]. Qed.

Lemma split_paragraphs_nonempty (s : str) : split_paragraphs s <> [].
Proof.
  destruct s as [|c [|c2 r]]; try discriminate.
  rewrite split_paragraphs_cons.
  destruct ((c =? nl) && (c2 =? nl))%N; [discriminate|].
  destruct (split_paragraphs (c2 :: r)); discriminate.
Qed.

(** The text is its paragraphs and one separator between two of them. *)
Lemma length_split_paragraphs (s : str) :
  (length (concat (split_paragraphs s)) + 2 * length (split_paragraphs s)
   = length s + 2)
  /\ forall c,
       length (concat (split_paragraphs (c :: s)))
       + 2 * length (split_paragraphs (c :: s))
       = length (c :: s) + 2.
Proof.
  induction s as [|c2 r [IH1 IH2]].
  - split; [reflexivity|]. intros c. reflexivity.
  - split; [apply IH2|]. intros c. rewrite split_paragraphs_cons.
    destruct ((c =? nl) && (c2 =? nl))%N.
    + cbn [concat app length]. cbn [length] in IH1. lia.
    + rewrite concat_cons_head, length_cons_head
        by apply split_paragraphs_nonempty.
      specialize (IH2 c2). cbn [length] in *. lia.
Qed.

Lemma length_join_paragraphs (l : list str) :
  l <> [] ->
  length (join_paragraphs l) + 2 = length (concat l) + 2 * length l.
Proof.
  induction l as [|a l IH]; [congruence|]. intros _.
  destruct l as [|b l].
  - simpl. rewrite app_nil_r. lia.
  - rewrite join_paragraphs_cons by discriminate.
    specialize (IH ltac:(discriminate)).
    change (concat (a :: b :: l)) with (a ++ concat (b :: l)).
    rewrite !length_app. cbn [length] in *. lia.
Qed.

Lemma stripped_paragraphs_sizes (ps : list str) :
  length (stripped_paragraphs ps) <= length ps
  /\ length (concat (stripped_paragraphs ps)) <= length (concat ps).
Proof.
  unfold stripped_paragraphs. induction ps as [|p ps [IH1 IH2]];
    [simpl; split; lia|].
  cbn [map filter]. pose proof (length_strip p).
  destruct (nonempty (strip p)); cbn [length concat]; rewrite ?length_app;
    split; lia.
Qed.

(** *** What the sentence pass keeps *)

Section Pairs.

Variable A : Type.

Lemma ForallOrdPairs_impl (R R' : A -> A -> Prop) (l : list A) :
  (forall a b, R a b -> R' a b) -> ForallOrdPairs R l -> ForallOrdPairs R' l.
Proof.
  intros H. induction 1 as [|a l Ha Hl IH]; constructor; [|exact IH].
  eapply Forall_impl; [|exact Ha]. apply H.
Qed.

Lemma ForallOrdPairs_split (R : A -> A -> Prop) (l1 l2 l3 : list A) (a b : A) :
  ForallOrdPairs R (l1 ++ a :: l2 ++ b :: l3) -> R a b.
Proof.
  induction l1 as [|x l1 IH]; cbn [app]; intros H.
  - inversion H as [|? ? Ha _]; subst. rewrite Forall_forall in Ha.
    apply Ha. apply in_or_app. right. now left.
  - inversion H; subst. now apply IH.
Qed.

End Pairs.

Section Kept.

Variable collides : str -> str -> bool.

Lemma str_eqb_eq (a b : str) : str_eqb a b = true -> a = b.
Proof. unfold str_eqb. destruct (list_eq_dec N.eq_dec a b); [auto|discriminate]. Qed.

Lemma list_remove_In_or (k x : str) (l : list str) :
  In x l -> x = k \/ In x (list_remove k l).
Proof.
  induction l as [|a l IH]; cbn [list_remove In]; [tauto|].
  destruct (str_eqb k a) eqn:E.
  - apply str_eqb_eq in E. subst a. intros [->|H]; auto.
  - intros [->|H]; [right; now left|].
    destruct (IH H) as [->|H']; [now left|right; now right].
Qed.

Lemma list_remove_pairs (R : str -> str -> Prop) (k : str) (l : list str) :
  ForallOrdPairs R l -> ForallOrdPairs R (list_remove k l).
Proof.
  induction 1 as [|a l Ha Hl IH]; cbn [list_remove]; [constructor|].
  destruct (str_eqb k a); [exact Hl|]. constructor; [|exact IH].
  now apply list_remove_Forall.
Qed.

(** Two kept units collide only when the later one is a replacer. *)
Lemma fold_add_unique_pairs (rest : list str) :
  forall pre u,
    (forall x, In x u -> In x pre) ->
    ForallOrdPairs (fun s t => collides t s = true -> replacer collides pre t) u ->
    ForallOrdPairs
      (fun s t => collides t s = true -> replacer collides (pre ++ rest) t)
      (fold_left (add_unique collides) rest u).
Proof.
  induction rest as [|t rest IH]; intros pre u Hin Hp; cbn [fold_left].
  - now rewrite app_nil_r.
  - replace (pre ++ t :: rest) with ((pre ++ [t]) ++ rest)
      by (rewrite <- app_assoc; reflexivity).
    assert (Hold : ForallOrdPairs
                     (fun s t0 => collides t0 s = true ->
                                  replacer collides (pre ++ [t]) t0) u).
    { eapply ForallOrdPairs_impl; [|exact Hp].
      intros a b Hab Hc. destruct (Hab Hc) as (l1 & k & l2 & l3 & -> & Hr).
      exists l1, k, l2, (l3 ++ [t]). split; [|exact Hr].
      rewrite <- !app_assoc. cbn [app]. rewrite <- app_assoc. reflexivity. }
    apply IH.
    + intros x Hx. apply add_unique_In in Hx. apply in_or_app.
      destruct Hx as [Hx| ->]; [left; auto|right; now left].
    + unfold add_unique.
      destruct (first_collision (collides t) u) as [k|] eqn:E.
      * apply first_collision_in in E. destruct E as [Hk Hc].
        destruct (length k <? length t) eqn:El; [|exact Hold].
        apply Nat.ltb_lt in El.
        apply ForallOrdPairs_snoc; [now apply list_remove_pairs|].
        apply Forall_forall. intros s _ _.
        destruct (in_split k pre (Hin k Hk)) as (l1 & l2 & ->).
        exists l1, k, l2, []. split; [|now split].
        rewrite <- app_assoc. reflexivity.
      * apply ForallOrdPairs_snoc; [exact Hold|].
        apply first_collision_none in E.
        eapply Forall_impl; [|exact E]. cbn. intros s Hs Hc. congruence.
Qed.

(** Every unit read is kept or stands behind a kept unit at least as
    long. *)
Lemma fold_add_unique_represented (rest : list str) :
  forall pre u,
    (forall x, In x pre ->
       exists k0 k,
         (x = k0 \/ dropped_for collides x k0)
         /\ clos_refl_trans str (replaced_by collides) k0 k
         /\ In k u /\ length x <= length k) ->
    forall x, In x (pre ++ rest) ->
      exists k0 k,
        (x = k0 \/ dropped_for collides x k0)
        /\ clos_refl_trans str (replaced_by collides) k0 k
        /\ In k (fold_left (add_unique collides) rest u)
        /\ length x <= length k.
Proof.
  induction rest as [|t rest IH]; intros pre u H x Hx; cbn [fold_left].
  - rewrite app_nil_r in Hx. now apply H.
  - replace (pre ++ t :: rest) with ((pre ++ [t]) ++ rest) in Hx
      by (rewrite <- app_assoc; reflexivity).
    apply (IH (pre ++ [t])); [|exact Hx]. clear x Hx.
    intros x Hx. apply in_app_or in Hx.
    unfold add_unique.
    destruct (first_collision (collides t) u) as [k|] eqn:E.
    + apply first_collision_in in E. destruct E as [Hk Hc].
      destruct (length k <? length t) eqn:El.
      * apply Nat.ltb_lt in El.
        destruct Hx as [Hx|[<-|[]]].
        -- destruct (H x Hx) as (k0 & k' & H0 & Hch & Hin & Hlen).
           destruct (list_remove_In_or k k' u Hin) as [->|Hin'].
           ++ exists k0, t. split; [exact H0|]. split.
              ** eapply rt_trans; [exact Hch|]. apply rt_step. now split.
              ** split; [apply in_or_app; right; now left|lia].
           ++ exists k0, k'. repeat split; try assumption.
              apply in_or_app. now left.
        -- exists t, t. split; [now left|]. split; [apply rt_refl|].
           split; [apply in_or_app; right; now left|lia].
      * apply Nat.ltb_ge in El.
        destruct Hx as [Hx|[<-|[]]]; [now apply H|].
        exists k, k. split; [right; now split|]. split; [apply rt_refl|].
        split; [exact Hk|exact El].
    + destruct Hx as [Hx|[<-|[]]].
      * destruct (H x Hx) as (k0 & k' & H0 & Hch & Hin & Hlen).
        exists k0, k'. repeat split; try assumption. apply in_or_app. now left.
      * exists t, t. split; [now left|]. split; [apply rt_refl|].
        split; [apply in_or_app; right; now left|lia].
Qed.

End Kept.

Lemma unique_sentences_pairs (l : list str) :
  ForallOrdPairs
    (fun s t => sentence_collides t s = true -> replacer sentence_collides l t)
    (unique_sentences l).
Proof.
  apply (fold_add_unique_pairs sentence_collides l [] []).
  - intros x [].
  - constructor.
Qed.

Lemma unique_sentences_represented (l : list str) (u : str) :
  In u l ->
  exists k0 k,
    (u = k0 \/ dropped_for sentence_collides u k0)
    /\ clos_refl_trans str (replaced_by sentence_collides) k0 k
    /\ In k (unique_sentences l) /\ length u <= length k.
Proof.
  apply (fold_add_unique_represented sentence_collides l [] []).
  intros x [].
Qed.

Lemma sentence_pass_output (text : str) :
  has_speaker_tags (concat (unique_sentences (sentence_list text))) = false ->
  remove_duplicates text = concat (unique_sentences (sentence_list text))
  /\ sentence_list (remove_duplicates text)
     = unique_sentences (sentence_list text).
Proof.
  intros H. unfold remove_duplicates. rewrite H. split; [reflexivity|].
  apply sentence_list_concat, unique_sentences_units, sentence_list_units.
Qed.

(** The ratio is not symmetric and the pass tests one order only, the
    arriving unit first: ["abaab。"] arrives after ["aaaba。"] and is kept
    beside it, with a ratio of 0.6 in the order tested and of 0.8 in the
    other. *)
Example unique_sentences_one_way :
  unique_sentences (sentence_list Samples.one_way_units)
  = sentence_list Samples.one_way_units
  /\ length (sentence_list Samples.one_way_units) = 2
  /\ sentence_collides (lit "abaab" ++ [ideo_stop]) (lit "aaaba" ++ [ideo_stop])
     = false
  /\ sentence_collides (lit "aaaba" ++ [ideo_stop]) (lit "abaab" ++ [ideo_stop])
     = true.
Proof. split; [|split; [|split]]; vm_compute; reflexivity. Qed.

(** Claim C4, amended.  Let [units] be the sentence units of the text, in
    order, and [kept] the units that the sentence pass keeps; when their
    concatenation has no speaker tag, so that the paragraph pass does not
    run, it is the output of [remove_duplicates], and the units of the
    output are the kept units.  A kept unit [t] collides with a unit [s]
    kept before it (similarity at least 0.80 between the cleaned forms,
    both not empty, with [t] as the first sequence: the one order that the
    pass tests) only if [t] took the place of a unit: some unit [k] that
    comes before [t] in the text collides with [t] and is strictly shorter.
    So when no unit is strictly longer than an earlier unit it collides
    with, no kept unit collides with a unit kept before it.  And every unit
    of the text stands behind a kept unit at least as long: itself, or the
    unit it was dropped for (one it collides with that is at least as long,
    so that of two units of the same length the first stays), or what that
    unit has become by replacements, each by a strictly longer unit that
    collides with it. *)
Theorem unique_sentences_keeps_longer (text : str) :
  let units := sentence_list text in
  let kept := unique_sentences units in
  (has_speaker_tags (concat kept) = false ->
   remove_duplicates text = concat kept
   /\ sentence_list (remove_duplicates text) = kept)
  /\ ForallOrdPairs
       (fun s t => sentence_collides t s = true ->
                   replacer sentence_collides units t) kept
  /\ (never_longer sentence_collides units ->
      collision_free sentence_collides kept)
  /\ (forall u, In u units ->
        exists k0 k,
          (u = k0 \/ dropped_for sentence_collides u k0)
          /\ clos_refl_trans str (replaced_by sentence_collides) k0 k
          /\ In k kept /\ length u <= length k).
Proof.
  intros units kept. split; [apply sentence_pass_output|].
  split; [apply unique_sentences_pairs|].
  split; [|apply unique_sentences_represented].
  intros Hnl. eapply ForallOrdPairs_impl; [|apply unique_sentences_pairs].
  cbn. intros s t H. destruct (sentence_collides t s) eqn:E; [|reflexivity].
  destruct (H eq_refl) as (l1 & k & l2 & l3 & Hl & Hc & Hlen).
  fold units in Hl. unfold never_longer in Hnl. rewrite Hl in Hnl.
  apply ForallOrdPairs_split in Hnl. specialize (Hnl Hc). lia.
Qed.

Lemma unique_sentences_keeps_longer_witness :
  (remove_duplicates Samples.abc_units
   = concat (unique_sentences (sentence_list Samples.abc_units))
   /\ sentence_list (remove_duplicates Samples.abc_units)
      = unique_sentences (sentence_list Samples.abc_units))
  /\ collision_free sentence_collides
       (unique_sentences (sentence_list Samples.hello_twice))
  /\ ForallOrdPairs
       (fun s t => sentence_collides t s = true ->
                   replacer sentence_collides
                     (sentence_list Samples.three_units) t)
       (unique_sentences (sentence_list Samples.three_units)).
Proof.
  split; [|split].
  - apply (proj1 (unique_sentences_keeps_longer Samples.abc_units)).
    vm_compute. reflexivity.
  - apply (proj1 (proj2 (proj2
             (unique_sentences_keeps_longer Samples.hello_twice)))).
    replace (sentence_list Samples.hello_twice)
      with [[20320%N; 22909%N; ideo_stop]; [20320%N; 22909%N; ideo_stop]]
      by (vm_compute; reflexivity).
    repeat constructor.
  - apply (proj1 (proj2 (unique_sentences_keeps_longer Samples.three_units))).
Defined.

(** *** Texts that are the concatenation of their units *)

Lemma spaced_tail (c : char) (r : str) : spaced (c :: r) -> spaced r.
Proof. destruct r as [|x r]; cbn; tauto. Qed.

Lemma spaced_app_l (a b : str) : spaced (a ++ b) -> spaced a.
Proof.
  induction a as [|c a IH]; [cbn; tauto|].
  destruct a as [|x a]; [cbn; tauto|].
  cbn [app spaced]. intros [H1 H2]. split; [exact H1|]. now apply IH.
Qed.

Lemma spaced_app_r (a b : str) : spaced (a ++ b) -> spaced b.
Proof.
  induction a as [|c a IH]; [cbn; tauto|].
  cbn [app]. intros H. apply IH. now apply spaced_tail in H.
Qed.

Lemma spaced_cons_plain (c : char) (r : str) :
  is_terminator c = false -> spaced r -> spaced (c :: r).
Proof. intros Hc Hr. destruct r as [|x r]; [exact I|]. split; [congruence|exact Hr]. Qed.

Lemma spaced_cons_head (c x : char) (r : str) :
  isspace x = false -> spaced (x :: r) -> spaced (c :: x :: r).
Proof. intros Hx Hr. split; [auto|exact Hr]. Qed.

Lemma spaced_app_plain (a b : str) : plain a -> spaced b -> spaced (a ++ b).
Proof.
  induction 1 as [|c a Hc Ha IH]; intros Hb; [exact Hb|].
  cbn [app]. apply spaced_cons_plain; auto.
Qed.

Lemma open_end_tail (c x : char) (r : str) :
  open_end (c :: x :: r) -> open_end (x :: r).
Proof.
  intros H body t E. apply (H (c :: body) t). cbn [app]. now rewrite E.
Qed.

Lemma spaced_app_open (a b : str) :
  spaced a -> open_end a -> spaced b -> spaced (a ++ b).
Proof.
  induction a as [|c a IH]; intros Ha Ho Hb; [exact Hb|].
  destruct a as [|x a].
  - cbn [app]. apply spaced_cons_plain; [|exact Hb]. now apply (Ho [] c).
  - cbn [app] in *. destruct Ha as [H1 H2]. split; [exact H1|].
    apply IH; [exact H2| |exact Hb]. now apply open_end_tail in Ho.
Qed.

Lemma concat_tight_head (l : list str) :
  Forall tight l ->
  match concat l with
  | [] => True
  | x :: _ => isspace x = false
  end.
Proof.
  intros H. destruct H as [|u l Hu Hl]; [exact I|].
  destruct (tight_head u Hu) as (c & r & -> & Hc). exact Hc.
Qed.

Lemma spaced_terminated (u rest : str) :
  terminated u ->
  spaced rest ->
  match rest with [] => True | x :: _ => isspace x = false end ->
  spaced (u ++ rest).
Proof.
  intros (body & t & -> & Ht & Hbody) Hr Hh. rewrite <- app_assoc.
  apply spaced_app_plain; [exact Hbody|]. cbn [app].
  destruct rest as [|x r]; [exact I|]. now apply spaced_cons_head.
Qed.

Lemma units_spaced (l : list str) : units_ok l -> spaced (concat l).
Proof.
  intros (init & last & -> & Hi & Hl). rewrite concat_app.
  assert (Hlast : spaced (concat last)
                  /\ match concat last with
                     | [] => True
                     | x :: _ => isspace x = false
                     end).
  { destruct Hl as [->|(x & -> & Hx & Hp)]; [cbn; tauto|].
    cbn [concat]. rewrite app_nil_r. split.
    - rewrite <- (app_nil_r x). now apply spaced_app_plain.
    - destruct (tight_head x Hx) as (c & r & -> & Hc). exact Hc. }
  destruct Hlast as [Hs Hh].
  induction Hi as [|u init [Hu1 Hu2] Hi IH]; [exact Hs|].
  cbn [concat app]. rewrite <- app_assoc.
  apply spaced_terminated; [exact Hu2|exact IH|].
  destruct init as [|v init]; [exact Hh|].
  inversion Hi as [|? ? [Hv _] _]; subst.
  destruct (tight_head v Hv) as (c & r & -> & Hc). exact Hc.
Qed.

Lemma lstrip_by_fixed_head (p : char -> bool) (a : char) (s : str) :
  lstrip_by p (a :: s) = a :: s -> p a = false.
Proof.
  cbn [lstrip_by]. destruct (p a); [|reflexivity]. intros H.
  pose proof (length_lstrip_by p s) as Hl. rewrite H in Hl. cbn in Hl. lia.
Qed.

Lemma rstrip_by_fixed_suffix (p : char -> bool) (a b : str) :
  rstrip_by p (a ++ b) = a ++ b -> rstrip_by p b = b.
Proof.
  induction a as [|x a IH]; [auto|]. cbn [app rstrip_by].
  destruct (rstrip_by p (a ++ b)) as [|y r'] eqn:E.
  - destruct (p x); intros H; [discriminate|].
    injection H as H. symmetry in H. apply app_eq_nil in H.
    destruct H as [_ ->]. reflexivity.
  - intros H. injection H as H. apply IH. exact H.
Qed.

Lemma extract_sentences_spaced (text : str) :
  forall pending,
    plain pending ->
    spaced text ->
    lstrip_by isspace (pending ++ text) = pending ++ text ->
    rstrip_by isspace (pending ++ text) = pending ++ text ->
    concat (extract_sentences text pending) = pending ++ text.
Proof.
  induction text as [|c r IH]; intros pending Hp Hs Hl Hr;
    cbn [extract_sentences].
  - rewrite app_nil_r in *. destruct pending as [|a p']; [reflexivity|].
    cbn [nonempty]. unfold strip. rewrite Hr, Hl. cbn. now rewrite app_nil_r.
  - destruct (is_terminator c) eqn:Ec.
    + rewrite strip_snoc_terminator by exact Ec.
      assert (Hlp : lstrip_by isspace pending = pending).
      { destruct pending as [|a p']; [reflexivity|].
        apply lstrip_by_fixed. cbn [app] in Hl.
        now apply lstrip_by_fixed_head in Hl. }
      rewrite Hlp. unfold keep_nonempty.
      replace (nonempty (pending ++ [c])) with true
        by (destruct pending; reflexivity).
      rewrite concat_app. cbn [concat]. rewrite app_nil_r.
      rewrite (IH []); [rewrite <- app_assoc; reflexivity|constructor| | |].
      * now apply spaced_tail in Hs.
      * cbn [app]. destruct r as [|x r']; [reflexivity|].
        apply lstrip_by_fixed. destruct Hs as [Hx _]. auto.
      * cbn [app]. apply (rstrip_by_fixed_suffix isspace (pending ++ [c])).
        rewrite <- app_assoc. exact Hr.
    + rewrite (IH (pending ++ [c])); rewrite <- ?app_assoc; auto.
      * apply Forall_app. split; [exact Hp|]. constructor; [exact Ec|constructor].
      * now apply spaced_tail in Hs.
Qed.

Lemma sentence_list_settled (s : str) :
  tight s -> spaced s -> concat (sentence_list s) = s.
Proof.
  intros (_ & Hl & Hr) Hs. unfold sentence_list.
  now rewrite extract_sentences_spaced by (try constructor; assumption).
Qed.

(** *** The paragraphs of the output *)

Lemma join_cons_head (c : char) (l : list str) :
  l <> [] -> join_paragraphs (cons_head c l) = c :: join_paragraphs l.
Proof. destruct l as [|h [|h2 t]]; [congruence|reflexivity..]. Qed.

Lemma join_split_paragraphs (s : str) :
  join_paragraphs (split_paragraphs s) = s
  /\ forall c, join_paragraphs (split_paragraphs (c :: s)) = c :: s.
Proof.
  induction s as [|c2 r [IH1 IH2]].
  - split; [reflexivity|]. intros c. reflexivity.
  - split; [apply IH2|]. intros c. rewrite split_paragraphs_cons.
    destruct ((c =? nl) && (c2 =? nl))%N eqn:E.
    + apply andb_prop in E. destruct E as [E1 E2].
      apply N.eqb_eq in E1, E2. subst.
      rewrite join_paragraphs_cons by apply split_paragraphs_nonempty.
      now rewrite IH1.
    + rewrite join_cons_head by apply split_paragraphs_nonempty.
      now rewrite IH2.
Qed.

Lemma split_paragraphs_head (c : char) (r : str) :
  match split_paragraphs (c :: r) with
  | (h0 :: _) :: _ => h0 = c
  | _ => True
  end.
Proof.
  destruct r as [|c2 r]; [reflexivity|]. rewrite split_paragraphs_cons.
  destruct ((c =? nl) && (c2 =? nl))%N; [exact I|].
  destruct (split_paragraphs (c2 :: r)); reflexivity.
Qed.

Lemma no_sep_tail (c : char) (r : str) : no_sep (c :: r) = true -> no_sep r = true.
Proof.
  destruct r as [|x r]; [reflexivity|]. cbn [no_sep]. intros H.
  apply andb_prop in H. tauto.
Qed.

Lemma no_sep_app_l (a b : str) : no_sep (a ++ b) = true -> no_sep a = true.
Proof.
  induction a as [|c a IH]; [reflexivity|].
  destruct a as [|x a]; [reflexivity|].
  cbn [app no_sep]. intros H. apply andb_prop in H. destruct H as [H1 H2].
  rewrite H1. cbn [andb]. now apply IH.
Qed.

Lemma no_sep_app_r (a b : str) : no_sep (a ++ b) = true -> no_sep b = true.
Proof.
  induction a as [|c a IH]; [auto|]. cbn [app]. intros H.
  apply IH. now apply no_sep_tail in H.
Qed.

Lemma no_sep_split_paragraphs (s : str) :
  Forall (fun p => no_sep p = true) (split_paragraphs s)
  /\ forall c, Forall (fun p => no_sep p = true) (split_paragraphs (c :: s)).
Proof.
  induction s as [|c2 r [IH1 IH2]].
  - split; [repeat constructor|]. intros c. repeat constructor.
  - split; [apply IH2|]. intros c. rewrite split_paragraphs_cons.
    destruct ((c =? nl) && (c2 =? nl))%N eqn:E.
    + constructor; [reflexivity|exact IH1].
    + pose proof (split_paragraphs_head c2 r) as Hh. specialize (IH2 c2).
      destruct (split_paragraphs (c2 :: r)) as [|h t]; [repeat constructor|].
      cbn [cons_head]. inversion IH2; subst. constructor; [|assumption].
      destruct h as [|h0 h]; [reflexivity|]. subst h0. cbn [no_sep].
      rewrite E. cbn [negb andb]. assumption.
Qed.

Lemma no_sep_single (p : str) : no_sep p = true -> split_paragraphs p = [p].
Proof.
  induction p as [|c p IH]; [reflexivity|]. intros H.
  destruct p as [|c2 r]; [reflexivity|]. rewrite split_paragraphs_cons.
  pose proof (no_sep_tail _ _ H) as Ht. cbn [no_sep] in H.
  apply andb_prop in H. destruct H as [H _]. apply negb_true_iff in H.
  rewrite H, (IH Ht). reflexivity.
Qed.

Lemma split_paragraphs_app_sep (p s : str) :
  no_sep p = true ->
  rstrip_by isspace p = p ->
  split_paragraphs (p ++ nl :: nl :: s) = p :: split_paragraphs s.
Proof.
  induction p as [|c p IH]; intros Hn Hr.
  - cbn [app]. rewrite split_paragraphs_cons. now rewrite N.eqb_refl.
  - pose proof (rstrip_by_fixed_suffix isspace [c] p Hr) as Hr'.
    pose proof (no_sep_tail _ _ Hn) as Hn'.
    destruct p as [|c2 r].
    + cbn [app]. rewrite split_paragraphs_cons.
      assert (Hc : (c =? nl)%N = false).
      { cbn in Hr. destruct (isspace c) eqn:E; [discriminate|].
        apply N.eqb_neq. intros ->. discriminate. }
      rewrite Hc. cbn [andb]. specialize (IH Hn' Hr'). cbn [app] in IH.
      rewrite IH. reflexivity.
    + cbn [app]. rewrite split_paragraphs_cons.
      cbn [no_sep] in Hn. apply andb_prop in Hn. destruct Hn as [Hn _].
      apply negb_true_iff in Hn. rewrite Hn.
      specialize (IH Hn' Hr'). cbn [app] in IH. rewrite IH. reflexivity.
Qed.

Lemma split_join_paragraphs (ps : list str) :
  ps <> [] ->
  Forall (fun p => tight p /\ no_sep p = true) ps ->
  split_paragraphs (join_paragraphs ps) = ps.
Proof.
  intros Hn H. induction H as [|p ps [Hp1 Hp2] Hps IH]; [congruence|].
  destruct ps as [|q ps].
  - cbn [join_paragraphs]. now apply no_sep_single.
  - rewrite join_paragraphs_cons by discriminate.
    rewrite split_paragraphs_app_sep; [|exact Hp2|apply Hp1].
    rewrite IH by discriminate. reflexivity.
Qed.

Lemma stripped_paragraphs_fixed (ps : list str) :
  Forall tight ps -> stripped_paragraphs ps = ps.
Proof.
  unfold stripped_paragraphs. induction 1 as [|p ps Hp Hps IH]; [reflexivity|].
  cbn [map filter]. rewrite (tight_strip p Hp), IH.
  destruct Hp as [Hp _]. apply nonempty_true in Hp. now rewrite Hp.
Qed.

(** What [strip] takes off is whitespace. *)
Lemma rstrip_by_spec (p : char -> bool) (s : str) :
  exists ws, s = rstrip_by p s ++ ws /\ Forall (fun c => p c = true) ws.
Proof.
  induction s as [|a t (ws & Ht & Hws)]; [exists []; split; [reflexivity|constructor]|].
  cbn [rstrip_by]. destruct (rstrip_by p t) as [|y r'] eqn:E.
  - cbn [app] in Ht. subst t. destruct (p a) eqn:Ea.
    + exists (a :: ws). split; [reflexivity|now constructor].
    + exists ws. split; [reflexivity|exact Hws].
  - exists ws. split; [|exact Hws]. cbn [app]. f_equal. exact Ht.
Qed.

Lemma lstrip_by_spec (p : char -> bool) (s : str) :
  exists ws, s = ws ++ lstrip_by p s /\ Forall (fun c => p c = true) ws.
Proof.
  induction s as [|a t (ws & Ht & Hws)]; [exists []; split; [reflexivity|constructor]|].
  cbn [lstrip_by]. destruct (p a) eqn:Ea.
  - exists (a :: ws). split; [cbn [app]; now rewrite <- Ht|now constructor].
  - exists []. split; [reflexivity|constructor].
Qed.

Lemma strip_spec (s : str) :
  exists w1 w2,
    s = w1 ++ strip s ++ w2
    /\ Forall (fun c => isspace c = true) w1
    /\ Forall (fun c => isspace c = true) w2.
Proof.
  destruct (rstrip_by_spec isspace s) as (w2 & H2 & Hw2).
  destruct (lstrip_by_spec isspace (rstrip_by isspace s)) as (w1 & H1 & Hw1).
  exists w1, w2. split; [|now split]. unfold strip.
  rewrite app_assoc, <- H1. exact H2.
Qed.

Lemma strip_spaced (s : str) : spaced s -> spaced (strip s).
Proof.
  destruct (strip_spec s) as (w1 & w2 & H & _). intros Hs. rewrite H in Hs.
  now apply spaced_app_r, spaced_app_l in Hs.
Qed.

Lemma strip_no_sep (s : str) : no_sep s = true -> no_sep (strip s) = true.
Proof.
  destruct (strip_spec s) as (w1 & w2 & H & _). intros Hs. rewrite H in Hs.
  now apply no_sep_app_r, no_sep_app_l in Hs.
Qed.

(** A paragraph that is followed by a separator does not end with a
    terminator. *)
Lemma strip_open_end (s : str) : spaced (s ++ [nl]) -> open_end (strip s).
Proof.
  destruct (strip_spec s) as (w1 & w2 & H & _ & Hw2).
  intros Hs body t E. destruct (is_terminator t) eqn:Et; [|reflexivity].
  exfalso. rewrite H, E in Hs. rewrite <- !app_assoc in Hs.
  apply spaced_app_r, spaced_app_r in Hs. cbn [app] in Hs.
  destruct w2 as [|x w2]; cbn [app] in Hs; destruct Hs as [Hx _];
    specialize (Hx Et); [discriminate|].
  inversion Hw2; subst. congruence.
Qed.

Lemma spaced_join_segments (init : list str) (last : str) :
  spaced (join_paragraphs (init ++ [last])) ->
  Forall (fun s => spaced (s ++ [nl]) /\ spaced s) init /\ spaced last.
Proof.
  induction init as [|seg init IH]; cbn [app]; intros H.
  - split; [constructor|exact H].
  - rewrite join_paragraphs_cons in H by (destruct init; discriminate).
    assert (H1 : spaced (seg ++ [nl])).
    { change (seg ++ nl :: nl :: join_paragraphs (init ++ [last]))
        with (seg ++ [nl] ++ nl :: join_paragraphs (init ++ [last])) in H.
      rewrite app_assoc in H. now apply spaced_app_l in H. }
    apply spaced_app_r, spaced_tail, spaced_tail, IH in H.
    destruct H as [Hi Hl]. split; [|exact Hl].
    constructor; [|exact Hi]. split; [exact H1|now apply spaced_app_l in H1].
Qed.

(** The paragraphs of a concatenation of units, stripped: all of them are
    kept paragraphs, and all but the last have an open end. *)
Lemma stripped_paragraphs_shape (d : str) :
  spaced d ->
  exists init last,
    stripped_paragraphs (split_paragraphs d) = init ++ last
    /\ Forall (fun p => kept_paragraph p /\ open_end p) init
    /\ (last = [] \/ exists x, last = [x] /\ kept_paragraph x).
Proof.
  intros Hd.
  destruct (exists_last (split_paragraphs_nonempty d)) as (segs & seg & E).
  pose proof (proj1 (join_split_paragraphs d)) as Hj. rewrite E in Hj.
  rewrite <- Hj in Hd. apply spaced_join_segments in Hd.
  destruct Hd as [Hsegs Hseg].
  pose proof (proj1 (no_sep_split_paragraphs d)) as Hn. rewrite E in Hn.
  apply Forall_app in Hn. destruct Hn as [Hn1 Hn2].
  rewrite E. unfold stripped_paragraphs. rewrite map_app, filter_app.
  eexists _, _. split; [reflexivity|]. split.
  - apply Forall_forall. intros x Hx. apply filter_In in Hx.
    destruct Hx as [Hx Hne]. apply in_map_iff in Hx.
    destruct Hx as (s & <- & Hs).
    rewrite Forall_forall in Hsegs, Hn1.
    destruct (Hsegs s Hs) as [H1 H2]. split; [split; [|split]|].
    + apply strip_tight. now apply nonempty_true.
    + now apply strip_spaced.
    + apply strip_no_sep. now apply Hn1.
    + now apply strip_open_end.
  - cbn [map filter]. destruct (nonempty (strip seg)) eqn:Hne; [|now left].
    right. exists (strip seg). split; [reflexivity|]. split; [|split].
    + apply strip_tight. now apply nonempty_true.
    + now apply strip_spaced.
    + apply strip_no_sep. now inversion Hn2.
Qed.

Section Shape.

Variable collides : str -> str -> bool.
Variables GI GL : str -> Prop.

(** A list of the form "any number of [GI], then at most one [GL]" keeps
    its form through the pass. *)
Lemma fold_add_unique_shape (init last : list str) :
  Forall GI init ->
  (last = [] \/ exists x, last = [x] /\ GL x) ->
  exists init' last',
    fold_left (add_unique collides) (init ++ last) [] = init' ++ last'
    /\ Forall GI init'
    /\ (last' = [] \/ exists x, last' = [x] /\ GL x).
Proof.
  intros Hi Hl. rewrite fold_left_app.
  set (acc := fold_left (add_unique collides) init []).
  assert (Hacc : Forall GI acc)
    by (apply fold_add_unique_Forall; [constructor|exact Hi]).
  destruct Hl as [->|(x & -> & Hx)].
  - exists acc, []. rewrite app_nil_r. repeat split; [exact Hacc|now left].
  - cbn [fold_left]. unfold add_unique.
    destruct (first_collision (collides x) acc) as [k|].
    + destruct (length k <? length x).
      * exists (list_remove k acc), [x]. split; [reflexivity|].
        split; [now apply list_remove_Forall|]. right. now exists x.
      * exists acc, []. rewrite app_nil_r. repeat split; [exact Hacc|now left].
    + exists acc, [x]. split; [reflexivity|]. split; [exact Hacc|].
      right. now exists x.
Qed.

End Shape.

Lemma join_paragraphs_spaced (init last : list str) :
  Forall (fun p => kept_paragraph p /\ open_end p) init ->
  (last = [] \/ exists x, last = [x] /\ kept_paragraph x) ->
  spaced (join_paragraphs (init ++ last)).
Proof.
  intros Hi Hl. induction Hi as [|q init [(Hq1 & Hq2 & Hq3) Hq4] Hi IH].
  - destruct Hl as [->|(x & -> & _ & Hx & _)]; [exact I|exact Hx].
  - cbn [app]. destruct (init ++ last) as [|r rest] eqn:E; [exact Hq2|].
    rewrite join_paragraphs_cons by discriminate.
    apply spaced_app_open; [exact Hq2|exact Hq4|].
    apply spaced_cons_plain; [reflexivity|].
    apply spaced_cons_plain; [reflexivity|exact IH].
Qed.

(** The output of the paragraph pass on a concatenation of units. *)
Lemma unique_paragraphs_settled (d : str) :
  spaced d ->
  let ps := unique_paragraphs (split_paragraphs d) in
  Forall (fun p => tight p /\ no_sep p = true) ps
  /\ spaced (join_paragraphs ps).
Proof.
  intros Hd ps.
  destruct (stripped_paragraphs_shape d Hd) as (init & last & E & Hi & Hl).
  destruct (fold_add_unique_shape paragraph_collides _ _ init last Hi Hl)
    as (init' & last' & E' & Hi' & Hl').
  unfold ps, unique_paragraphs. rewrite E, E'. split.
  - apply Forall_app. split.
    + eapply Forall_impl; [|exact Hi']. cbn. unfold kept_paragraph. tauto.
    + destruct Hl' as [->|(x & -> & Hx)]; [constructor|].
      constructor; [|constructor]. unfold kept_paragraph in Hx. tauto.
  - now apply join_paragraphs_spaced.
Qed.

(** The output of [remove_duplicates] is the concatenation of its own
    units and, when it has speaker tags, the join of its own paragraphs. *)
Lemma remove_duplicates_settled (text : str) :
  let out := remove_duplicates text in
  concat (sentence_list out) = out
  /\ (has_speaker_tags out = true ->
      join_paragraphs (stripped_paragraphs (split_paragraphs out)) = out).
Proof.
  unfold remove_duplicates.
  set (U := unique_sentences (sentence_list text)).
  assert (HU : units_ok U)
    by apply unique_sentences_units, sentence_list_units.
  destruct (has_speaker_tags (concat U)) eqn:Etags.
  - destruct (unique_paragraphs_settled (concat U) (units_spaced U HU))
      as [Hps Hsp].
    set (ps := unique_paragraphs (split_paragraphs (concat U))) in *.
    assert (Ht : Forall tight ps)
      by (eapply Forall_impl; [|exact Hps]; cbn; tauto).
    destruct ps as [|p ps'] eqn:Eps; [split; reflexivity|].
    rewrite <- Eps in *.
    assert (Hne : ps <> []) by (rewrite Eps; discriminate).
    split.
    + apply sentence_list_settled; [|exact Hsp].
      now apply tight_join_paragraphs.
    + intros _. rewrite split_join_paragraphs by assumption.
      now rewrite stripped_paragraphs_fixed.
  - cbn zeta. split; [now rewrite sentence_list_concat|congruence].
Qed.

(** *** A run that changes nothing *)

Section Full.

Variable collides : str -> str -> bool.

(** A unit that goes in without making the kept text shorter than the sum
    collided with nothing. *)
Lemma add_unique_full (u : list str) (t : str) :
  Forall (fun s => s <> []) u -> t <> [] ->
  length (concat u) + length t <= length (concat (add_unique collides u t)) ->
  first_collision (collides t) u = None.
Proof.
  intros Hu Ht. unfold add_unique.
  destruct (first_collision (collides t) u) as [k|] eqn:E; [|reflexivity].
  apply first_collision_in in E. destruct E as [Hk _].
  assert (Hkn : 0 < length k).
  { rewrite Forall_forall in Hu. specialize (Hu k Hk).
    destruct k; [congruence|cbn; lia]. }
  assert (Htn : 0 < length t) by (destruct t; [congruence|cbn; lia]).
  destruct (length k <? length t).
  - destruct (list_remove_sizes k u Hk) as [_ H].
    rewrite concat_app, length_app. cbn [concat]. rewrite app_nil_r. lia.
  - lia.
Qed.

Lemma fold_add_unique_full (l : list str) :
  forall u,
    Forall (fun s => s <> []) u ->
    Forall (fun s => s <> []) l ->
    length (concat u) + length (concat l)
    <= length (concat (fold_left (add_unique collides) l u)) ->
    collision_free collides l
    /\ Forall (fun t => Forall (fun s => collides t s = false) u) l.
Proof.
  induction l as [|t rest IH]; intros u Hu Hl Hlen; cbn [fold_left] in Hlen.
  - split; constructor.
  - inversion Hl as [|? ? Ht Hrest]; subst.
    destruct (fold_add_unique_sizes collides rest (add_unique collides u t))
      as [_ Hs].
    cbn [concat] in Hlen. rewrite length_app in Hlen.
    assert (E : first_collision (collides t) u = None)
      by (apply add_unique_full; [assumption..|lia]).
    assert (Eadd : add_unique collides u t = u ++ [t])
      by (unfold add_unique; now rewrite E).
    rewrite Eadd in Hlen.
    destruct (IH (u ++ [t])) as [H1 H2].
    + apply Forall_app. split; [exact Hu|now constructor].
    + exact Hrest.
    + rewrite concat_app, length_app. cbn [concat]. rewrite app_nil_r. lia.
    + apply first_collision_none in E. split.
      * constructor; [|exact H1].
        eapply Forall_impl; [|exact H2]. cbn. intros a Ha.
        apply Forall_app in Ha. destruct Ha as [_ Ha]. now inversion Ha.
      * constructor; [exact E|].
        eapply Forall_impl; [|exact H2]. cbn. intros a Ha.
        apply Forall_app in Ha. tauto.
Qed.

End Full.

Lemma tight_nonempty (l : list str) :
  Forall tight l -> Forall (fun s => s <> []) l.
Proof. apply Forall_impl. intros a [H _]. exact H. Qed.

Lemma unique_paragraphs_length (d : str) :
  length (join_paragraphs (unique_paragraphs (split_paragraphs d))) <= length d.
Proof.
  unfold unique_paragraphs.
  destruct (fold_add_unique_sizes paragraph_collides
              (stripped_paragraphs (split_paragraphs d)) []) as [H1 H2].
  destruct (stripped_paragraphs_sizes (split_paragraphs d)) as [H3 H4].
  pose proof (proj1 (length_split_paragraphs d)) as H5.
  set (U := fold_left (add_unique paragraph_collides)
              (stripped_paragraphs (split_paragraphs d)) []) in *.
  destruct U as [|u U']; [simpl; lia|].
  pose proof (length_join_paragraphs (u :: U') ltac:(discriminate)) as H6.
  cbn [length concat] in *. lia.
Qed.

(** A run that changes nothing found no collision. *)
Lemma remove_duplicates_fixed_free (out : str) :
  concat (sentence_list out) = out ->
  (has_speaker_tags out = true ->
   join_paragraphs (stripped_paragraphs (split_paragraphs out)) = out) ->
  remove_duplicates out = out ->
  collision_free sentence_collides (sentence_list out)
  /\ (has_speaker_tags out = true ->
      collision_free paragraph_collides
        (stripped_paragraphs (split_paragraphs out))).
Proof.
  intros Hs Hp Hfix.
  set (V := sentence_list out) in *.
  assert (HV : Forall (fun s => s <> []) V)
    by apply tight_nonempty, extract_sentences_tight.
  assert (Hlen : length out
                 <= length (concat (unique_sentences V))).
  { clear Hp. rewrite <- Hfix at 1. unfold remove_duplicates. fold V.
    pose proof (unique_paragraphs_length (concat (unique_sentences V))).
    destruct (has_speaker_tags (concat (unique_sentences V))); [assumption|lia]. }
  assert (Hfree : collision_free sentence_collides V).
  { apply (fold_add_unique_full sentence_collides V []);
      [constructor|exact HV|]. cbn [concat length]. now rewrite Hs. }
  split; [exact Hfree|]. intros Htags.
  unfold remove_duplicates in Hfix. fold V in Hfix.
  rewrite (unique_sentences_fixed V Hfree), Hs, Htags in Hfix.
  unfold unique_paragraphs in Hfix.
  set (P := stripped_paragraphs (split_paragraphs out)) in *.
  assert (HP : Forall (fun s => s <> []) P)
    by apply tight_nonempty, stripped_paragraphs_tight.
  destruct (fold_add_unique_sizes paragraph_collides P []) as [H1 H2].
  apply (fold_add_unique_full paragraph_collides P []);
    [constructor|exact HP|]. cbn [concat length] in *.
  specialize (Hp Htags).
  assert (Hj : length (join_paragraphs
                         (fold_left (add_unique paragraph_collides) P []))
               = length (join_paragraphs P)) by congruence.
  destruct P as [|p P'] eqn:EP; [cbn; lia|]. rewrite <- EP in *.
  assert (HPn : P <> []) by (rewrite EP; discriminate).
  pose proof (length_join_paragraphs P HPn) as H3.
  assert (HQn : fold_left (add_unique paragraph_collides) P [] <> [])
    by (apply fold_add_unique_nonempty; now right).
  pose proof (length_join_paragraphs _ HQn) as H4.
  clearbody P V. unfold str, char in *. lia.
Qed.

(** In [repeated_turn] the sentence pass replaces ["abcd。"] by ["abcde。"]
    and the paragraph pass drops the second turn of [A]. *)
Example repeated_turn_deduplicated :
  remove_duplicates Samples.repeated_turn
  = lit "[A]" ++ [fw_colon] ++ lit "hello world" ++ [nl; nl]
      ++ lit "[B]" ++ [fw_colon] ++ lit "bye" ++ [ideo_stop]
      ++ lit "abcde" ++ [ideo_stop].
Proof. vm_compute. reflexivity. Qed.

(** Claim C3, amended.  A second run changes nothing exactly when the first
    run has left no collision behind: [remove_duplicates] gives its own
    output back if and only if no sentence unit of that output collides
    with a unit before it and, when the output has speaker tags, so that
    the paragraph pass runs on it, none of its paragraphs collides with a
    paragraph before it (same speaker tag and a similarity of at least
    0.80). *)
Theorem remove_duplicates_idempotent (text : str) :
  let out := remove_duplicates text in
  remove_duplicates out = out
  <-> collision_free sentence_collides (sentence_list out)
      /\ (has_speaker_tags out = true ->
          collision_free paragraph_collides
            (stripped_paragraphs (split_paragraphs out))).
Proof.
  intros out. destruct (remove_duplicates_settled text) as [Hs Hp].
  fold out in Hs, Hp. split.
  - now apply remove_duplicates_fixed_free.
  - intros [H1 H2]. unfold remove_duplicates at 1.
    rewrite (unique_sentences_fixed _ H1), Hs.
    destruct (has_speaker_tags out) eqn:E; [|reflexivity].
    unfold unique_paragraphs.
    rewrite (fold_add_unique_fixed paragraph_collides _ [] (H2 eq_refl)).
    cbn [app]. now apply Hp.
Qed.

Lemma remove_duplicates_idempotent_witness :
  remove_duplicates (remove_duplicates Samples.repeated_turn)
  = remove_duplicates Samples.repeated_turn.
Proof.
  apply (proj2 (remove_duplicates_idempotent Samples.repeated_turn)). split.
  - match goal with
    | |- collision_free _ ?l =>
        let v := eval vm_compute in l in
        replace l with v by (vm_compute; reflexivity)
    end.
    unfold collision_free. pairwise.
  - intros _.
    match goal with
    | |- collision_free _ ?l =>
        let v := eval vm_compute in l in
        replace l with v by (vm_compute; reflexivity)
    end.
    unfold collision_free. pairwise.
Defined.

(** ** More on the chunker *)

Lemma split_lines_no_nl (s : str) : ~ In nl s -> split_lines s = [s].
Proof.
  induction s as [|c r IH]; intros H; [reflexivity|]. simpl.
  destruct (c =? nl)%N eqn:E.
  - apply N.eqb_eq in E. subst. exfalso. apply H. now left.
  - rewrite IH; [reflexivity|]. intros Hr. apply H. now right.
Qed.

Lemma split_lines_app_nl (s t : str) :
  ~ In nl s -> split_lines (s ++ nl :: t) = s :: split_lines t.
Proof.
  induction s as [|c r IH]; intros H.
  - reflexivity.
  - cbn [app split_lines]. destruct (c =? nl)%N eqn:E.
    + apply N.eqb_eq in E. subst. exfalso. apply H. now left.
    + rewrite IH; [reflexivity|]. intros Hr. apply H. now right.
Qed.

Lemma split_lines_lines (s : str) : Forall (fun l => ~ In nl l) (split_lines s).
Proof.
  induction s as [|c r IH]; simpl.
  - constructor; [tauto|constructor].
  - destruct (c =? nl)%N eqn:E.
    + constructor; [tauto|exact IH].
    + apply N.eqb_neq in E. destruct (split_lines r) as [|h t]; simpl.
      * constructor; [|constructor]. intros [H|[]]. congruence.
      * inversion IH; subst. constructor; [|assumption].
        intros [H|H]; [congruence|tauto].
Qed.

Lemma span_label_no_rbracket (s : str) : ~ In rbracket (fst (span_label s)).
Proof.
  induction s as [|c r IH]; simpl; [tauto|].
  destruct (c =? rbracket)%N eqn:E; [simpl; tauto|].
  apply N.eqb_neq in E. destruct (span_label r) as [l rest]. simpl in *.
  intros [H|H]; [congruence|tauto].
Qed.

Lemma span_label_label (label rest : str) :
  ~ In rbracket label ->
  span_label (label ++ rbracket :: rest) = (label, rbracket :: rest).
Proof.
  induction label as [|c l IH]; intros H.
  - cbn [app span_label]. now rewrite N.eqb_refl.
  - cbn [app span_label]. destruct (c =? rbracket)%N eqn:E.
    + apply N.eqb_eq in E. subst. exfalso. apply H. now left.
    + rewrite IH; [reflexivity|]. intros Hl. apply H. now right.
Qed.

Lemma match_speaker_label (line label after : str) :
  match_speaker line = Some (label, after) -> ~ In rbracket label.
Proof.
  unfold match_speaker. destruct line as [|c r]; [discriminate|].
  destruct (c =? lbracket)%N; [|discriminate].
  pose proof (span_label_no_rbracket r) as H.
  destruct (span_label r) as [l rest]. simpl in H.
  destruct l as [|l0 l']; [discriminate|].
  destruct rest as [|c1 [|c2 rest']]; try discriminate.
  destruct (c2 =? fw_colon)%N; [|discriminate].
  intros E. injection E as <- <-. exact H.
Qed.

Lemma match_speaker_block (label c : str) :
  label <> [] -> ~ In rbracket label ->
  match_speaker (speaker_block label c) = Some (label, c).
Proof.
  intros Hn Hr. unfold match_speaker, speaker_block.
  change (lbracket =? lbracket)%N with true. cbn iota.
  rewrite span_label_label by exact Hr.
  destruct label; [congruence|]. now rewrite N.eqb_refl.
Qed.

Lemma in_speaker_block (x : char) (label c : str) :
  In x (speaker_block label c) <->
  x = lbracket \/ In x label \/ x = rbracket \/ x = fw_colon \/ In x c.
Proof.
  unfold speaker_block. simpl. rewrite in_app_iff. simpl.
  intuition congruence.
Qed.

Lemma save_block_form (current : option (str * list str)) (blocks : list str) :
  match current with
  | Some (spk, ls) =>
      spk <> [] /\ ~ In rbracket spk /\ ~ In nl spk
      /\ Forall (fun l => ~ In nl l) ls
  | None => True
  end ->
  Forall block_form blocks -> Forall block_form (save_block current blocks).
Proof.
  intros Hc Hb. destruct current as [[spk ls]|]; simpl; [|exact Hb].
  destruct (nonempty (strip (concat ls))) eqn:E; [|exact Hb].
  destruct Hc as (H1 & H2 & H3 & H4).
  apply Forall_app. split; [exact Hb|]. constructor; [|constructor].
  exists spk, (strip (concat ls)). repeat split; try assumption.
  - apply strip_tight. now apply nonempty_true.
  - apply strip_tight. now apply nonempty_true.
  - apply strip_tight. now apply nonempty_true.
  - intros Hin. apply strip_In, in_concat in Hin.
    destruct Hin as (l & Hl & Hin). rewrite Forall_forall in H4.
    now apply (H4 l).
Qed.

Lemma scan_lines_form (lines : list str) :
  Forall (fun l => ~ In nl l) lines ->
  forall current blocks,
    match current with
    | Some (spk, ls) =>
        spk <> [] /\ ~ In rbracket spk /\ ~ In nl spk
        /\ Forall (fun l => ~ In nl l) ls
    | None => True
    end ->
    Forall block_form blocks ->
    Forall block_form (scan_lines lines current blocks).
Proof.
  induction 1 as [|line rest Hline Hrest IH]; intros current blocks Hc Hb;
    cbn [scan_lines].
  - now apply save_block_form.
  - destruct (match_speaker line) as [[label after]|] eqn:E.
    + apply IH; [|now apply save_block_form].
      pose proof (match_speaker_label _ _ _ E) as Hr.
      apply match_speaker_shape in E. destruct E as [-> Hn].
      repeat split; try assumption.
      * intros H. apply Hline. apply in_speaker_block. tauto.
      * constructor; [|constructor]. intros H. apply Hline.
        apply in_speaker_block. tauto.
    + destruct current as [[spk ls]|]; apply IH; try assumption.
      destruct Hc as (H1 & H2 & H3 & H4). repeat split; try assumption.
      apply Forall_app. split; [exact H4|]. constructor; [exact Hline|constructor].
Qed.

Lemma speaker_blocks_block_form (text : str) :
  Forall block_form (speaker_blocks text).
Proof.
  apply scan_lines_form; [apply split_lines_lines|exact I|constructor].
Qed.

Lemma block_form_tight (b : str) : block_form b -> tight b.
Proof.
  intros (label & c & -> & _ & _ & _ & Hc & _). now apply speaker_block_tight.
Qed.

Lemma block_form_no_nl (b : str) : block_form b -> ~ In nl b.
Proof.
  intros (label & c & -> & _ & _ & Hl & _ & Hc) H.
  apply in_speaker_block in H.
  destruct H as [H|[H|[H|[H|H]]]]; try discriminate; tauto.
Qed.

Lemma block_form_length (b : str) : block_form b -> 5 <= length b.
Proof.
  intros (label & c & -> & Hl & _ & _ & (Hc & _) & _).
  unfold speaker_block. cbn [length]. rewrite length_app. cbn [length].
  destruct label; [congruence|]. destruct c; [congruence|]. simpl. lia.
Qed.

(** X1: every speaker block is one line of the form [[label]：content], with
    a label that is not empty and a content that is not empty and is
    stripped at both ends; so it holds no line break and is at least five
    characters long. *)
Theorem speaker_blocks_form (text : str) :
  Forall (fun b => block_form b /\ ~ In nl b /\ 5 <= length b)
    (speaker_blocks text).
Proof.
  eapply Forall_impl; [|apply speaker_blocks_block_form].
  intros b Hb. split; [exact Hb|]. split.
  - now apply block_form_no_nl.
  - now apply block_form_length.
Qed.

Lemma save_block_open (label c : str) (extra blocks : list str) :
  tight c -> Forall (fun l => l = []) extra ->
  save_block (Some (label, c :: extra)) blocks
  = blocks ++ [speaker_block label c].
Proof.
  intros Hc He. unfold save_block.
  assert (E : concat (c :: extra) = c).
  { cbn [concat]. replace (concat extra) with (@nil char);
      [apply app_nil_r|].
    induction He as [|x l Hx _ IH]; [reflexivity|]. subst x. exact IH. }
  rewrite E, (tight_strip _ Hc). destruct Hc as [Hn _].
  apply nonempty_true in Hn. now rewrite Hn.
Qed.

Lemma scan_lines_joined (bs : list str) :
  Forall block_form bs -> bs <> [] ->
  forall current blocks,
    scan_lines (split_lines (join_paragraphs bs)) current blocks
    = save_block current blocks ++ bs.
Proof.
  induction 1 as [|b bs Hb Hbs IH]; [congruence|]. intros _ current blocks.
  pose proof (block_form_no_nl b Hb) as Hnl.
  destruct Hb as (label & c & -> & Hl & Hr & _ & Hc & _).
  destruct bs as [|b2 rest].
  - cbn [join_paragraphs]. rewrite split_lines_no_nl by exact Hnl.
    cbn [scan_lines]. rewrite match_speaker_block by assumption.
    apply save_block_open; [exact Hc|constructor].
  - rewrite join_paragraphs_cons by discriminate.
    rewrite split_lines_app_nl by exact Hnl.
    change (nl :: join_paragraphs (b2 :: rest))
      with ([] ++ nl :: join_paragraphs (b2 :: rest)).
    rewrite split_lines_app_nl by (simpl; tauto).
    cbn [scan_lines]. rewrite match_speaker_block by assumption.
    change (match_speaker []) with (@None (str * str)). cbn iota.
    rewrite IH by discriminate. cbn [app].
    rewrite save_block_open; [|exact Hc|repeat constructor].
    now rewrite <- app_assoc.
Qed.

Lemma speaker_blocks_joined (bs : list str) :
  Forall block_form bs -> speaker_blocks (join_paragraphs bs) = bs.
Proof.
  intros H. destruct bs as [|b bs]; [reflexivity|].
  unfold speaker_blocks. now rewrite scan_lines_joined.
Qed.

Lemma pack_blocks_nonempty (max_chars : Z) (blocks : list str) :
  Forall tight blocks -> blocks <> [] ->
  pack_blocks max_chars blocks [] [] <> [].
Proof.
  intros Ht Hn.
  destruct (pack_blocks_groups max_chars blocks [] [] Ht (or_introl eq_refl))
    as (gs & H1 & H2 & _).
  change (join_paragraphs []) with (@nil char) in H1.
  rewrite H1. simpl in *. destruct gs; [simpl in H2; congruence|discriminate].
Qed.

Lemma split_text_of_blocks (text : str) (max_chars : Z) :
  speaker_blocks text <> [] ->
  split_text text max_chars = pack_blocks max_chars (speaker_blocks text) [] [].
Proof.
  intros Hb. unfold split_text.
  pose proof (pack_blocks_nonempty max_chars (speaker_blocks text)
                (speaker_blocks_tight text) Hb) as Hp.
  destruct (speaker_blocks text) as [|b bs]; [congruence|].
  destruct (pack_blocks max_chars (b :: bs) [] []); [congruence|reflexivity].
Qed.

Lemma join_split_text (text : str) (max_chars : Z) :
  speaker_blocks text <> [] ->
  join_paragraphs (split_text text max_chars)
  = join_paragraphs (speaker_blocks text).
Proof.
  intros Hb.
  destruct (split_text_blocks_groups text max_chars Hb) as (gs & -> & <- & Hg).
  apply join_paragraphs_flatten.
  eapply Forall_impl; [|exact Hg]. apply within_budget_nonempty.
Qed.

(** X2: the chunked transcript, joined again, has the same speaker blocks
    and is chunked in the same way. *)
Theorem split_text_rejoined (text : str) (max_chars : Z) :
  speaker_blocks text <> [] ->
  speaker_blocks (join_paragraphs (split_text text max_chars))
  = speaker_blocks text
  /\ split_text (join_paragraphs (split_text text max_chars)) max_chars
     = split_text text max_chars.
Proof.
  intros Hb. rewrite join_split_text by exact Hb.
  assert (H : speaker_blocks (join_paragraphs (speaker_blocks text))
              = speaker_blocks text)
    by apply speaker_blocks_joined, speaker_blocks_block_form.
  split; [exact H|].
  rewrite (split_text_of_blocks (join_paragraphs (speaker_blocks text)))
    by (rewrite H; exact Hb).
  rewrite H. now rewrite (split_text_of_blocks text) by exact Hb.
Qed.

Lemma split_text_rejoined_witness :
  speaker_blocks (join_paragraphs (split_text Samples.two_turns 11))
  = speaker_blocks Samples.two_turns
  /\ split_text (join_paragraphs (split_text Samples.two_turns 11)) 11
     = split_text Samples.two_turns 11.
Proof.
  apply (split_text_rejoined Samples.two_turns 11). vm_compute. discriminate.
Defined.

Lemma length_join_paragraphs_head (b : str) (rest : list str) :
  length b <= length (join_paragraphs (b :: rest)).
Proof.
  destruct rest; [simpl; lia|].
  rewrite join_paragraphs_cons by discriminate. rewrite length_app. lia.
Qed.

Lemma pack_blocks_fit (max_chars : Z) (rest : list str) :
  forall chunks g,
    Forall tight (g ++ rest) ->
    g ++ rest <> [] ->
    (Z.of_nat (length (join_paragraphs (g ++ rest))) <= max_chars)%Z ->
    pack_blocks max_chars rest chunks (join_paragraphs g)
    = chunks ++ [join_paragraphs (g ++ rest)].
Proof.
  induction rest as [|b rest IH]; intros chunks g Ht Hn Hlen.
  - rewrite app_nil_r in *. cbn [pack_blocks]. now apply flush_chunk_tight.
  - assert (Htg : Forall tight g) by (apply Forall_app in Ht; tauto).
    cbn [pack_blocks].
    assert (Hfit : (Z.of_nat (length (join_paragraphs g) + length b)
                    <=? max_chars)%Z = true).
    { apply Z.leb_le. pose proof (length_join_paragraphs_head b rest).
      destruct g as [|a g].
      - simpl in *. lia.
      - rewrite join_paragraphs_app in Hlen by discriminate.
        rewrite length_app in Hlen. cbn [length] in Hlen. lia. }
    rewrite Hfit, join_paragraphs_snoc by exact Htg.
    replace (g ++ b :: rest) with ((g ++ [b]) ++ rest) in *
      by (now rewrite <- app_assoc).
    apply IH; assumption.
Qed.

(** X3: a transcript whose blocks fit the budget together, separators
    included, is a single segment: its blocks joined. *)
Theorem split_text_single_segment (text : str) (max_chars : Z) :
  speaker_blocks text <> [] ->
  (Z.of_nat (length (join_paragraphs (speaker_blocks text))) <= max_chars)%Z ->
  split_text text max_chars = [join_paragraphs (speaker_blocks text)].
Proof.
  intros Hb Hlen. rewrite split_text_of_blocks by exact Hb.
  apply (pack_blocks_fit max_chars (speaker_blocks text) [] []);
    [apply speaker_blocks_tight|exact Hb|exact Hlen].
Qed.

Lemma split_text_single_segment_witness :
  split_text Samples.two_turns 14
  = [join_paragraphs (speaker_blocks Samples.two_turns)].
Proof.
  apply (split_text_single_segment Samples.two_turns 14).
  - vm_compute. discriminate.
  - vm_compute. discriminate.
Defined.

Lemma pack_blocks_apart (max_chars : Z) (rest : list str) :
  (max_chars < 5)%Z ->
  Forall block_form rest ->
  forall chunks current,
    current = [] \/ block_form current ->
    pack_blocks max_chars rest chunks current
    = chunks ++ (if nonempty current then [current] else []) ++ rest.
Proof.
  intros Hm. induction 1 as [|b rest Hb _ IH]; intros chunks cur Hc.
  - cbn [pack_blocks]. rewrite app_nil_r. unfold flush_chunk.
    destruct Hc as [->|Hc]; [simpl; now rewrite app_nil_r|].
    apply block_form_tight in Hc. rewrite (tight_strip _ Hc).
    destruct (nonempty cur); [reflexivity|now rewrite app_nil_r].
  - cbn [pack_blocks].
    replace (Z.of_nat (length cur + length b) <=? max_chars)%Z with false
      by (symmetry; apply Z.leb_gt; pose proof (block_form_length b Hb); lia).
    rewrite IH by (now right).
    pose proof (block_form_tight b Hb) as (Hn & _).
    apply nonempty_true in Hn. rewrite Hn. unfold flush_chunk.
    destruct Hc as [->|Hc]; [reflexivity|].
    apply block_form_tight in Hc. rewrite (tight_strip _ Hc).
    destruct (nonempty cur); rewrite <- ?app_assoc; cbn [app];
      rewrite ?app_nil_r; reflexivity.
Qed.

(** X4: under a budget smaller than any block (less than 5, zero and
    negative budgets included) every block is a segment of its own: nothing
    is cut and nothing is left out. *)
Theorem split_text_tiny_budget (text : str) (max_chars : Z) :
  (max_chars < 5)%Z ->
  speaker_blocks text <> [] ->
  split_text text max_chars = speaker_blocks text.
Proof.
  intros Hm Hb. rewrite split_text_of_blocks by exact Hb.
  rewrite (pack_blocks_apart max_chars (speaker_blocks text) Hm
             (speaker_blocks_block_form text) [] []); [reflexivity|now left].
Qed.

Lemma split_text_tiny_budget_witness :
  split_text Samples.two_turns 0 = speaker_blocks Samples.two_turns.
Proof.
  apply (split_text_tiny_budget Samples.two_turns 0).
  - lia.
  - vm_compute. discriminate.
Defined.

(** X5: a segment has no whitespace at its ends and is not empty, unless
    it is the whole text, returned as it is because it has no character
    content; and on a text with speaker blocks there are at most as many
    segments as blocks. *)
Theorem split_text_segments_tight (text : str) (max_chars : Z) :
  (forall seg, In seg (split_text text max_chars) ->
               tight seg \/ (seg = text /\ content text = []))
  /\ (speaker_blocks text <> [] ->
      length (split_text text max_chars) <= length (speaker_blocks text)).
Proof.
  split.
  - intros seg Hin. destruct (speaker_blocks text) as [|b bs] eqn:Eb.
    + destruct (split_text_sentence_groups text max_chars Eb)
        as (gs & Hs & _ & _ & Hcont).
      rewrite Hs in Hin. apply in_chunks_or_text in Hin.
      destruct Hin as [Hin|[Hnil ->]].
      * left. apply in_stripped_groups in Hin.
        destruct Hin as (Hn & g & _ & ->). now apply strip_tight.
      * right. split; [reflexivity|]. rewrite Hnil in Hcont.
        now rewrite <- Hcont.
    + left. assert (Hb : speaker_blocks text <> []) by (rewrite Eb; discriminate).
      destruct (split_text_blocks_groups text max_chars Hb) as (gs & Hs & Hc & Hg).
      rewrite Hs in Hin. apply in_map_iff in Hin. destruct Hin as (g & <- & Hgin).
      apply tight_join_paragraphs.
      * rewrite Forall_forall in Hg. eapply within_budget_nonempty. eauto.
      * pose proof (speaker_blocks_tight text) as T. rewrite <- Hc in T.
        rewrite Forall_forall in *. intros x Hx. apply T.
        apply in_concat. eauto.
  - intros Hb.
    destruct (split_text_blocks_groups text max_chars Hb) as (gs & -> & <- & Hg).
    rewrite length_map. clear Hb. induction Hg as [|g gs Hgb _ IH]; [simpl; lia|].
    cbn [concat]. rewrite length_app. cbn [length].
    apply within_budget_nonempty in Hgb. destruct g; [congruence|simpl; lia].
Qed.

Lemma split_text_segments_tight_witness :
  (tight (lit "[A]" ++ [fw_colon] ++ lit "ab")
   \/ (lit "[A]" ++ [fw_colon] ++ lit "ab" = Samples.two_turns
       /\ content Samples.two_turns = []))
  /\ length (split_text Samples.two_turns 11)
     <= length (speaker_blocks Samples.two_turns).
Proof.
  split.
  - apply (proj1 (split_text_segments_tight Samples.two_turns 11)).
    vm_compute. left. reflexivity.
  - apply (proj2 (split_text_segments_tight Samples.two_turns 11)).
    vm_compute. discriminate.
Defined.

(** ** More on the de-duplicator *)

(** X6: [remove_duplicates] never makes a text longer. *)
Theorem remove_duplicates_length (text : str) :
  length (remove_duplicates text) <= length text.
Proof.
  unfold remove_duplicates.
  set (D := concat (unique_sentences (sentence_list text))).
  assert (HD : length D <= length text).
  { unfold D, unique_sentences.
    destruct (fold_add_unique_sizes sentence_collides (sentence_list text) [])
      as [_ H].
    pose proof (length_extract_sentences text []) as H'.
    unfold sentence_list in *. simpl in *. lia. }
  destruct (has_speaker_tags D); [|exact HD].
  unfold unique_paragraphs.
  destruct (fold_add_unique_sizes paragraph_collides
              (stripped_paragraphs (split_paragraphs D)) []) as [H1 H2].
  destruct (stripped_paragraphs_sizes (split_paragraphs D)) as [H3 H4].
  pose proof (proj1 (length_split_paragraphs D)) as H5.
  set (U := fold_left (add_unique paragraph_collides)
              (stripped_paragraphs (split_paragraphs D)) []) in *.
  destruct U as [|u U']; [simpl; lia|].
  pose proof (length_join_paragraphs (u :: U') ltac:(discriminate)) as H6.
  cbn [length concat] in *. lia.
Qed.

(** X7: a text with no terminator and no ['['] is one unit: it is only
    stripped (and a blank text becomes the empty text). *)
Theorem remove_duplicates_single_unit (text : str) :
  plain text -> ~ In lbracket text -> remove_duplicates text = strip text.
Proof.
  intros Hp Hb.
  assert (Hs : concat (unique_sentences (sentence_list text)) = strip text).
  { unfold sentence_list. rewrite <- (app_nil_r text) at 1.
    rewrite extract_sentences_plain_prefix by exact Hp.
    cbn [app extract_sentences]. unfold keep_nonempty.
    destruct text as [|c r]; [reflexivity|]. cbn [nonempty].
    destruct (nonempty (strip (c :: r))) eqn:E.
    - unfold unique_sentences. cbn [fold_left]. unfold add_unique.
      cbn [first_collision app concat]. apply app_nil_r.
    - apply nonempty_false in E. now rewrite E. }
  unfold remove_duplicates. rewrite Hs.
  replace (has_speaker_tags (strip text)) with false; [reflexivity|].
  symmetry. unfold has_speaker_tags.
  destruct (contains [lbracket] (strip text)) eqn:E; [|reflexivity].
  exfalso. apply Hb. now apply strip_In, contains_single_In.
Qed.

Lemma remove_duplicates_single_unit_witness :
  remove_duplicates (lit "  hello world ") = strip (lit "  hello world ").
Proof.
  apply (remove_duplicates_single_unit (lit "  hello world ")).
  - vm_compute. repeat constructor.
  - vm_compute. intuition discriminate.
Defined.

(** X8: the text the sentence pass builds splits back into exactly the
    units it kept. *)
Theorem sentence_pass_round_trip (text : str) :
  sentence_list (concat (unique_sentences (sentence_list text)))
  = unique_sentences (sentence_list text).
Proof.
  apply sentence_list_concat, unique_sentences_units, sentence_list_units.
Qed.

(** X9: a text with some character content de-duplicates to a text that is
    not empty and has no whitespace at its ends, and a text with none to the
    empty text. *)
Theorem remove_duplicates_content (text : str) :
  (content text <> [] -> tight (remove_duplicates text))
  /\ (content text = [] -> remove_duplicates text = []).
Proof.
  split; [apply remove_duplicates_tight|].
  intros Hc.
  assert (Hl : sentence_list text = []).
  { pose proof (extract_sentences_tight text []) as Ht.
    pose proof (content_extract_sentences text []) as Hcs.
    fold (sentence_list text) in Ht, Hcs. simpl in Hcs. rewrite Hc in Hcs.
    destruct (sentence_list text) as [|u l]; [reflexivity|].
    inversion Ht as [|? ? Hu _]; subst. apply tight_content in Hu.
    cbn [concat] in Hcs. rewrite content_app in Hcs.
    apply app_eq_nil in Hcs. tauto. }
  unfold remove_duplicates. rewrite Hl. reflexivity.
Qed.

Lemma remove_duplicates_content_witness :
  tight (remove_duplicates Samples.three_units)
  /\ remove_duplicates [nl; 32%N; nl] = [].
Proof.
  split.
  - apply (proj1 (remove_duplicates_content Samples.three_units)).
    vm_compute. discriminate.
  - apply (proj2 (remove_duplicates_content [nl; 32%N; nl])). reflexivity.
Defined.

(** X10: every unit the sentence pass keeps is a unit of the text, and there
    are no more of them than the text has. *)
Theorem unique_sentences_sublist (l : list str) :
  (forall u, In u (unique_sentences l) -> In u l)
  /\ length (unique_sentences l) <= length l
  /\ (l <> [] -> unique_sentences l <> []).
Proof.
  split; [|split].
  - intros u H. apply (fold_add_unique_In sentence_collides) in H.
    destruct H as [[]|H]. exact H.
  - destruct (fold_add_unique_sizes sentence_collides l []) as [H _].
    exact H.
  - intros H. apply fold_add_unique_nonempty. now right.
Qed.

Lemma unique_sentences_sublist_witness :
  (In Samples.unit_c
      (unique_sentences [Samples.unit_a; Samples.unit_b; Samples.unit_c]) ->
   In Samples.unit_c [Samples.unit_a; Samples.unit_b; Samples.unit_c])
  /\ (unique_sentences [Samples.unit_a] <> []).
Proof.
  split.
  - apply (proj1 (unique_sentences_sublist
                    [Samples.unit_a; Samples.unit_b; Samples.unit_c])).
  - apply (proj2 (proj2 (unique_sentences_sublist [Samples.unit_a]))).
    discriminate.
Defined.

(** ** The formatter of speaker paragraphs *)

Lemma sub_tags_without_nl (s : str) :
  forall at_start inside,
    filter (fun c => negb (nl =? c)%N) (sub_tags s at_start inside)
    = filter (fun c => negb (nl =? c)%N) s.
Proof.
  induction s as [|c r IH]; intros b k; [reflexivity|]. cbn [sub_tags].
  destruct k as [|k].
  - destruct (match_tag_length (c :: r)) as [n|].
    + rewrite filter_app. destruct b; cbn [filter app negb];
        rewrite ?N.eqb_refl; cbn [negb filter app]; now rewrite IH.
    + cbn [filter]. now rewrite IH.
  - cbn [filter]. now rewrite IH.
Qed.

Lemma sub_tags_no_tag (s : str) :
  ~ In lenticular_l s -> forall at_start, sub_tags s at_start 0 = s.
Proof.
  induction s as [|c r IH]; intros H b; [reflexivity|]. cbn [sub_tags].
  assert (E : match_tag_length (c :: r) = None).
  { unfold match_tag_length. destruct (c =? lenticular_l)%N eqn:Ec;
      [|reflexivity].
    apply N.eqb_eq in Ec. subst. exfalso. apply H. now left. }
  rewrite E, IH; [reflexivity|]. intros Hr. apply H. now right.
Qed.

(** X11: the formatter only adds and removes newlines: without its
    newlines the result is the text without its newlines.  The result never
    starts with a newline, and a text with no ['【'] only loses the newlines
    it starts with. *)
Theorem format_speaker_paragraphs_newlines (text : str) :
  filter (fun c => negb (nl =? c)%N) (format_speaker_paragraphs text)
  = filter (fun c => negb (nl =? c)%N) text
  /\ (forall c r, format_speaker_paragraphs text = c :: r -> c <> nl)
  /\ (~ In lenticular_l text -> format_speaker_paragraphs text = lstrip_nl text).
Proof.
  unfold format_speaker_paragraphs, lstrip_nl. split; [|split].
  - rewrite (filter_lstrip_by (N.eqb nl)). apply sub_tags_without_nl.
  - intros c r H.
    pose proof (lstrip_by_head (N.eqb nl) (sub_tags text true 0)) as Hh.
    rewrite H in Hh. intros ->. now rewrite N.eqb_refl in Hh.
  - intros H. now rewrite sub_tags_no_tag.
Qed.

Lemma format_speaker_paragraphs_newlines_witness :
  (format_speaker_paragraphs (lit "ab") = 97%N :: lit "b" -> 97%N <> nl)
  /\ format_speaker_paragraphs ([nl] ++ lit "ab") = lstrip_nl ([nl] ++ lit "ab").
Proof.
  split.
  - apply (proj1 (proj2 (format_speaker_paragraphs_newlines (lit "ab")))).
  - apply (proj2 (proj2 (format_speaker_paragraphs_newlines ([nl] ++ lit "ab")))).
    vm_compute. intuition discriminate.
Defined.

(** ** The repetition check, the other way round *)

Lemma startswith_inv (n s : str) :
  startswith n s = true -> exists r, s = n ++ r.
Proof.
  revert s. induction n as [|a n IH]; intros s H; [now exists s|].
  destruct s as [|b s]; [discriminate|]. simpl in H.
  apply andb_prop in H. destruct H as [H1 H2]. apply N.eqb_eq in H1. subst b.
  destruct (IH s H2) as [r ->]. now exists r.
Qed.

Lemma contains_inv (n h : str) :
  contains n h = true -> exists l r, h = l ++ n ++ r.
Proof.
  induction h as [|c h IH]; cbn [contains]; intros H.
  - apply orb_prop in H. destruct H as [H|H]; [|discriminate].
    apply startswith_inv in H. destruct H as [r ->]. now exists [], r.
  - apply orb_prop in H. destruct H as [H|H].
    + apply startswith_inv in H. destruct H as [r ->]. now exists [], r.
    + destruct (IH H) as (l & r & ->). now exists (c :: l), r.
Qed.

(** X12: when the check reports a repetition (window of at least one
    character), the last [window_size] characters of the text do occur
    before themselves, within the last 500 characters of the text. *)
Theorem detect_repetition_sound (text : str) (window_size : Z) :
  (0 < window_size)%Z ->
  detect_repetition text window_size = true ->
  exists before l r tail,
    text = before ++ (l ++ tail ++ r) ++ tail
    /\ Z.of_nat (length tail) = window_size
    /\ length (l ++ tail ++ r) + length tail <= 500.
Proof.
  intros Hw. unfold detect_repetition.
  destruct (Z.of_nat (length text) <? window_size * 2)%Z eqn:E;
    [discriminate|].
  apply Z.ltb_ge in E.
  set (w := Z.to_nat window_size).
  assert (Hwn : Z.of_nat w = window_size) by (unfold w; lia).
  assert (Htail : slice_from text (- window_size)
                  = skipn (length text - w) text).
  { unfold slice_from, slice_index.
    replace (- window_size <? 0)%Z with true by (symmetry; apply Z.ltb_lt; lia).
    f_equal. lia. }
  rewrite Htail.
  assert (Hlt : length (skipn (length text - w) text) = w)
    by (rewrite length_skipn; lia).
  destruct (500 <? Z.of_nat (length text))%Z eqn:E5.
  - apply Z.ltb_lt in E5. unfold slice, slice_index.
    replace (-500 <? 0)%Z with true by reflexivity.
    replace (- window_size <? 0)%Z with true by (symmetry; apply Z.ltb_lt; lia).
    replace (Z.to_nat (Z.max 0 (Z.of_nat (length text) + -500)))
      with (length text - 500) by lia.
    replace (Z.to_nat (Z.max 0 (Z.of_nat (length text) + - window_size)))
      with (length text - w) by lia.
    intros H. apply contains_inv in H. destruct H as (l & r & H).
    destruct (le_lt_dec w 500) as [Hle|Hgt].
    + exists (firstn (length text - 500) text), l, r,
        (skipn (length text - w) text).
      rewrite <- H. split; [|split].
      * rewrite <- (firstn_skipn (length text - 500) text) at 1. f_equal.
        rewrite <- (firstn_skipn (length text - w - (length text - 500))
                      (skipn (length text - 500) text)) at 1.
        f_equal. rewrite skipn_skipn. f_equal. lia.
      * lia.
      * rewrite length_firstn, length_skipn. lia.
    + exfalso. replace (length text - w - (length text - 500)) with 0 in H by lia.
      cbn [firstn] in H. symmetry in H. apply app_eq_nil in H.
      destruct H as [_ H]. apply app_eq_nil in H. destruct H as [H _].
      rewrite H in Hlt. simpl in Hlt. lia.
  - apply Z.ltb_ge in E5. unfold slice_to, slice_index.
    replace (- window_size <? 0)%Z with true by (symmetry; apply Z.ltb_lt; lia).
    replace (Z.to_nat (Z.max 0 (Z.of_nat (length text) + - window_size)))
      with (length text - w) by lia.
    intros H. apply contains_inv in H. destruct H as (l & r & H).
    exists [], l, r, (skipn (length text - w) text).
    rewrite <- H. split; [|split].
    + cbn [app]. now rewrite firstn_skipn.
    + lia.
    + rewrite length_firstn. lia.
Qed.

Lemma detect_repetition_sound_witness :
  exists before l r tail,
    Samples.near_repeat = before ++ (l ++ tail ++ r) ++ tail
    /\ Z.of_nat (length tail) = 100%Z
    /\ length (l ++ tail ++ r) + length tail <= 500.
Proof.
  apply (detect_repetition_sound Samples.near_repeat 100).
  - lia.
  - vm_compute. reflexivity.
Defined.

(** X13: with a window of no character at all, the empty text is the only
    one reported as repetitive. *)
Theorem detect_repetition_window_zero (text : str) :
  detect_repetition text 0 = true <-> text = [].
Proof.
  unfold detect_repetition.
  replace (Z.of_nat (length text) <? 0 * 2)%Z with false
    by (symmetry; apply Z.ltb_ge; lia).
  assert (Ht : slice_from text (- 0) = text) by (destruct text; reflexivity).
  assert (Hs : (if (500 <? Z.of_nat (length text))%Z
                then slice text (-500) (- 0) else slice_to text (- 0)) = []).
  { destruct (500 <? Z.of_nat (length text))%Z.
    - unfold slice, slice_index. cbn [Z.opp Z.ltb Z.compare Z.to_nat].
      rewrite Nat.min_0_r. reflexivity.
    - unfold slice_to, slice_index. cbn [Z.opp Z.ltb Z.compare Z.to_nat].
      rewrite Nat.min_0_r. reflexivity. }
  rewrite Ht, Hs. destruct text; simpl; split; congruence.
Qed.

(** ** File names with a time stamp *)

Lemma contains_dot_In (s : str) : contains [dot] s = true <-> In dot s.
Proof.
  split; [apply contains_single_In|].
  induction s as [|c r IH]; intros H; [destruct H|].
  destruct H as [->|H]; [reflexivity|].
  cbn [contains]. rewrite (IH H). apply orb_true_r.
Qed.

Lemma rsplit_dot_spec (s : str) :
  In dot s ->
  s = fst (rsplit_dot s) ++ dot :: snd (rsplit_dot s)
  /\ ~ In dot (snd (rsplit_dot s)).
Proof.
  induction s as [|c r IH]; intros H; [destruct H|]. cbn [rsplit_dot].
  destruct (contains [dot] r) eqn:E.
  - apply contains_dot_In in E. destruct (IH E) as [H1 H2].
    destruct (rsplit_dot r) as [name ext]. cbn [fst snd] in *.
    split; [now rewrite H1 at 1|exact H2].
  - assert (Hr : ~ In dot r).
    { intros Hr. apply contains_dot_In in Hr. congruence. }
    destruct H as [->|H]; [|tauto]. cbn [fst snd]. split; [reflexivity|exact Hr].
Qed.

(** X14: the time stamp goes in front of the last ['.'] of the base name,
    or at its end when it has none: taking ["_" + timestamp] out of the
    result gives the base name back, with the same extension. *)
Theorem generate_timestamped_filename_spec (base_name timestamp : str) :
  (In dot base_name ->
   exists name ext,
     base_name = name ++ dot :: ext
     /\ ~ In dot ext
     /\ _generate_timestamped_filename base_name timestamp
        = name ++ underscore :: timestamp ++ dot :: ext)
  /\ (~ In dot base_name ->
      _generate_timestamped_filename base_name timestamp
      = base_name ++ underscore :: timestamp).
Proof.
  unfold _generate_timestamped_filename. split; intros H.
  - pose proof H as Hc. apply contains_dot_In in Hc. rewrite Hc.
    destruct (rsplit_dot_spec base_name H) as [H1 H2].
    destruct (rsplit_dot base_name) as [name ext]. cbn [fst snd] in *.
    now exists name, ext.
  - destruct (contains [dot] base_name) eqn:E; [|reflexivity].
    apply contains_dot_In in E. tauto.
Qed.

Lemma generate_timestamped_filename_spec_witness :
  (exists name ext,
     lit "a.b.txt" = name ++ dot :: ext
     /\ ~ In dot ext
     /\ _generate_timestamped_filename (lit "a.b.txt") (lit "20251225_143020")
        = name ++ underscore :: lit "20251225_143020" ++ dot :: ext)
  /\ _generate_timestamped_filename (lit "notes") (lit "20251225_143020")
     = lit "notes" ++ underscore :: lit "20251225_143020".
Proof.
  split.
  - apply (proj1 (generate_timestamped_filename_spec
                    (lit "a.b.txt") (lit "20251225_143020"))).
    vm_compute. tauto.
  - apply (proj2 (generate_timestamped_filename_spec
                    (lit "notes") (lit "20251225_143020"))).
    vm_compute. intuition discriminate.
Defined.

(** ** The loop over the lines of a stream *)

(** X15: a stream that has ended for a reason of its own (completion,
    stall, repetition, failure) is not read further, and one that ran out of
    lines goes on from the state it reached. *)
Theorem stream_loop_continues (l more : list line) (st : stream_state) :
  (fst (stream_loop l st) <> Exhausted ->
   stream_loop (l ++ more) st = stream_loop l st)
  /\ (fst (stream_loop l st) = Exhausted ->
      stream_loop (l ++ more) st = stream_loop more (snd (stream_loop l st))).
Proof.
  rewrite stream_loop_app.
  destruct (stream_loop l st) as [[] st']; cbn [fst snd]; split; intros H;
    congruence.
Qed.

Lemma stream_loop_continues_witness :
  stream_loop ([Data (Some (lit "ok")) true 0 0] ++ [Broken]) (initial_state 0)
  = stream_loop [Data (Some (lit "ok")) true 0 0] (initial_state 0)
  /\ stream_loop ([Data (Some (lit "o")) false 0 0]
                   ++ [Data (Some (lit "k")) true 0 0]) (initial_state 0)
     = stream_loop [Data (Some (lit "k")) true 0 0]
         (snd (stream_loop [Data (Some (lit "o")) false 0 0] (initial_state 0))).
Proof.
  split.
  - apply (proj1 (stream_loop_continues [Data (Some (lit "ok")) true 0 0]
                    [Broken] (initial_state 0))).
    vm_compute. discriminate.
  - apply (proj2 (stream_loop_continues [Data (Some (lit "o")) false 0 0]
                    [Data (Some (lit "k")) true 0 0] (initial_state 0))).
    vm_compute. reflexivity.
Defined.

(** X16: empty lines and lines at which [json.loads] raises
    [JSONDecodeError] change nothing: the loop ends in the same way and in
    the same state without them.  Only these lines are meant, not a line at
    which another exception is raised, such as [UnicodeDecodeError] on bytes
    that are not UTF-8. *)
Theorem stream_loop_skips_noise (lines : list line) :
  forall st, stream_loop (filter is_frame lines) st = stream_loop lines st.
Proof.
  induction lines as [|x l IH]; intros st; [reflexivity|].
  destruct x as [| | |response done t_output t_now]; cbn [filter is_frame];
    cbn [stream_loop]; try apply IH; try reflexivity.
  destruct done; [reflexivity|].
  match goal with |- context [if ?c then _ else _] => destruct c end;
    [reflexivity|].
  match goal with |- context [if ?c then _ else _] => destruct c end;
    [|apply IH].
  match goal with |- context [if ?c then _ else _] => destruct c end;
    [reflexivity|apply IH].
Qed.

Lemma deltas_cons (x : line) (l : list line) :
  deltas (x :: l) = delta_of x ++ deltas l.
Proof. reflexivity. Qed.

Lemma stream_loop_text (lines : list line) :
  forall st,
  exists k,
    k <= length lines
    /\ response_text (snd (stream_loop lines st))
       = response_text st ++ deltas (firstn k lines)
    /\ (fst (stream_loop lines st) = Exhausted -> k = length lines).
Proof.
  induction lines as [|x l IH]; intros st.
  - exists 0. simpl. rewrite app_nil_r. auto.
  - assert (Hskip : delta_of x = [] ->
                    (exists k, k <= length l
                       /\ response_text (snd (stream_loop l st))
                          = response_text st ++ deltas (firstn k l)
                       /\ (fst (stream_loop l st) = Exhausted -> k = length l)) ->
                    stream_loop (x :: l) st = stream_loop l st ->
                    exists k, k <= length (x :: l)
                       /\ response_text (snd (stream_loop (x :: l) st))
                          = response_text st ++ deltas (firstn k (x :: l))
                       /\ (fst (stream_loop (x :: l) st) = Exhausted
                           -> k = length (x :: l))).
    { intros Hd (k & Hk & Ht & He) Heq. exists (S k). rewrite Heq.
      cbn [firstn length]. rewrite deltas_cons, Hd. cbn [app].
      repeat split; [lia|exact Ht|]. intros H. f_equal. auto. }
    destruct x as [| | |response done t_output t_now].
    + apply Hskip; [reflexivity|apply IH|reflexivity].
    + apply Hskip; [reflexivity|apply IH|reflexivity].
    + exists 0. cbn. rewrite app_nil_r. repeat split; [lia|discriminate].
    + cbn [stream_loop].
      set (st1 := match response with
                  | Some delta =>
                      {| response_text := response_text st ++ delta;
                         last_output_time := t_output;
                         no_output_count := 0;
                         last_check_length := last_check_length st |}
                  | None => st
                  end).
      assert (H1 : response_text st1
                   = response_text st
                     ++ delta_of (Data response done t_output t_now)).
      { unfold st1. destruct response; cbn; [reflexivity|now rewrite app_nil_r]. }
      assert (Hstop : forall st2,
                 response_text st2 = response_text st1 ->
                 forall reason, reason <> Exhausted ->
                 exists k, k <= length (Data response done t_output t_now :: l)
                   /\ response_text (snd (reason, st2))
                      = response_text st
                        ++ deltas (firstn k (Data response done t_output t_now :: l))
                   /\ (fst (reason, st2) = Exhausted
                       -> k = length (Data response done t_output t_now :: l))).
      { intros st2 E reason Hr. exists 1. cbn [firstn length snd fst].
        rewrite deltas_cons. unfold deltas at 1. cbn [map concat].
        rewrite app_nil_r, E, H1. repeat split; [lia|congruence]. }
      assert (Hgo : forall st2,
                 response_text st2 = response_text st1 ->
                 exists k, k <= length (Data response done t_output t_now :: l)
                   /\ response_text (snd (stream_loop l st2))
                      = response_text st
                        ++ deltas (firstn k (Data response done t_output t_now :: l))
                   /\ (fst (stream_loop l st2) = Exhausted
                       -> k = length (Data response done t_output t_now :: l))).
      { intros st2 E. destruct (IH st2) as (k & Hk & Ht & He).
        exists (S k). cbn [firstn length]. rewrite deltas_cons, Ht, E, H1.
        rewrite <- app_assoc. repeat split; [lia|]. intros H. f_equal. auto. }
      destruct done; [apply Hstop; [reflexivity|discriminate]|].
      match goal with |- context [if ?c then _ else _] => destruct c end;
        [apply Hstop; [reflexivity|discriminate]|].
      match goal with |- context [if ?c then _ else _] => destruct c end;
        [|apply Hgo; reflexivity].
      match goal with |- context [if ?c then _ else _] => destruct c end;
        [apply Hstop; [reflexivity|discriminate]|apply Hgo; reflexivity].
Qed.

(** X17: what a streaming call returns is empty or the deltas of the first
    lines of the stream, concatenated in order and stripped; when the stream
    ends without a completion mark, these are all its deltas. *)
Theorem stream_response_is_prefix (t0 : Z) (lines : list line) (attempt : Z) :
  (_stream_response (SLines t0 lines) attempt = []
   \/ exists k,
        k <= length lines
        /\ _stream_response (SLines t0 lines) attempt
           = strip (deltas (firstn k lines)))
  /\ (fst (stream_loop lines (initial_state t0)) = Exhausted ->
      _stream_response (SLines t0 lines) attempt = strip (deltas lines)).
Proof.
  destruct (stream_loop_text lines (initial_state t0)) as (k & Hk & Ht & He).
  cbn [initial_state response_text app] in Ht.
  unfold _stream_response.
  destruct (stream_loop lines (initial_state t0)) as [reason st] eqn:E.
  cbn [fst snd] in *. split.
  - destruct reason; try (right; exists k; now rewrite Ht); now left.
  - intros ->. rewrite Ht, (He eq_refl). now rewrite firstn_all.
Qed.

Lemma stream_response_is_prefix_witness :
  _stream_response
    (SLines 0 [Data (Some (lit " a")) false 0 0; Blank;
               Data (Some (lit "b ")) false 0 0]) 0
  = strip (deltas [Data (Some (lit " a")) false 0 0; Blank;
                   Data (Some (lit "b ")) false 0 0]).
Proof.
  apply (proj2 (stream_response_is_prefix 0
                  [Data (Some (lit " a")) false 0 0; Blank;
                   Data (Some (lit "b ")) false 0 0] 0)).
  vm_compute. reflexivity.
Defined.

(** X18: when reading the stream breaks, everything received so far is
    thrown away and the call returns the empty text. *)
Theorem stream_response_broken (t0 : Z) (pre rest : list line) (attempt : Z) :
  fst (stream_loop pre (initial_state t0)) = Exhausted ->
  _stream_response (SLines t0 (pre ++ Broken :: rest)) attempt = [].
Proof.
  intros H. unfold _stream_response. rewrite stream_loop_app.
  destruct (stream_loop pre (initial_state t0)) as [reason st].
  cbn [fst] in H. subst reason. reflexivity.
Qed.

Lemma stream_response_broken_witness :
  _stream_response
    (SLines 0 ([Data (Some (lit "hello")) false 0 0] ++ Broken :: [])) 0 = [].
Proof.
  apply (stream_response_broken 0 [Data (Some (lit "hello")) false 0 0] [] 0).
  vm_compute. reflexivity.
Defined.

(** A single line stops the loop as stalled only if it brings no text, more
    than 30 seconds after the last output time, with two idle checks
    counted already. *)
Lemma stream_loop_stall_step (x : line) (st st' : stream_state) :
  (0 <= no_output_count st <= 2)%Z ->
  stream_loop [x] st = (Stalled, st') ->
  exists t_output t_now,
    x = Data None false t_output t_now
    /\ (check_interval < t_now - last_output_time st)%Z
    /\ no_output_count st = 2%Z
    /\ response_text st' = response_text st
    /\ no_output_count st' = 3%Z.
Proof.
  intros Hc H.
  destruct x as [| | |response done t_output t_now]; cbn [stream_loop] in H;
    try discriminate.
  destruct done; [discriminate|].
  destruct response as [delta|];
    cbn [response_text last_check_length no_output_count last_output_time] in H.
  - destruct (check_interval <? t_now - t_output)%Z;
      [change (max_no_output_intervals <=? 0 + 1)%Z with false in H|];
      cbn [andb] in H;
      repeat match type of H with
             | (if ?c then _ else _) = _ => destruct c
             end; discriminate.
  - destruct (check_interval <? t_now - last_output_time st)%Z eqn:Eidle;
      cbn [andb] in H.
    + destruct (max_no_output_intervals <=? no_output_count st + 1)%Z eqn:E.
      * injection H as <-. cbn [response_text no_output_count].
        apply Z.leb_le in E. apply Z.ltb_lt in Eidle.
        unfold max_no_output_intervals in E.
        exists t_output, t_now. repeat split; [exact Eidle|lia|lia].
      * repeat match type of H with
               | (if ?c then _ else _) = _ => destruct c
               end; discriminate.
    + repeat match type of H with
             | (if ?c then _ else _) = _ => destruct c
             end; discriminate.
Qed.

Lemma idle_count_step (x : line) (st st' : stream_state) :
  (0 <= no_output_count st <= 2)%Z ->
  stream_loop [x] st = (Exhausted, st') ->
  (0 <= no_output_count st' <= 2)%Z.
Proof.
  intros Hc H.
  destruct x as [| | |response done t_output t_now]; cbn [stream_loop] in H;
    try (injection H as <-; exact Hc); try discriminate.
  destruct done; [discriminate|].
  destruct response as [delta|];
    cbn [response_text last_check_length no_output_count last_output_time] in H.
  - destruct (check_interval <? t_now - t_output)%Z;
      [change (max_no_output_intervals <=? 0 + 1)%Z with false in H|];
      cbn [andb] in H;
      repeat match type of H with
             | (if ?c then _ else _) = _ => destruct c
             end; try discriminate; injection H as <-; cbn; lia.
  - destruct (check_interval <? t_now - last_output_time st)%Z;
      cbn [andb] in H.
    + destruct (max_no_output_intervals <=? no_output_count st + 1)%Z eqn:E;
        [discriminate|].
      apply Z.leb_gt in E. unfold max_no_output_intervals in E.
      repeat match type of H with
             | (if ?c then _ else _) = _ => destruct c
             end; try discriminate; injection H as <-; cbn; lia.
    + repeat match type of H with
             | (if ?c then _ else _) = _ => destruct c
             end; try discriminate; injection H as <-; cbn; lia.
Qed.

(** X19: a stream is given up as stalled only at a line that brings no
    text, read more than 30 seconds after the last output time, when two
    idle checks were counted already: the lines before it were read
    through, the output is what it was before the line, and the count
    is 3. *)
Theorem stream_loop_stall (t0 : Z) (lines : list line) (st' : stream_state) :
  stream_loop lines (initial_state t0) = (Stalled, st') ->
  exists pre t_output t_now rest st,
    lines = pre ++ Data None false t_output t_now :: rest
    /\ stream_loop pre (initial_state t0) = (Exhausted, st)
    /\ (check_interval < t_now - last_output_time st)%Z
    /\ no_output_count st = 2%Z
    /\ response_text st' = response_text st
    /\ no_output_count st' = 3%Z.
Proof.
  intros H.
  destruct (stream_loop_stop_point _ _ _ _ H)
    as (pre & x & rest & st & -> & Hpre & Hx); [discriminate|].
  assert (Hc : (0 <= no_output_count st <= 2)%Z).
  { apply (stream_loop_invariant
             (fun s => (0 <= no_output_count s <= 2)%Z) idle_count_step
             pre (initial_state t0)); [cbn; lia|exact Hpre]. }
  destruct (stream_loop_stall_step _ _ _ Hc Hx)
    as (a & b & -> & H1 & H2 & H3 & H4).
  now exists pre, a, b, rest, st.
Qed.

Lemma stream_loop_stall_witness :
  exists pre t_output t_now rest st,
    [Data (Some (lit "hi")) false 0 0; Data None false 0 31;
     Data None false 0 62; Data None false 0 93; Broken]
    = pre ++ Data None false t_output t_now :: rest
    /\ stream_loop pre (initial_state 0) = (Exhausted, st)
    /\ (check_interval < t_now - last_output_time st)%Z
    /\ no_output_count st = 2%Z
    /\ response_text
         (snd (stream_loop
                 [Data (Some (lit "hi")) false 0 0; Data None false 0 31;
                  Data None false 0 62; Data None false 0 93; Broken]
                 (initial_state 0)))
       = response_text st
    /\ no_output_count
         (snd (stream_loop
                 [Data (Some (lit "hi")) false 0 0; Data None false 0 31;
                  Data None false 0 62; Data None false 0 93; Broken]
                 (initial_state 0)))
       = 3%Z.
Proof.
  apply (stream_loop_stall 0
           [Data (Some (lit "hi")) false 0 0; Data None false 0 31;
            Data None false 0 62; Data None false 0 93; Broken]).
  vm_compute. reflexivity.
Defined.

(** ** The requests [call_ollama] makes *)

Lemma repeat_snoc {A : Type} (x : A) (n : nat) :
  repeat x n ++ [x] = repeat x (S n).
Proof. induction n; simpl; [reflexivity|now rewrite IHn]. Qed.

Lemma attempts_requests (ep : endpoint) (p : prompt) (max_retries : Z)
    (use_stream : bool) (remaining : nat) :
  forall attempt log,
  exists k,
    k <= remaining
    /\ snd (attempts ep p max_retries use_stream remaining attempt log)
       = log ++ repeat (p, use_stream) k.
Proof.
  induction remaining as [|rem IH]; intros attempt log; cbn [attempts].
  - exists 0. simpl. now rewrite app_nil_r.
  - assert (Hone : exists k, k <= S rem
                     /\ log ++ [(p, use_stream)]
                        = log ++ repeat (p, use_stream) k)
      by (exists 1; split; [lia|reflexivity]).
    assert (Hmore : exists k, k <= S rem
                      /\ snd (attempts ep p max_retries use_stream rem
                                (attempt + 1) (log ++ [(p, use_stream)]))
                         = log ++ repeat (p, use_stream) k).
    { destruct (IH (attempt + 1)%Z (log ++ [(p, use_stream)])) as (k & Hk & ->).
      exists (S k). split; [lia|]. now rewrite <- app_assoc. }
    destruct use_stream; [exact Hone|].
    destruct (plain_answer ep (length log)).
    + destruct (attempt <? max_retries)%Z; [exact Hmore|exact Hone].
    + destruct (attempt <? max_retries)%Z; [exact Hmore|exact Hone].
    + exact Hone.
    + destruct (nonempty (strip response)); [exact Hone|].
      destruct (attempt <? max_retries)%Z; [exact Hmore|exact Hone].
Qed.

(** X20: [call_ollama] sends the same request at most [max_retries + 1]
    times and nothing else; with a negative [max_retries] it sends nothing
    and returns the empty text. *)
Theorem call_ollama_requests (ep : endpoint) (p : prompt) (max_retries : Z)
    (use_stream : bool) (log : list request) :
  (exists k,
     Z.of_nat k <= Z.max 0 (max_retries + 1)
     /\ snd (call_ollama ep p max_retries use_stream log)
        = log ++ repeat (p, use_stream) k)%Z
  /\ ((max_retries < 0)%Z ->
      call_ollama ep p max_retries use_stream log = (Returned [], log)).
Proof.
  unfold call_ollama. split.
  - destruct (attempts_requests ep p max_retries use_stream
                (Z.to_nat (max_retries + 1)) 0 log) as (k & Hk & H).
    exists k. split; [lia|exact H].
  - intros H. replace (Z.to_nat (max_retries + 1)) with 0 by lia. reflexivity.
Qed.

Lemma call_ollama_requests_witness :
  call_ollama Samples.third_time_lucky (processing_prompt Samples.chunk10)
              (-1) false []
  = (Returned [], []).
Proof.
  apply (proj2 (call_ollama_requests Samples.third_time_lucky
                  (processing_prompt Samples.chunk10) (-1) false [])).
  lia.
Defined.

(** Answers that are retried are passed over, as long as attempts are
    left. *)
Lemma attempts_skip (ep : endpoint) (p : prompt) (max_retries : Z) (k : nat) :
  forall remaining attempt log,
    (forall i, i < k -> retriable (plain_answer ep (length log + i))) ->
    (attempt + Z.of_nat k <= max_retries)%Z ->
    attempts ep p max_retries false (k + remaining) attempt log
    = attempts ep p max_retries false remaining (attempt + Z.of_nat k)
        (log ++ repeat (p, false) k).
Proof.
  induction k as [|k IH]; intros remaining attempt log Hr Ha.
  - cbn. now rewrite Z.add_0_r, app_nil_r.
  - cbn [Nat.add attempts].
    assert (Hlt : (attempt <? max_retries)%Z = true)
      by (apply Z.ltb_lt; lia).
    pose proof (Hr 0 ltac:(lia)) as H0. rewrite Nat.add_0_r in H0.
    assert (Hnext : attempts ep p max_retries false (k + remaining)
                      (attempt + 1) (log ++ [(p, false)])
                    = attempts ep p max_retries false remaining
                        (attempt + Z.of_nat (S k))
                        (log ++ repeat (p, false) (S k))).
    { rewrite IH.
      - f_equal; [lia|]. now rewrite <- app_assoc.
      - intros i Hi. rewrite length_app. cbn [length].
        replace (length log + 1 + i) with (length log + S i) by lia.
        apply Hr. lia.
      - lia. }
    destruct (plain_answer ep (length log)) as [| | |body]; cbn in H0;
      try (rewrite Hlt; exact Hnext); [destruct H0|].
    rewrite H0. cbn [nonempty]. rewrite Hlt. exact Hnext.
Qed.

(** X21: without streaming, the answers that time out, fail or are blank
    are retried in turn, and the first answer with text is returned,
    stripped, if it comes within [max_retries + 1] requests. *)
Theorem call_ollama_first_answer (ep : endpoint) (p : prompt)
    (max_retries : Z) (log : list request) (k : nat) (body : str) :
  (Z.of_nat k <= max_retries)%Z ->
  (forall i, i < k -> retriable (plain_answer ep (length log + i))) ->
  plain_answer ep (length log + k) = PBody body ->
  strip body <> [] ->
  call_ollama ep p max_retries false log
  = (Returned (strip body), log ++ repeat (p, false) (S k)).
Proof.
  intros Hk Hr Hb Hs. unfold call_ollama.
  replace (Z.to_nat (max_retries + 1))
    with (k + S (Z.to_nat (max_retries - Z.of_nat k))) by lia.
  rewrite attempts_skip by (assumption || lia).
  cbn [attempts]. rewrite length_app, repeat_length, Hb.
  apply nonempty_true in Hs. rewrite Hs. now rewrite <- app_assoc, repeat_snoc.
Qed.

Lemma call_ollama_first_answer_witness :
  call_ollama Samples.third_time_lucky (processing_prompt Samples.chunk10)
              2 false []
  = (Returned (strip (lit "ok")),
     [] ++ repeat (processing_prompt Samples.chunk10, false) 3).
Proof.
  apply (call_ollama_first_answer Samples.third_time_lucky
           (processing_prompt Samples.chunk10) 2 [] 2 (lit "ok")).
  - lia.
  - intros i Hi. destruct i as [|[|i]]; [reflexivity|reflexivity|lia].
  - reflexivity.
  - vm_compute. discriminate.
Defined.

(** X22: without streaming, when every one of the [max_retries + 1] answers
    times out, fails or is blank, that many requests are made and the empty
    text is returned. *)
Theorem call_ollama_gives_up (ep : endpoint) (p : prompt)
    (max_retries : Z) (log : list request) :
  (0 <= max_retries)%Z ->
  (forall i, (Z.of_nat i <= max_retries)%Z ->
             retriable (plain_answer ep (length log + i))) ->
  call_ollama ep p max_retries false log
  = (Returned [], log ++ repeat (p, false) (Z.to_nat max_retries + 1)).
Proof.
  intros Hm Hr. unfold call_ollama.
  replace (Z.to_nat (max_retries + 1)) with (Z.to_nat max_retries + 1) by lia.
  rewrite attempts_skip by (try lia; intros i Hi; apply Hr; lia).
  cbn [attempts]. rewrite length_app, repeat_length.
  replace (0 + Z.of_nat (Z.to_nat max_retries) <? max_retries)%Z with false
    by (symmetry; apply Z.ltb_ge; lia).
  pose proof (Hr (Z.to_nat max_retries) ltac:(lia)) as H.
  replace (repeat (p, false) (Z.to_nat max_retries + 1))
    with (repeat (p, false) (Z.to_nat max_retries) ++ [(p, false)])
    by (rewrite repeat_snoc; f_equal; lia).
  rewrite app_assoc.
  destruct (plain_answer ep (length log + Z.to_nat max_retries))
    as [| | |body]; cbn in H; try reflexivity; [destruct H|].
  now rewrite H.
Qed.

Lemma call_ollama_gives_up_witness :
  call_ollama Samples.unreachable (processing_prompt Samples.chunk10) 2 false []
  = (Returned [],
     [] ++ repeat (processing_prompt Samples.chunk10, false) (Z.to_nat 2 + 1)).
Proof.
  apply (call_ollama_gives_up Samples.unreachable
           (processing_prompt Samples.chunk10) 2 []).
  - lia.
  - intros i _. exact I.
Defined.

(** ** The entries of the document *)

(** X23: for a chunk that is not empty, one or two requests are made, both
    with the chunk's prompt, and the entry of the document is either the
    chunk itself or the text of the last answer, de-duplicated and
    formatted; it is never empty. *)
Theorem process_chunk_entry (ep : endpoint) (chunk : str) (log : list request) :
  chunk <> [] ->
  exists entry k,
    process_chunk ep chunk log
    = (Returned entry, log ++ repeat (processing_prompt chunk, true) k)
    /\ (k = 1 \/ k = 2)
    /\ entry <> []
    /\ (entry = chunk
        \/ exists answer,
             answer = _stream_response (stream_answer ep (length log + k - 1)) 0
             /\ answer <> []
             /\ entry = format_speaker_paragraphs (remove_duplicates answer)).
Proof.
  intros Hc.
  set (r1 := _stream_response (stream_answer ep (length log)) 0).
  destruct (nonempty r1) eqn:E1.
  - apply nonempty_true in E1.
    pose proof (stream_response_tight _ _ E1) as T1. fold r1 in T1.
    destruct (too_short (remove_duplicates r1) chunk) eqn:Es.
    + set (r2 := _stream_response (stream_answer ep (S (length log))) 0).
      exists (if nonempty r2
              then format_speaker_paragraphs (remove_duplicates r2)
              else chunk), 2.
      split; [now apply process_chunk_second_request|].
      split; [now right|].
      replace (length log + 2 - 1) with (S (length log)) by lia. fold r2.
      destruct (nonempty r2) eqn:E2.
      * apply nonempty_true in E2.
        pose proof (stream_response_tight _ _ E2) as T2. fold r2 in T2.
        split; [now apply generated_nonempty|]. right. now exists r2.
      * split; [exact Hc|now left].
    + exists (format_speaker_paragraphs (remove_duplicates r1)), 1.
      split; [now apply process_chunk_long_enough|].
      split; [now left|].
      replace (length log + 1 - 1) with (length log) by lia. fold r1.
      split; [now apply generated_nonempty|]. right. now exists r1.
  - apply nonempty_false in E1. exists chunk, 1.
    split; [now apply process_chunk_falls_back|].
    split; [now left|]. split; [exact Hc|now left].
Qed.

Lemma process_chunk_entry_witness :
  exists entry k,
    process_chunk Samples.short_then_short Samples.chunk10 []
    = (Returned entry,
       [] ++ repeat (processing_prompt Samples.chunk10, true) k)
    /\ (k = 1 \/ k = 2)
    /\ entry <> []
    /\ (entry = Samples.chunk10
        \/ exists answer,
             answer = _stream_response
                        (stream_answer Samples.short_then_short
                           (length (@nil request) + k - 1)) 0
             /\ answer <> []
             /\ entry = format_speaker_paragraphs (remove_duplicates answer)).
Proof.
  apply (process_chunk_entry Samples.short_then_short Samples.chunk10 []).
  discriminate.
Defined.

Lemma join_paragraphs_nonempty (rs : list str) :
  rs <> [] -> Forall (fun r => r <> []) rs -> join_paragraphs rs <> [].
Proof.
  intros Hn Hr. destruct rs as [|r rs]; [congruence|].
  inversion Hr; subst. destruct rs.
  - assumption.
  - rewrite join_paragraphs_cons by discriminate. destruct r; [congruence|discriminate].
Qed.

Lemma split_text_not_nil (text : str) (max_chars : Z) :
  split_text text max_chars <> [].
Proof.
  unfold split_text, chunks_or_text.
  destruct (speaker_blocks text).
  - destruct (pack_sentences _ _ _ _); discriminate.
  - destruct (pack_blocks _ _ _ _); discriminate.
Qed.

(** X24: on a transcript that is not empty, the batch returns a document
    that is not empty, made of one entry, not empty, for each chunk; and
    the requests it makes are, for each chunk in turn, one or two requests
    with that chunk's prompt, and no other. *)
Theorem process_transcript_document (ep : endpoint) (transcript : str)
    (log : list request) :
  transcript <> [] ->
  exists entries ks,
    process_transcript ep transcript log
    = (Returned (join_paragraphs entries),
       log ++ requests_for (split_text transcript 1000) ks)
    /\ join_paragraphs entries <> []
    /\ length entries = length (split_text transcript 1000)
    /\ Forall (fun entry => entry <> []) entries
    /\ length ks = length (split_text transcript 1000)
    /\ Forall (fun k => k = 1 \/ k = 2) ks.
Proof.
  intros Ht. unfold process_transcript.
  destruct (process_chunks_trace ep (split_text transcript 1000)
              (split_text_segments_nonempty transcript 1000 Ht) [] log)
    as (rs & ks & -> & Hl & Hlk & Hks & Hr).
  exists rs, ks. cbn [app]. destruct transcript; [congruence|].
  repeat split; try assumption.
  apply join_paragraphs_nonempty; [|exact Hr].
  pose proof (split_text_not_nil (c :: transcript) 1000).
  destruct rs; [|discriminate]. simpl in Hl.
  destruct (split_text (c :: transcript) 1000); [congruence|discriminate].
Qed.

Lemma process_transcript_document_witness :
  exists entries ks,
    process_transcript Samples.echo_then_short Samples.two_long_turns []
    = (Returned (join_paragraphs entries),
       [] ++ requests_for (split_text Samples.two_long_turns 1000) ks)
    /\ join_paragraphs entries <> []
    /\ length entries = length (split_text Samples.two_long_turns 1000)
    /\ Forall (fun entry => entry <> []) entries
    /\ length ks = length (split_text Samples.two_long_turns 1000)
    /\ Forall (fun k => k = 1 \/ k = 2) ks.
Proof.
  apply (process_transcript_document Samples.echo_then_short
           Samples.two_long_turns []).
  discriminate.
Defined.

Lemma process_chunks_all_fail_log (ep : endpoint) (chunks : list str) :
  (forall n, _stream_response (stream_answer ep n) 0 = []) ->
  forall processed log,
    process_chunks ep chunks processed log
    = (Returned (processed ++ chunks),
       log ++ map (fun chunk => (processing_prompt chunk, true)) chunks).
Proof.
  intros Hep. induction chunks as [|chunk rest IH]; intros processed log;
    cbn [process_chunks map].
  - now rewrite !app_nil_r.
  - rewrite process_chunk_falls_back by apply Hep.
    rewrite IH, <- !app_assoc. reflexivity.
Qed.

(** X25: when every generation comes back empty (endpoint down, time-outs,
    blank answers), the document is the transcript's chunks joined by blank
    lines, and each chunk has cost exactly one request. *)
Theorem process_transcript_endpoint_down (ep : endpoint) (transcript : str)
    (log : list request) :
  (forall n, _stream_response (stream_answer ep n) 0 = []) ->
  transcript <> [] ->
  process_transcript ep transcript log
  = (Returned (join_paragraphs (split_text transcript 1000)),
     log ++ map (fun chunk => (processing_prompt chunk, true))
              (split_text transcript 1000)).
Proof.
  intros Hep Ht. unfold process_transcript.
  rewrite process_chunks_all_fail_log by exact Hep.
  destruct transcript; [congruence|reflexivity].
Qed.

Lemma process_transcript_endpoint_down_witness :
  process_transcript Samples.unreachable Samples.two_turns []
  = (Returned (join_paragraphs (split_text Samples.two_turns 1000)),
     [] ++ map (fun chunk => (processing_prompt chunk, true))
             (split_text Samples.two_turns 1000)).
Proof.
  apply (process_transcript_endpoint_down Samples.unreachable
           Samples.two_turns []).
  - intros n. reflexivity.
  - discriminate.
Defined.
